(** * A verified model of the playlist index of [music_player.py]

    The development embeds the data structures of the player (the doubly
    linked playlist, the title trie, the back stack, the play-count ledger)
    and the orchestration methods of [MusicPlayerApp] as Rocq functions, and
    proves the properties of the design document about them.

    Conventions.
    - Python [str] is [string]; [str.lower] is the character-wise map
      [lower], which is Python's function on ASCII text.  No theorem relies
      on [lower] keeping lengths or commuting with concatenation, which
      [str.lower] does not do beyond ASCII.
    - Python [int] is [Z].
    - A [dict] whose iteration order is observable (the children of a trie
      node) is an association list in insertion order; a [dict] that is only
      looked up and updated is a [gmap].
    - Loops whose termination depends on the shape of the data carry a fuel
      argument and return [None] when it runs out; the theorems show that the
      fuel the callers pass is enough. *)

From Stdlib Require Import ZArith Ascii String List Permutation Sorted Lia.
From Stdlib Require OrderedTypeEx.
From stdpp Require Import base option list gmap strings pretty sorting.

Local Open Scope string_scope.
Local Open Scope Z_scope.
Local Open Scope list_scope.

(** ** Python string and path helpers *)

Module Py.

(** [str.lower] on one ASCII character: the letters [A-Z] go to [a-z], every
    other character stays. *)
Definition lower_ascii (c : ascii) : ascii :=
  let n := nat_of_ascii c in
  if ((65 <=? n) && (n <=? 90))%nat then ascii_of_nat (n + 32) else c.

(** [str.lower], character by character.  This is Python's function on
    ASCII strings only; beyond ASCII [str.lower] need not keep the length of
    a string nor commute with concatenation.  The theorems below use [lower]
    as the key under which a title is filed and assume no more of it. *)
Fixpoint lower (s : string) : string :=
  match s with
  | EmptyString => EmptyString
  | String c s' => String (lower_ascii c) (lower s')
  end.

(** [s.endswith(suffix)]. *)
Definition endswith (s suffix : string) : bool :=
  let n := String.length s in
  let k := String.length suffix in
  if (k <=? n)%nat then bool_decide (substring (n - k) k s = suffix) else false.

(** [s.rfind(c)], counting positions from [i]; [-1] when [c] is absent. *)
Fixpoint rfind_from (i : Z) (c : ascii) (s : string) : Z :=
  match s with
  | EmptyString => -1
  | String a s' =>
      let r := rfind_from (i + 1) c s' in
      if 0 <=? r then r else if bool_decide (a = c) then i else -1
  end.

Definition rfind (c : ascii) (s : string) : Z := rfind_from 0 c s.

(** The slices [s[i:]] and [s[:i]] for [0 <= i]. *)
Definition slice_from (i : Z) (s : string) : string :=
  substring (Z.to_nat i) (String.length s - Z.to_nat i) s.
Definition slice_to (i : Z) (s : string) : string :=
  substring 0 (Z.to_nat i) s.

(** [os.path.join(a, b)] of [posixpath]. *)
Definition path_join (a b : string) : string :=
  if String.prefix "/" b then b
  else if bool_decide (a = EmptyString) || endswith a "/" then a +:+ b
  else a +:+ "/" +:+ b.

(** [os.path.basename(p)] of [posixpath]. *)
Definition basename (p : string) : string := slice_from (rfind "/" p + 1) p.

(** The loop of [genericpath._splitext] that skips leading dots; it runs
    at most [dotIndex - filenameIndex] times. *)
Fixpoint splitext_scan (n : nat) (p : string) (filenameIndex dotIndex : Z)
  : string * string :=
  match n with
  | O => (p, EmptyString)
  | S n' =>
      if filenameIndex <? dotIndex then
        if bool_decide (String.get (Z.to_nat filenameIndex) p ≠ Some "."%char)
        then (slice_to dotIndex p, slice_from dotIndex p)
        else splitext_scan n' p (filenameIndex + 1) dotIndex
      else (p, EmptyString)
  end.

(** [os.path.splitext(p)] of [posixpath]. *)
Definition splitext (p : string) : string * string :=
  let sepIndex := rfind "/" p in
  let dotIndex := rfind "." p in
  if sepIndex <? dotIndex
  then splitext_scan (Z.to_nat (dotIndex - (sepIndex + 1))) p (sepIndex + 1) dotIndex
  else (p, EmptyString).

(** Insertion of [x] behind every element whose key is not greater: one
    step of a stable sort. *)
Fixpoint insert_sorted {A} (key : A → string) (x : A) (l : list A) : list A :=
  match l with
  | [] => [x]
  | y :: l' =>
      if String.ltb (key x) (key y) then x :: y :: l'
      else y :: insert_sorted key x l'
  end.

(** [sorted(l, key=key)]: Python's sort is stable, so its result is the one
    of any stable sort. *)
Definition sorted {A} (key : A → string) (l : list A) : list A :=
  fold_left (λ acc x, insert_sorted key x acc) l [].

(** [c.isspace()] for an ASCII character. *)
Definition is_space (c : ascii) : bool :=
  let n := nat_of_ascii c in
  (((9 <=? n) && (n <=? 13)) || ((28 <=? n) && (n <=? 32)))%nat.

(** [s.lstrip()]. *)
Fixpoint lstrip (s : string) : string :=
  match s with
  | EmptyString => EmptyString
  | String c s' => if is_space c then lstrip s' else s
  end.

(** [s.rstrip()]. *)
Fixpoint rstrip (s : string) : string :=
  match s with
  | EmptyString => EmptyString
  | String c s' =>
      match rstrip s' with
      | EmptyString => if is_space c then EmptyString else String c EmptyString
      | r => String c r
      end
  end.

(** [s.strip()]. *)
Definition strip (s : string) : string := rstrip (lstrip s).

End Py.

(** ** The title trie *)

(** [TrieNode]: [children] is the insertion-ordered dict of the node. *)
#[warnings="-register-all"] Inductive TrieNode : Type :=
  mkTrieNode { children : list (ascii * TrieNode); ends : list string }.

(** [Trie]. *)
Record Trie : Type := mkTrie { root : TrieNode }.

Module TrieOps.

(** [TrieNode()]. *)
Definition new_node : TrieNode := mkTrieNode [] [].

(** [Trie()]. *)
Definition new_trie : Trie := mkTrie new_node.

(** [d.get(ch)] on the children dict. *)
Fixpoint get_child (ch : ascii) (cs : list (ascii * TrieNode)) : option TrieNode :=
  match cs with
  | [] => None
  | (c, n) :: cs' => if bool_decide (c = ch) then Some n else get_child ch cs'
  end.

(** [d[ch] = n]: an existing key keeps its position, a new key goes last. *)
Fixpoint set_child (ch : ascii) (n : TrieNode) (cs : list (ascii * TrieNode))
  : list (ascii * TrieNode) :=
  match cs with
  | [] => [(ch, n)]
  | (c, m) :: cs' =>
      if bool_decide (c = ch) then (c, n) :: cs' else (c, m) :: set_child ch n cs'
  end.

(** Lines 88-91: the capped list of titles of a terminal node. *)
Definition store_end (word : string) (es : list string) : list string :=
  if bool_decide (word ∈ es) then es
  else
    let es' := es ++ [word] in
    if (20 <? length es')%nat then drop 1 es' else es'.

(** The descent of [insert] along the characters still to be read, with the
    in-place updates of the visited nodes written as a rebuilt path. *)
Fixpoint insert_path (chars : string) (word : string) (node : TrieNode) : TrieNode :=
  match chars with
  | EmptyString => mkTrieNode (children node) (store_end word (ends node))
  | String ch rest =>
      let child := default new_node (get_child ch (children node)) in
      mkTrieNode (set_child ch (insert_path rest word child) (children node))
                 (ends node)
  end.

(** [Trie.insert]. *)
Definition insert (word : string) (t : Trie) : Trie :=
  mkTrie (insert_path (Py.lower word) word (root t)).

(** The descent of [prefix_search]; [None] is the early [return []]. *)
Fixpoint descend (chars : string) (node : TrieNode) : option TrieNode :=
  match chars with
  | EmptyString => Some node
  | String ch rest =>
      match get_child ch (children node) with
      | None => None
      | Some child => descend rest child
      end
  end.

(** The queue entries pushed for the children of [n]. *)
Definition child_entries (prefix : string) (n : TrieNode) : list (TrieNode * string) :=
  map (λ '(ch, child), (child, prefix +:+ String ch EmptyString)) (children n).

(** The [while q and len(results) < limit] loop. *)
Fixpoint bfs_loop (fuel : nat) (prefix : string) (limit : Z)
    (q : list (TrieNode * string)) (results : list string) : option (list string) :=
  match q with
  | [] => Some results
  | (n, _) :: q' =>
      if Z.of_nat (length results) <? limit then
        match fuel with
        | O => None
        | S fuel' =>
            bfs_loop fuel' prefix limit (q' ++ child_entries prefix n) (results ++ ends n)
        end
      else Some results
  end.

(** The deduplicating [for w in results] loop. *)
Fixpoint dedupe_loop (limit : Z) (results : list string) (seen : gset string)
    (out : list string) : list string :=
  match results with
  | [] => out
  | w :: rest =>
      let '(seen', out') :=
        if bool_decide (w ∈ seen) then (seen, out) else ({[w]} ∪ seen, out ++ [w]) in
      if limit <=? Z.of_nat (length out') then out'
      else dedupe_loop limit rest seen' out'
  end.

(** Number of nodes of a subtree: the number of iterations the queue loop
    can make from it. *)
Fixpoint node_size (n : TrieNode) : nat :=
  match n with
  | mkTrieNode cs _ => S (list_sum (map (λ '(_, c), node_size c) cs))
  end.

(** [Trie.prefix_search]. *)
Definition prefix_search (t : Trie) (prefix : string) (limit : Z)
  : option (list string) :=
  match descend (Py.lower prefix) (root t) with
  | None => Some []
  | Some node =>
      match bfs_loop (node_size node) prefix limit [(node, prefix)] [] with
      | None => None
      | Some results => Some (dedupe_loop limit results ∅ [])
      end
  end.

End TrieOps.

Import TrieOps.

(** ** The playlist: nodes and the doubly linked list *)

(** A [Node] object.  Its address is its identity (what [is] compares);
    [title] and [path] are never assigned after construction.  The mutable
    fields [prev] and [next] of all nodes are kept in the [Heap], one finite
    map per field, keyed by address; a missing key is the value [None]. *)
Record Node : Type := mkNode { addr : nat; title : string; path : string }.

Record Heap : Type := mkHeap {
  next_addr : nat;
  prev_of : gmap nat Node;
  next_of : gmap nat Node }.

Module DLL.

(** [DoublyLinkedList]. *)
Record DoublyLinkedList : Type := mkDLL {
  head : option Node;
  tail : option Node;
  size : nat }.

(** [DoublyLinkedList()]. *)
Definition new : DoublyLinkedList := mkDLL None None 0.

(** [Node(title, path)]: a fresh object whose [prev] and [next] are [None]. *)
Definition alloc (title path : string) (h : Heap) : Heap * Node :=
  let a := next_addr h in
  (mkHeap (S a) (delete a (prev_of h)) (delete a (next_of h)), mkNode a title path).

(** [DoublyLinkedList.append]. *)
Definition append (title path : string) (h : Heap) (d : DoublyLinkedList)
  : Heap * DoublyLinkedList * Node :=
  let '(h1, node) := alloc title path h in
  match tail d with
  | None => (h1, mkDLL (Some node) (Some node) (S (size d)), node)
  | Some t =>
      (mkHeap (next_addr h1)
              (<[addr node := t]> (prev_of h1))
              (<[addr t := node]> (next_of h1)),
       mkDLL (head d) (Some node) (S (size d)), node)
  end.

(** [DoublyLinkedList.clear]. *)
Definition clear (d : DoublyLinkedList) : DoublyLinkedList := mkDLL None None 0.

(** The [while cur] loop of [to_list]. *)
Fixpoint to_list_loop (fuel : nat) (h : Heap) (cur : option Node) (out : list Node)
  : option (list Node) :=
  match cur with
  | None => Some out
  | Some n =>
      match fuel with
      | O => None
      | S fuel' => to_list_loop fuel' h (next_of h !! addr n) (out ++ [n])
      end
  end.

(** [DoublyLinkedList.to_list]; the loop is given one step per counted
    node. *)
Definition to_list (h : Heap) (d : DoublyLinkedList) : option (list Node) :=
  to_list_loop (size d) h (head d) [].

(** One round of the loop of [from_nodes]; the state is the heap,
    [self.head] and the local [prev]. *)
Definition from_nodes_step (st : Heap * option Node * option Node) (n : Node)
  : Heap * option Node * option Node :=
  let '(h, hd, prev) := st in
  let h1 := mkHeap (next_addr h) (delete (addr n) (prev_of h)) (delete (addr n) (next_of h)) in
  let hd' := match hd with None => Some n | Some _ => hd end in
  let h2 :=
    match prev with
    | Some p =>
        mkHeap (next_addr h1) (<[addr n := p]> (prev_of h1)) (<[addr p := n]> (next_of h1))
    | None => h1
    end in
  (h2, hd', Some n).

(** [DoublyLinkedList.from_nodes]. *)
Definition from_nodes (nodes : list Node) (h : Heap) (d : DoublyLinkedList)
  : Heap * DoublyLinkedList :=
  let '(h', hd, prev) := foldl from_nodes_step (h, head (clear d), None) nodes in
  (h', mkDLL hd prev (length nodes)).

End DLL.

(** ** The playback engine *)

(** What [pygame.mixer.music] is doing. *)
Inductive Stream : Type := Idle | Playing | Paused.

(** The calls made on [pygame.mixer.music]. *)
Inductive MixerCall : Type :=
| MLoad (file : string) | MPlay | MPause | MUnpause | MStop.

(** [pygame.mixer.music] after its documentation: the state of the stream
    and the calls received so far. *)
Record Mixer : Type := mkMixer { stream : Stream; calls : list MixerCall }.

Module Music.

Definition load (file : string) (m : Mixer) : Mixer :=
  mkMixer Idle (calls m ++ [MLoad file]).
Definition play (m : Mixer) : Mixer := mkMixer Playing (calls m ++ [MPlay]).
Definition pause (m : Mixer) : Mixer :=
  mkMixer (match stream m with Playing => Paused | st => st end) (calls m ++ [MPause]).
Definition unpause (m : Mixer) : Mixer :=
  mkMixer (match stream m with Paused => Playing | st => st end) (calls m ++ [MUnpause]).
Definition stop (m : Mixer) : Mixer := mkMixer Idle (calls m ++ [MStop]).

(** [get_busy]: true while the stream is actively playing, false when it
    is paused, idle or stopped (pygame 2.0.1 and later). *)
Definition get_busy (m : Mixer) : bool :=
  match stream m with Playing => true | _ => false end.

(** The track that is playing comes to its end. *)
Definition finish (m : Mixer) : Mixer :=
  mkMixer (match stream m with Playing => Idle | st => st end) (calls m).

End Music.

(** [MusicEngine]; the volume, a float, is left out. *)
Record MusicEngine : Type := mkEngine { paused : bool; mixer : Mixer }.

Module Engine.

(** [MusicEngine()]. *)
Definition new : MusicEngine := mkEngine false (mkMixer Idle []).

Section Loading.
(** [load_error file] is the message of the exception that
    [pygame.mixer.music.load(file)] raises, if it raises. *)
Context (load_error : string → option string).

(** [MusicEngine.load_and_play]; [inr msg] is a raised exception. *)
Definition load_and_play (file : string) (e : MusicEngine) : MusicEngine + string :=
  match load_error file with
  | Some msg => inr msg
  | None => inl (mkEngine false (Music.play (Music.load file (mixer e))))
  end.
End Loading.

Definition pause (e : MusicEngine) : MusicEngine := mkEngine true (Music.pause (mixer e)).
Definition resume (e : MusicEngine) : MusicEngine := mkEngine false (Music.unpause (mixer e)).
Definition stop (e : MusicEngine) : MusicEngine := mkEngine false (Music.stop (mixer e)).
Definition is_busy (e : MusicEngine) : bool := Music.get_busy (mixer e).

End Engine.

(** ** The ranking heap *)

Module Heapq.

(** Python's order on the tuples [(-cnt, title)]. *)
Definition tuple_ltb (a b : Z * string) : bool :=
  (a.1 <? b.1) || ((a.1 =? b.1) && String.ltb a.2 b.2).

(** The least entry of [m :: h]. *)
Fixpoint least (m : Z * string) (h : list (Z * string)) : Z * string :=
  match h with
  | [] => m
  | x :: h' => least (if tuple_ltb x m then x else m) h'
  end.

Fixpoint remove_first (x : Z * string) (h : list (Z * string)) : list (Z * string) :=
  match h with
  | [] => []
  | y :: h' => if bool_decide (x = y) then h' else y :: remove_first x h'
  end.

(** [heapq.heapify] and [heapq.heappop] after their contract: a heap holds
    its entries, and a pop removes and returns the least of them. *)
Definition heapify (h : list (Z * string)) : list (Z * string) := h.

Definition heappop (h : list (Z * string)) : option ((Z * string) * list (Z * string)) :=
  match h with
  | [] => None
  | x :: h' => let m := least x h' in Some (m, remove_first m h)
  end.

End Heapq.

(** ** The application *)

(** Message boxes and windows opened so far. *)
Inductive Dialog : Type :=
| ShowInfo (caption msg : string)
| ShowError (caption msg : string)
| TopPlayedWindow (items : list (string * Z)).

(** The widgets the methods below write to: the playlist listbox with its
    selection, the suggestion listbox, the two labels, and the dialogs. *)
Record Ui : Type := mkUi {
  playlist : list string;
  selection : option nat;
  suggest_list : list string;
  now_label : string;
  status : string;
  dialogs : list Dialog }.

(** [MusicPlayerApp]: the attributes set in [__init__], and the heap of the
    [Node] objects they refer to. *)
Record App : Type := mkApp {
  heap : Heap;
  dll : DLL.DoublyLinkedList;
  history_stack : list Node;
  play_counts : gmap string Z;
  trie : Trie;
  shuffle_on : bool;
  current : option Node;
  node_by_title : gmap string Node;
  engine : MusicEngine;
  ui : Ui }.

Module Player.

Definition AUDIO_EXTS : list string := [".mp3"; ".wav"; ".ogg"].

(** The state after [__init__]. *)
Definition init : App :=
  mkApp (mkHeap 0 ∅ ∅) DLL.new [] ∅ new_trie false None ∅ Engine.new
        (mkUi [] None [] "—" "Load a folder to begin…" []).

(** *** Widget updates *)

Definition set_ui (u : Ui) (s : App) : App :=
  mkApp (heap s) (dll s) (history_stack s) (play_counts s) (trie s) (shuffle_on s)
        (current s) (node_by_title s) (engine s) u.

Definition set_status (text : string) (s : App) : App :=
  let u := ui s in
  set_ui (mkUi (playlist u) (selection u) (suggest_list u) (now_label u) text (dialogs u)) s.

Definition set_now_label (text : string) (s : App) : App :=
  let u := ui s in
  set_ui (mkUi (playlist u) (selection u) (suggest_list u) text (status u) (dialogs u)) s.

Definition open_dialog (d : Dialog) (s : App) : App :=
  let u := ui s in
  set_ui (mkUi (playlist u) (selection u) (suggest_list u) (now_label u) (status u)
               (dialogs u ++ [d])) s.

(** [_select_in_listbox]: selects the first row that shows [text]. *)
Definition _select_in_listbox (text : string) (s : App) : App :=
  let u := ui s in
  match list_find (λ t, t = text) (playlist u) with
  | Some (i, _) =>
      set_ui (mkUi (playlist u) (Some i) (suggest_list u) (now_label u) (status u)
                   (dialogs u)) s
  | None => s
  end.

(** *** Attribute updates *)

Definition set_engine (e : MusicEngine) (s : App) : App :=
  mkApp (heap s) (dll s) (history_stack s) (play_counts s) (trie s) (shuffle_on s)
        (current s) (node_by_title s) e (ui s).

Definition set_history (hs : list Node) (s : App) : App :=
  mkApp (heap s) (dll s) hs (play_counts s) (trie s) (shuffle_on s)
        (current s) (node_by_title s) (engine s) (ui s).

(** *** Folder / playlist *)

(** The [songs] list of [load_folder] for the entries [listing] of
    [folder]. *)
Definition songs_of (folder : string) (listing : list string) : list (string * string) :=
  let files := Py.path_join folder <$> listing in
  (λ p, ((Py.splitext (Py.basename p)).1, p))
    <$> filter (λ p, existsb (Py.endswith (Py.lower p)) AUDIO_EXTS = true) files.

(** The "Reset DSA" block of [load_folder]. *)
Definition reset (s : App) : App :=
  mkApp (heap s) (DLL.clear (dll s)) [] (play_counts s) new_trie (shuffle_on s)
        None ∅ (Engine.stop (engine s))
        (mkUi [] None [] (now_label (ui s)) (status (ui s)) (dialogs (ui s))).

(** One round of the "Fill data structures" loop; [nodes] is the local
    list of the method. *)
Definition fill_step (acc : App * list Node) (song : string * string) : App * list Node :=
  let '(s, nodes) := acc in
  let '(h, d, node) := DLL.append song.1 song.2 (heap s) (dll s) in
  let u := ui s in
  (mkApp h d (history_stack s) (play_counts s) (insert song.1 (trie s)) (shuffle_on s)
         (current s) (<[song.1 := node]> (node_by_title s)) (engine s)
         (mkUi (playlist u ++ [song.1]) (selection u) (suggest_list u) (now_label u)
               (status u) (dialogs u)),
   nodes ++ [node]).

(** [load_folder]: [folder] is what the directory dialog returned (empty
    when it was cancelled) and [listing] is [os.listdir(folder)]. *)
Definition load_folder (folder : string) (listing : list string) (s : App) : App :=
  if bool_decide (folder = EmptyString) then s
  else
    let songs := songs_of folder listing in
    match songs with
    | [] => open_dialog (ShowInfo "No audio" "No .mp3/.wav/.ogg files found in this folder.") s
    | _ =>
        let '(s', nodes) :=
          foldl fill_step (reset s, []) (Py.sorted (λ x, Py.lower x.1) songs) in
        set_now_label "—"
          (set_status ("Loaded " +:+ pretty (length nodes) +:+ " songs") s')
    end.

(** *** Playback *)

Section Playback.
Context (load_error : string → option string).

(** Line 322: the play count of [t] goes up by one, from 0 if absent. *)
Definition count_play (t : string) (pc : gmap string Z) : gmap string Z :=
  <[t := default 0 (pc !! t) + 1]> pc.

(** [play_node]. *)
Definition play_node (node : option Node) (s : App) : App :=
  match node with
  | None => s
  | Some n =>
      match Engine.load_and_play load_error (path n) (engine s) with
      | inr msg => open_dialog (ShowError "Playback error" msg) s
      | inl e =>
          let s1 :=
            mkApp (heap s) (dll s) (history_stack s) (count_play (title n) (play_counts s))
                  (trie s) (shuffle_on s) (Some n) (node_by_title s) e (ui s) in
          set_status ("Playing: " +:+ title n)
            (_select_in_listbox (title n) (set_now_label (title n) s1))
      end
  end.

(** [play_selected]. *)
Definition play_selected (s : App) : App :=
  let text :=
    match selection (ui s) with
    | None => playlist (ui s) !! 0%nat
    | Some i => playlist (ui s) !! i
    end in
  match text with
  | None => s
  | Some t =>
      if bool_decide (t = EmptyString) then s
      else
        match node_by_title s !! t with
        | None => s
        | Some node =>
            let s1 :=
              match current s with
              | Some c =>
                  if bool_decide (addr c ≠ addr node)
                  then set_history (history_stack s ++ [c]) s else s
              | None => s
              end in
            play_node (Some node) s1
        end
  end.

(** [_toggle_pause]. *)
Definition _toggle_pause (s : App) : App :=
  if Engine.is_busy (engine s) && negb (paused (engine s))
  then set_status "Paused" (set_engine (Engine.pause (engine s)) s)
  else set_status "Resumed" (set_engine (Engine.resume (engine s)) s).

(** [stop_song]. *)
Definition stop_song (s : App) : App :=
  set_status "Stopped" (set_engine (Engine.stop (engine s)) s).

(** [random.choice(seq)] when the generator draws [r]: the element at
    position [r mod len(seq)]. *)
Definition choice (r : nat) (seq : list Node) : option Node :=
  seq !! (r `mod` length seq)%nat.

(** [_random_next]; the outer [None] is a traversal of the playlist that
    does not end. *)
Definition _random_next (r : nat) (s : App) : option (option Node) :=
  match DLL.to_list (heap s) (dll s) with
  | None => None
  | Some nodes =>
      Some
        match nodes with
        | [] => None
        | _ =>
            match current s with
            | None => choice r nodes
            | Some c =>
                if bool_decide (length nodes = 1%nat) then None
                else
                  let choices := filter (λ n, addr n ≠ addr c) nodes in
                  match choices with [] => None | _ => choice r choices end
            end
        end
  end.

(** Lines 363-367 of [next_song]: the choice of [nxt]; the outer [None] is
    a traversal that does not end. *)
Definition pick_next (r : nat) (s : App) : option (option Node) :=
  if shuffle_on s then _random_next r s
  else
    Some match current s with
         | Some c => next_of (heap s) !! addr c
         | None => DLL.head (dll s)
         end.

(** Lines 369-374 of [next_song]: what is done with [nxt]. *)
Definition go_next (nxt : option Node) (s : App) : App :=
  match nxt with
  | Some n =>
      let s1 :=
        match current s with
        | Some c => set_history (history_stack s ++ [c]) s
        | None => s
        end in
      play_node (Some n) s1
  | None => set_status "End of playlist" s
  end.

(** [next_song]; [r] is the draw of the random generator, read only when
    shuffle is on. *)
Definition next_song (r : nat) (s : App) : option App :=
  match pick_next r s with
  | None => None
  | Some nxt => Some (go_next nxt s)
  end.

(** [prev_song]. *)
Definition prev_song (s : App) : App :=
  match reverse (history_stack s) with
  | prev :: rest => play_node (Some prev) (set_history (reverse rest) s)
  | [] => set_status "No previous song" s
  end.

(** [_toggle_shuffle]; the checkbutton variable mirrors [shuffle_on] and is
    left out. *)
Definition _toggle_shuffle (s : App) : App :=
  let on := negb (shuffle_on s) in
  set_status ("Shuffle " +:+ (if on then "ON" else "OFF"))
    (mkApp (heap s) (dll s) (history_stack s) (play_counts s) (trie s) on
           (current s) (node_by_title s) (engine s) (ui s)).

(** The body of [_poll_playback], one tick of the timer. *)
Definition _poll_playback (r : nat) (s : App) : option App :=
  if negb (paused (engine s)) && bool_decide (is_Some (current s)) then
    if negb (Engine.is_busy (engine s)) then next_song r s else Some s
  else Some s.

(** The [play_sel] callback of the Top Played window; [sel] is the title
    of the selected row, if a row is selected. *)
Definition play_sel (sel : option string) (s : App) : App :=
  match sel with
  | None => s
  | Some t =>
      match node_by_title s !! t with
      | None => s
      | Some node =>
          let s1 :=
            match current s with
            | Some c => set_history (history_stack s ++ [c]) s
            | None => s
            end in
          play_node (Some node) s1
      end
  end.

(** [_go_to_first_suggestion]. *)
Definition _go_to_first_suggestion (s : App) : App :=
  match suggest_list (ui s) with
  | [] => s
  | t :: _ => play_selected (_select_in_listbox t s)
  end.

End Playback.

(** *** Search *)

Definition set_suggestions (rows : list string) (s : App) : App :=
  let u := ui s in
  set_ui (mkUi (playlist u) (selection u) rows (now_label u) (status u) (dialogs u)) s.

(** [_on_search_change]; [text] is the content of the search entry, and
    [None] is a search whose queue loop does not end. *)
Definition _on_search_change (text : string) (s : App) : option App :=
  let q := Py.strip text in
  let s1 := set_suggestions [] s in
  if bool_decide (q = EmptyString) then Some s1
  else
    match prefix_search (trie s) q 30 with
    | None => None
    | Some suggestions => Some (set_suggestions suggestions s1)
    end.

(** [_choose_suggestion]; [sel] is the selected row of the suggestion
    list, if there is one. *)
Definition _choose_suggestion (sel : option nat) (s : App) : App :=
  match sel with
  | None => s
  | Some i =>
      match suggest_list (ui s) !! i with
      | None => s
      | Some t => _select_in_listbox t s
      end
  end.

(** *** Top played *)

(** The [for _ in range(n)] loop of [show_top_played]; the range keeps [n]
    within the heap, where [heappop] does not fail. *)
Fixpoint pop_loop (n : nat) (heap : list (Z * string)) (items : list (string * Z))
  : list (string * Z) :=
  match n with
  | O => items
  | S n' =>
      match Heapq.heappop heap with
      | None => items
      | Some ((neg, t), heap') => pop_loop n' heap' (items ++ [(t, - neg)])
      end
  end.

(** The [items] that [show_top_played] lists for the ledger [pc]. *)
Definition top_items (top_k : Z) (pc : gmap string Z) : list (string * Z) :=
  let heap := Heapq.heapify ((λ e, (- e.2, e.1)) <$> map_to_list pc) in
  pop_loop (Z.to_nat (Z.min top_k (Z.of_nat (length heap)))) heap [].

(** [show_top_played], up to the opening of the window. *)
Definition show_top_played (top_k : Z) (s : App) : App :=
  if bool_decide (play_counts s = ∅)
  then open_dialog (ShowInfo "Top Played" "No play history yet.") s
  else open_dialog (TopPlayedWindow (top_items top_k (play_counts s))) s.

End Player.

(** * Vocabulary of the statements

    The definitions below are not part of the program: they say what the
    theorems state about it. *)

(** ** The title index *)

Module TrieSpec.

(** *** Breadth-first order, as the design document words it *)

(** The child nodes of [n], in the order of its children dict. *)
Definition kids (n : TrieNode) : list TrieNode := (children n).*2.

(** Number of nodes in the subtrees of [ns]. *)
Definition forest_size (ns : list TrieNode) : nat := list_sum (node_size <$> ns).

(** The nodes below [level]: [level] itself, then the children of its
    nodes, level by level; [depth] bounds the number of levels. *)
Fixpoint level_nodes (depth : nat) (level : list TrieNode) : list TrieNode :=
  match depth with
  | O => []
  | S d =>
      match level with
      | [] => []
      | _ => level ++ level_nodes d (level ≫= kids)
      end
  end.

(** The titles of the subtree of [n] in breadth-first order: those stored
    at [n] first, then those of its descendants, level by level. *)
Definition level_order (n : TrieNode) : list string :=
  level_nodes (node_size n) [n] ≫= ends.

(** Removal of repeated titles that keeps the first occurrence of each. *)
Fixpoint dedupe (l : list string) : list string :=
  match l with
  | [] => []
  | w :: l' => w :: filter (λ v, v ≠ w) (dedupe l')
  end.

(** Visiting nodes in a given order while fewer than [limit] titles have
    been gathered. *)
Fixpoint scan (limit : Z) (results : list string) (ns : list TrieNode) : list string :=
  match ns with
  | [] => results
  | n :: ns' =>
      if Z.of_nat (length results) <? limit then scan limit (results ++ ends n) ns'
      else results
  end.

(** *** Titles and the paths that lead to them *)

(** A stored title seen from the parent: its path grows by the key [c]. *)
Definition under (c : ascii) (e : string * string) : string * string :=
  (String c e.1, e.2).

(** The titles stored below [n], each with the characters that lead from
    [n] to the node that holds it. *)
Fixpoint stored (n : TrieNode) : list (string * string) :=
  match n with
  | mkTrieNode cs es =>
      ((λ w, (EmptyString, w)) <$> es) ++ (cs ≫= λ '(c, m), under c <$> stored m)
  end.

(** The titles stored below [n]. *)
Definition titles (n : TrieNode) : list string := (stored n).*2.

(** The titles held by the node at the end of [chars], if there is one. *)
Definition ends_at (chars : string) (n : TrieNode) : list string :=
  match descend chars n with Some m => ends m | None => [] end.

(** No title twice in a node, no key twice in a children dict. *)
#[warnings="-register-all"] Inductive shape_ok : TrieNode → Prop :=
  ShapeOk cs es :
    NoDup es → NoDup cs.*1 → Forall (λ e, shape_ok e.2) cs →
    shape_ok (mkTrieNode cs es).

(** *** The index built by a sequence of insertions *)

(** The trie after [insert] of the titles [ws], in order, into [Trie()]. *)
Definition build (ws : list string) : Trie := foldl (λ t w, insert w t) new_trie ws.

(** The inserted titles whose lower-case form is [p]. *)
Definition spelled (p : string) (ws : list string) : list string :=
  filter (λ w, Py.lower w = p) ws.

(** The titles of the index that match [prefix]. *)
Definition matching (t : Trie) (prefix : string) : list string :=
  match descend (Py.lower prefix) (root t) with
  | Some node => titles node
  | None => []
  end.

(** Some character of the query has no matching child. *)
Definition no_match (chars : string) (n : TrieNode) : Prop :=
  ∃ pre c rest m,
    chars = pre +:+ String c rest ∧ descend pre n = Some m
    ∧ get_child c (children m) = None.

End TrieSpec.

(** ** The playlist *)

Module DLLSpec.

(** The links of the nodes of [l] chain them in the order of [l]. *)
Definition linked (h : Heap) (l : list Node) : Prop :=
  ∀ i n, l !! i = Some n →
    next_of h !! addr n = l !! S i
    ∧ prev_of h !! addr n = match i with O => None | S j => l !! j end.

(** The list [d] in the heap [h] holds the nodes [l], in this order. *)
Record dll_repr (h : Heap) (d : DLL.DoublyLinkedList) (l : list Node) : Prop := {
  repr_head : DLL.head d = l !! 0%nat;
  repr_tail : DLL.tail d = last l;
  repr_size : DLL.size d = length l;
  repr_addr : ∀ n, n ∈ l → (addr n < next_addr h)%nat;
  repr_nodup : NoDup (addr <$> l);
  repr_links : linked h l }.

End DLLSpec.

(** ** The application *)

Module PlayerSpec.

Import Player TrieSpec DLLSpec.

(** The song a node stands for. *)
Definition song_of (n : Node) : string * string := (title n, path n).

(** The registry assignment [node_by_title[title] = node]. *)
Definition register (m : gmap string Node) (n : Node) : gmap string Node :=
  <[title n := n]> m.

(** The sorted songs that [load_folder] works through. *)
Definition sorted_songs (folder : string) (listing : list string) : list (string * string) :=
  Py.sorted (λ x, Py.lower x.1) (songs_of folder listing).

(** The heap entry of a ledger entry, and back. *)
Definition entry_tuple (e : string * Z) : Z * string := (- e.2, e.1).
Definition tuple_entry (e : Z * string) : string * Z := (e.2, - e.1).

(** Play counts do not increase along the list. *)
Definition descending (items : list (string * Z)) : Prop :=
  StronglySorted (λ a b, b.2 ≤ a.2) items.

End PlayerSpec.

(** ** Concrete runs *)

Module Runs.

Import Player.

(** An engine that loads every file. *)
Definition loads_all : string → option string := λ _, None.

(** 21 titles that differ only in the case of their letters. *)
Definition case_variants : list string :=
  ["track"; "Track"; "tRack"; "TRack"; "trAck"; "TrAck"; "tRAck"; "TRAck";
   "traCk"; "TraCk"; "tRaCk"; "TRaCk"; "trACk"; "TrACk"; "tRACk"; "TRACk";
   "tracK"; "TracK"; "tRacK"; "TRacK"; "trAcK"].

(** A folder with two tracks, loaded into a fresh application. *)
Definition two_tracks : App := load_folder "/music" ["a.mp3"; "b.mp3"] init.

(** The first track is played, then the user presses Stop. *)
Definition playing_a : App := play_selected loads_all two_tracks.
Definition stopped_a : App := stop_song playing_a.

(** A folder with one track, loaded into a fresh application, shuffle
    switched on. *)
Definition one_track_shuffled : App :=
  _toggle_shuffle (load_folder "/music" ["a.mp3"] init).

(** The nodes of the two tracks. *)
Definition node_a : Node := mkNode 0 "a" "/music/a.mp3".
Definition node_b : Node := mkNode 1 "b" "/music/b.mp3".

(** An engine that cannot load the second track. *)
Definition fails_b : string → option string :=
  λ file, if bool_decide (file = "/music/b.mp3") then Some "cannot open" else None.

End Runs.

(** ** Further vocabulary *)

Module TrieMoreSpec.

Import TrieSpec.

(** The lower-cased form of a title is the path that leads to it. *)
Definition key_length (w : string) : nat := String.length (Py.lower w).

(** The node [n] lies [k] characters deep: a title stored [q] below it has
    a key of length [k] plus the length of [q]. *)
Definition at_depth (k : nat) (n : TrieNode) : Prop :=
  ∀ q w, (q, w) ∈ stored n → key_length w = (k + String.length q)%nat.

End TrieMoreSpec.

Module DLLMoreSpec.

(** [append] of the songs, one after the other. *)
Definition append_all (songs : list (string * string)) (h : Heap)
    (d : DLL.DoublyLinkedList) : Heap * DLL.DoublyLinkedList :=
  foldl (λ st song, (DLL.append song.1 song.2 st.1 st.2).1) (h, d) songs.

End DLLMoreSpec.

Module PlayerMoreSpec.

Import Player.

(** The nodes of [l] that carry the title [t]. *)
Definition titled (t : string) (l : list Node) : list Node :=
  filter (λ n, title n = t) l.

(** The lower-cased first title is not behind the lower-cased second. *)
Definition title_le (a b : string) : Prop :=
  String.leb (Py.lower a) (Py.lower b) = true.

(** [next_song] called [k] times in a row. *)
Fixpoint next_times (load_error : string → option string) (r k : nat) (s : App)
  : option App :=
  match k with
  | O => Some s
  | S k' => next_times load_error r k' s ≫= next_song load_error r
  end.

(** The track that is playing comes to its end: the mixer falls idle. *)
Definition track_finished (s : App) : App :=
  set_engine (mkEngine (paused (engine s)) (Music.finish (mixer (engine s)))) s.

(** An entry of the ranking stands before another: it has the larger count,
    or the same count and the smaller title. *)
Definition ranked_before (a b : string * Z) : Prop :=
  b.2 < a.2 ∨ (b.2 = a.2 ∧ String.ltb a.1 b.1 = true).

End PlayerMoreSpec.

(** ** The application as a machine driven by events *)

Module MachineSpec.

Import Player TrieSpec DLLSpec PlayerSpec PlayerMoreSpec.

(** What the user and the environment can make happen: the buttons, keys
    and callbacks bound in [__init__] and [_build_ui], a click on a row of
    the playlist, a tick of the timer, and the end of the playing track. *)
Inductive Command : Type :=
| LoadFolder (folder : string) (listing : list string)
| SelectRow (i : nat)
| PlaySelected
| TogglePause
| Stop
| Next (r : nat)
| Prev
| ToggleShuffle
| Tick (r : nat)
| TrackFinished
| ShowTopPlayed (k : Z)
| PlaySel (sel : option string)
| Search (text : string)
| ChooseSuggestion (sel : option nat)
| GoToFirstSuggestion.

(** A click on row [i] of the playlist listbox selects it, if it exists. *)
Definition select_row (i : nat) (s : App) : App :=
  let u := ui s in
  if (i <? length (playlist u))%nat
  then set_ui (mkUi (playlist u) (Some i) (suggest_list u) (now_label u) (status u)
                    (dialogs u)) s
  else s.

(** The method each event calls; [None] is a call that does not return. *)
Definition run (load_error : string → option string) (c : Command) (s : App)
  : option App :=
  match c with
  | LoadFolder folder listing => Some (load_folder folder listing s)
  | SelectRow i => Some (select_row i s)
  | PlaySelected => Some (play_selected load_error s)
  | TogglePause => Some (_toggle_pause s)
  | Stop => Some (stop_song s)
  | Next r => next_song load_error r s
  | Prev => Some (prev_song load_error s)
  | ToggleShuffle => Some (_toggle_shuffle s)
  | Tick r => _poll_playback load_error r s
  | TrackFinished => Some (track_finished s)
  | ShowTopPlayed k => Some (show_top_played k s)
  | PlaySel sel => Some (play_sel load_error sel s)
  | Search text => _on_search_change text s
  | ChooseSuggestion sel => Some (_choose_suggestion sel s)
  | GoToFirstSuggestion => Some (_go_to_first_suggestion load_error s)
  end.

(** The states the application can be in. *)
Inductive reachable (load_error : string → option string) : App → Prop :=
| reach_init : reachable load_error init
| reach_step c s s' :
    reachable load_error s → run load_error c s = Some s' → reachable load_error s'.

(** The attributes of [s] agree with the sequence of nodes [l]. *)
Record consistent (s : App) (l : list Node) : Prop := {
  cons_repr : dll_repr (heap s) (dll s) l;
  cons_rows : playlist (ui s) = title <$> l;
  cons_trie : trie s = build (title <$> l);
  cons_registry : ∀ t, node_by_title s !! t = last (titled t l);
  cons_current : ∀ c, current s = Some c → c ∈ l;
  cons_history : ∀ n, n ∈ history_stack s → n ∈ l;
  cons_suggest : ∀ w, w ∈ suggest_list (ui s) → w ∈ title <$> l }.

(** The [paused] flag of the engine says what the mixer does, and nothing
    plays while no track is current. *)
Definition engine_sound (s : App) : Prop :=
  (paused (engine s) = true ↔ stream (mixer (engine s)) = Paused)
  ∧ (current s = None → stream (mixer (engine s)) = Idle).

(** Every count of the ledger is at least 1. *)
Definition ledger_positive (pc : gmap string Z) : Prop :=
  ∀ t c, pc !! t = Some c → 1 ≤ c.

(** The invariant of the application. *)
Definition invariant (s : App) : Prop :=
  (∃ l, consistent s l) ∧ engine_sound s ∧ ledger_positive (play_counts s).

End MachineSpec.

(** ** Further runs *)

Module MoreRuns.

Import Player Runs MachineSpec.

(** An engine that cannot load the first track. *)
Definition fails_a : string → option string :=
  λ file, if bool_decide (file = "/music/a.mp3") then Some "cannot open" else None.

(** The second track is chosen in the Top Played window while the first
    one plays. *)
Definition playing_b : App := play_sel loads_all (Some "b") playing_a.

(** The user has typed [b] into the search entry. *)
Definition searched_b : App := set_suggestions ["b"] two_tracks.

(** A folder with two files of the same title, the first row selected. *)
Definition twins : App := select_row 0 (load_folder "/music" ["a.mp3"; "a.wav"] init).
Definition twin_mp3 : Node := mkNode 0 "a" "/music/a.mp3".
Definition twin_wav : Node := mkNode 1 "a" "/music/a.wav".

End MoreRuns.

(** * Proofs *)

(** ** Theory of the trie *)

Module TrieTheory.

Import TrieSpec.

(** Induction on trie nodes that reaches the children. *)
Lemma TrieNode_nested_ind (P : TrieNode → Prop) :
  (∀ cs es, Forall (λ e, P e.2) cs → P (mkTrieNode cs es)) → ∀ n, P n.
Proof.
  intros step. fix IH 1. intros [cs es]. apply step.
  induction cs as [|[c m] cs IHcs]; constructor; [apply IH | apply IHcs].
Qed.

(** *** The queue loop *)

Lemma node_size_kids n : node_size n = S (forest_size (kids n)).
Proof.
  destruct n as [cs es]. unfold kids, forest_size. simpl. f_equal. f_equal.
  induction cs as [|[c m] cs IH]; simpl; [done | by rewrite IH].
Qed.

Lemma forest_size_app l1 l2 : forest_size (l1 ++ l2) = (forest_size l1 + forest_size l2)%nat.
Proof. unfold forest_size. by rewrite fmap_app, list_sum_app. Qed.

Lemma forest_size_kids l :
  forest_size l = (length l + forest_size (l ≫= kids))%nat.
Proof.
  induction l as [|n l IH]; [done|].
  change (n :: l) with ([n] ++ l). rewrite forest_size_app, bind_app, bind_singleton.
  rewrite forest_size_app, IH. unfold forest_size at 1. simpl.
  rewrite node_size_kids. simpl. lia.
Qed.

Lemma forest_size_0 l : forest_size l = 0%nat → l = [].
Proof.
  destruct l as [|n l]; [done|]. unfold forest_size. simpl.
  rewrite node_size_kids. lia.
Qed.

Section Loop.
Context (prefix : string) (limit : Z).

Lemma scan_app res ns1 ns2 :
  scan limit res (ns1 ++ ns2) = scan limit (scan limit res ns1) ns2.
Proof.
  revert res. induction ns1 as [|n ns1 IH]; intros res; simpl; [done|].
  destruct (Z.of_nat (length res) <? limit) eqn:E; [apply IH|].
  destruct ns2; simpl; [done | by rewrite E].
Qed.

Lemma bfs_loop_full fuel q res :
  ¬ (Z.of_nat (length res) < limit) → bfs_loop fuel prefix limit q res = Some res.
Proof.
  intros Hfull. destruct fuel, q as [|[n l] q]; simpl; try done;
    by destruct (Z.ltb_spec (Z.of_nat (length res)) limit); [lia |].
Qed.

Lemma scan_full res ns :
  ¬ (Z.of_nat (length res) < limit) → scan limit res ns = res.
Proof.
  intros Hfull. destruct ns; simpl; [done|].
  by destruct (Z.ltb_spec (Z.of_nat (length res)) limit); [lia |].
Qed.

Lemma bfs_loop_nil fuel res : bfs_loop fuel prefix limit [] res = Some res.
Proof. by destruct fuel. Qed.

(** A whole level [q] of the queue is consumed before the entries behind
    it, and its children are queued behind those. *)
Lemma bfs_loop_level q r res fuel :
  bfs_loop (length q + fuel) prefix limit (q ++ r) res
  = bfs_loop fuel prefix limit
      (r ++ (q ≫= λ e, child_entries prefix e.1)) (scan limit res q.*1).
Proof.
  revert r res. induction q as [|[n l] q IH]; intros r res; simpl.
  - by rewrite app_nil_r.
  - destruct (Z.ltb_spec (Z.of_nat (length res)) limit) as [Hlt|Hge].
    + rewrite <- app_assoc, IH. by rewrite <- app_assoc.
    + symmetry. apply bfs_loop_full. lia.
Qed.

Lemma child_entries_fst n : (child_entries prefix n).*1 = kids n.
Proof.
  unfold child_entries, kids.
  induction (children n) as [|[c m] cs IH]; simpl; [done | f_equal; apply IH].
Qed.

Lemma child_entries_bind (q : list (TrieNode * string)) :
  (q ≫= λ e, child_entries prefix e.1).*1 = q.*1 ≫= kids.
Proof.
  induction q as [|[n l] q IH]; [done|]. csimpl.
  by rewrite fmap_app, child_entries_fst, IH.
Qed.

(** The queue loop gathers the titles in level order, with any fuel that
    covers the nodes below the queue. *)
Lemma bfs_loop_levels d : ∀ (q : list (TrieNode * string)) res fuel,
  (forest_size q.*1 ≤ d)%nat → (forest_size q.*1 ≤ fuel)%nat →
  bfs_loop fuel prefix limit q res = Some (scan limit res (level_nodes d q.*1)).
Proof.
  induction d as [|d IH]; intros q res fuel Hd Hfuel.
  - assert (q.*1 = []) as Hq by (apply forest_size_0; lia).
    destruct q; [apply bfs_loop_nil | discriminate].
  - destruct q as [|e q]; [apply bfs_loop_nil|].
    change (level_nodes (S d) (e :: q).*1)
      with ((e :: q).*1 ++ level_nodes d ((e :: q).*1 ≫= kids)).
    assert (0 < length (e :: q))%nat as Hpos by (simpl; lia).
    remember (e :: q) as q0 eqn:Hq0. clear Hq0 e q.
    pose proof (forest_size_kids q0.*1) as Hsz. rewrite length_fmap in Hsz.
    pose proof (bfs_loop_level q0 [] res (fuel - length q0)) as Hlevel.
    rewrite app_nil_r in Hlevel. simpl app in Hlevel.
    replace (length q0 + (fuel - length q0))%nat with fuel in Hlevel by lia.
    rewrite Hlevel, (IH _ _ (fuel - length q0)%nat);
      rewrite ?child_entries_bind; try lia.
    by rewrite scan_app.
Qed.

(** What a scan returns: a prefix of the titles in visiting order, which
    is all of them unless [limit] titles have been reached. *)
Lemma scan_spec ns : ∀ res,
  ∃ k, scan limit res ns = res ++ take k (ns ≫= ends)
       ∧ ((length (ns ≫= ends) ≤ k)%nat
          ∨ limit ≤ Z.of_nat (length res + k)).
Proof.
  induction ns as [|n ns IH]; intros res.
  - exists 0%nat. simpl. rewrite app_nil_r. split; [done | left; simpl; lia].
  - rewrite bind_cons. simpl scan.
    destruct (Z.ltb_spec (Z.of_nat (length res)) limit) as [Hlt|Hge].
    + destruct (IH (res ++ ends n)) as (k & -> & Hk).
      exists (length (ends n) + k)%nat. split.
      * rewrite <- app_assoc. f_equal. by rewrite take_app_add.
      * rewrite length_app in *. destruct Hk; [left | right]; lia.
    + exists 0%nat. rewrite take_0, app_nil_r. split; [done | right; lia].
Qed.

(** The deduplicating loop on a list without repetitions. *)
Lemma dedupe_loop_NoDup results : ∀ seen out,
  NoDup results → (∀ w, w ∈ results → w ∉ seen) →
  Z.of_nat (length out) < limit →
  dedupe_loop limit results seen out = take (Z.to_nat limit) (out ++ results).
Proof.
  induction results as [|w rest IH]; intros seen out Hnd Hseen Hout; simpl.
  - rewrite app_nil_r, take_ge; [done | lia].
  - apply NoDup_cons in Hnd as [Hw Hnd].
    rewrite bool_decide_eq_false_2 by (apply Hseen; left).
    destruct (Z.leb_spec limit (Z.of_nat (length (out ++ [w])))) as [Hle|Hgt];
      rewrite length_app in *; simpl in *.
    + replace (out ++ w :: rest) with ((out ++ [w]) ++ rest)
        by (by rewrite <- app_assoc).
      symmetry. apply take_app_length'. rewrite length_app; simpl; lia.
    + replace (out ++ w :: rest) with ((out ++ [w]) ++ rest)
        by (by rewrite <- app_assoc).
      apply IH; [done | | rewrite length_app; simpl; lia].
      intros v Hv. rewrite elem_of_union, elem_of_singleton.
      intros [->|Hin]; [done|]. by apply (Hseen v); [right|].
Qed.

End Loop.

Lemma dedupe_NoDup l : NoDup l → dedupe l = l.
Proof.
  induction 1 as [|w l Hw Hnd IH]; simpl; [done|]. rewrite IH. f_equal.
  clear IH Hnd. induction l as [|v l IH]; [done|].
  rewrite filter_cons_True by (intros ->; apply Hw; left).
  f_equal. apply IH. intros Hin. apply Hw. by right.
Qed.

(** *** Titles and the paths that lead to them *)

Lemma titles_unfold n : titles n = ends n ++ (kids n ≫= titles).
Proof.
  destruct n as [cs es]. unfold titles, kids. simpl. rewrite fmap_app. f_equal.
  - rewrite <- list_fmap_compose. apply list_fmap_id.
  - induction cs as [|[c m] cs IH]; [done|]. csimpl. rewrite fmap_app, IH.
    f_equal. by rewrite <- list_fmap_compose.
Qed.

Lemma bind_titles l : l ≫= titles ≡ₚ (l ≫= ends) ++ ((l ≫= kids) ≫= titles).
Proof.
  induction l as [|n l IH]; [done|].
  rewrite !bind_cons, bind_app, titles_unfold, IH.
  rewrite <- !app_assoc. f_equiv. rewrite !app_assoc. f_equiv.
  apply Permutation_app_comm.
Qed.

(** Level order and the path-indexed listing hold the same titles. *)
Lemma level_titles d : ∀ l,
  (forest_size l ≤ d)%nat → level_nodes d l ≫= ends ≡ₚ l ≫= titles.
Proof.
  induction d as [|d IH]; intros l Hd.
  - by rewrite (forest_size_0 l) by lia.
  - destruct l as [|n l]; [done|].
    change (level_nodes (S d) (n :: l))
      with ((n :: l) ++ level_nodes d ((n :: l) ≫= kids)).
    remember (n :: l) as l0 eqn:Hl0.
    assert (0 < length l0)%nat by (subst; simpl; lia).
    pose proof (forest_size_kids l0).
    rewrite bind_app, IH by lia. by rewrite <- bind_titles.
Qed.

Lemma level_order_titles n : level_order n ≡ₚ titles n.
Proof.
  unfold level_order. rewrite level_titles.
  - by rewrite bind_singleton.
  - unfold forest_size. simpl. lia.
Qed.

(** *** Children dicts *)

Lemma get_child_Some_elem ch cs m : get_child ch cs = Some m → (ch, m) ∈ cs.
Proof.
  induction cs as [|[c n] cs IH]; simpl; [done|].
  case_bool_decide.
  - intros [= ->]; subst. apply list_elem_of_here.
  - intros. apply list_elem_of_further. auto.
Qed.

Lemma get_child_elem ch cs m :
  NoDup cs.*1 → (ch, m) ∈ cs → get_child ch cs = Some m.
Proof.
  induction cs as [|[c n] cs IH]; simpl; [by intros _ ?%elem_of_nil|].
  intros [Hc Hnd]%NoDup_cons [[= -> ->]|Hin]%elem_of_cons.
  - by rewrite bool_decide_eq_true_2.
  - rewrite bool_decide_eq_false_2; [auto|].
    intros ->. apply Hc. by apply (list_elem_of_fmap_2 fst _ (ch, m)).
Qed.

Lemma get_set_child ch c n cs :
  get_child c (set_child ch n cs) = if bool_decide (ch = c) then Some n else get_child c cs.
Proof.
  induction cs as [|[c' m] cs IH]; simpl.
  - repeat case_bool_decide; done.
  - repeat (case_bool_decide; simpl; subst); try done.
    all: rewrite IH; by repeat case_bool_decide.
Qed.

Lemma set_child_keys ch n cs :
  (set_child ch n cs).*1 = if bool_decide (ch ∈ cs.*1) then cs.*1 else cs.*1 ++ [ch].
Proof.
  induction cs as [|[c m] cs IH]; [done|]. simpl set_child.
  destruct (decide (c = ch)) as [->|Hne].
  - rewrite bool_decide_eq_true_2 by done.
    rewrite bool_decide_eq_true_2; [done | apply list_elem_of_here].
  - rewrite bool_decide_eq_false_2 by done. rewrite !fmap_cons, IH. simpl.
    destruct (decide (ch ∈ cs.*1)).
    + rewrite !bool_decide_eq_true_2; [done | by apply list_elem_of_further | done].
    + rewrite !bool_decide_eq_false_2; [done | | done].
      intros [?|?]%elem_of_cons; congruence.
Qed.

Lemma set_child_Forall (P : ascii * TrieNode → Prop) ch n cs :
  Forall P cs → P (ch, n) → Forall P (set_child ch n cs).
Proof.
  intros Hcs Hn. induction Hcs as [|[c m] cs Hc Hcs IH]; simpl.
  - by constructor.
  - case_bool_decide; subst; constructor; auto.
Qed.

(** *** Well-formed nodes *)

Lemma shape_ok_new : shape_ok new_node.
Proof. constructor; constructor. Qed.

Lemma shape_ok_child ch n m :
  shape_ok n → get_child ch (children n) = Some m → shape_ok m.
Proof.
  intros [cs es _ _ Hcs] Hget%get_child_Some_elem. simpl in Hget.
  rewrite Forall_forall in Hcs. by apply (Hcs (ch, m)).
Qed.

Lemma store_end_elem w v es : v ∈ store_end w es → v = w ∨ v ∈ es.
Proof.
  unfold store_end. case_bool_decide; [auto|].
  assert (v ∈ es ++ [w] → v = w ∨ v ∈ es) as Happ.
  { intros [?|?%list_elem_of_singleton]%elem_of_app; auto. }
  destruct (20 <? length (es ++ [w]))%nat; [|done].
  intros Hv. by apply Happ, (subseteq_drop 1).
Qed.

Lemma store_end_NoDup w es : NoDup es → NoDup (store_end w es).
Proof.
  intros Hnd. unfold store_end. case_bool_decide as Hw; [done|].
  assert (NoDup (es ++ [w])) as Hnd'.
  { apply NoDup_app. split_and!; [done | | apply NoDup_singleton].
    intros v Hv ->%list_elem_of_singleton. done. }
  destruct (20 <? length (es ++ [w]))%nat; [|done].
  eapply sublist_NoDup; [done | apply sublist_drop].
Qed.

(** Without eviction the stored list only grows. *)
Lemma store_end_keep w es :
  (w ∈ es ∨ length es < 20)%nat → store_end w es = if bool_decide (w ∈ es) then es else es ++ [w].
Proof.
  intros Hlen. unfold store_end. case_bool_decide; [done|].
  destruct Hlen as [?|Hlen]; [done|].
  destruct (Nat.ltb_spec 20 (length (es ++ [w]))) as [Hgt|]; [|done].
  rewrite length_app in Hgt. simpl in Hgt. lia.
Qed.

Lemma insert_path_shape chars w : ∀ n, shape_ok n → shape_ok (insert_path chars w n).
Proof.
  induction chars as [|ch rest IH]; intros n Hn; simpl.
  - destruct Hn as [cs es Hes Hkeys Hcs]. constructor; auto using store_end_NoDup.
  - pose proof Hn as [cs es Hes Hkeys Hcs]. simpl. constructor; [done | |].
    + rewrite set_child_keys. case_bool_decide; [done|].
      apply NoDup_app. split_and!; [done | | apply NoDup_singleton].
      intros c Hc ->%list_elem_of_singleton. done.
    + apply set_child_Forall; [done|]. simpl. apply IH.
      destruct (get_child ch cs) as [m|] eqn:Hget; simpl.
      * by apply (shape_ok_child ch (mkTrieNode cs es)).
      * apply shape_ok_new.
Qed.

Lemma descend_shape chars : ∀ n m, shape_ok n → descend chars n = Some m → shape_ok m.
Proof.
  induction chars as [|ch rest IH]; intros n m Hn; simpl.
  - by intros [= <-].
  - destruct (get_child ch (children n)) as [c|] eqn:Hget; [|done].
    apply IH. by eapply shape_ok_child.
Qed.

Lemma descend_app p q n : descend (p +:+ q) n = descend p n ≫= descend q.
Proof.
  revert n. induction p as [|ch p IH]; intros n; simpl; [done|].
  destruct (get_child ch (children n)); simpl; [apply IH | done].
Qed.

Lemma ends_at_new chars : ends_at chars new_node = [].
Proof. by destruct chars. Qed.

(** [insert_path] changes the titles of the node at the end of [chars]
    and of no other node. *)
Lemma ends_at_insert_path chars w : ∀ p n,
  ends_at p (insert_path chars w n)
  = if bool_decide (p = chars) then store_end w (ends_at chars n) else ends_at p n.
Proof.
  induction chars as [|ch rest IH]; intros p n.
  - destruct p as [|c p]; [done|]. by rewrite bool_decide_eq_false_2.
  - destruct p as [|c p]; [by rewrite bool_decide_eq_false_2|].
    unfold ends_at. simpl. rewrite get_set_child.
    destruct (decide (ch = c)) as [->|Hne].
    + rewrite bool_decide_eq_true_2 by done.
      specialize (IH p (default new_node (get_child c (children n)))).
      unfold ends_at in IH. rewrite IH.
      destruct (get_child c (children n)) as [m|]; simpl.
      * repeat case_bool_decide; congruence.
      * pose proof (ends_at_new p) as Hp. pose proof (ends_at_new rest) as Hr.
        unfold ends_at in Hp, Hr. rewrite Hp, Hr.
        repeat case_bool_decide; congruence.
    + rewrite !bool_decide_eq_false_2 by congruence. done.
Qed.

Lemma ends_at_stored q : ∀ n w, w ∈ ends_at q n → (q, w) ∈ stored n.
Proof.
  induction q as [|c q IH]; intros [cs es] w; unfold ends_at; simpl.
  - intros Hw. apply elem_of_app. left. by apply (list_elem_of_fmap_2 (λ w, (EmptyString, w))).
  - destruct (get_child c cs) as [m|] eqn:Hget; [|by intros ?%elem_of_nil].
    intros Hw. apply elem_of_app. right. apply list_elem_of_bind.
    exists (c, m). split; [|by apply get_child_Some_elem].
    apply (list_elem_of_fmap_2 (under c) _ (q, w)). by apply IH.
Qed.

Lemma stored_ends_at : ∀ n, shape_ok n → ∀ q w, (q, w) ∈ stored n → w ∈ ends_at q n.
Proof.
  induction n as [cs es IH] using TrieNode_nested_ind.
  intros Hn q w. inversion Hn as [? ? Hes Hkeys Hcs]; subst. simpl.
  intros [Hin|Hin]%elem_of_app.
  - apply list_elem_of_fmap in Hin as (v & [= -> ->] & Hv). done.
  - apply list_elem_of_bind in Hin as ([c m] & Hin & Hcm).
    apply list_elem_of_fmap in Hin as ([q' w'] & [= -> ->] & Hq').
    unfold ends_at. simpl. rewrite (get_child_elem c cs m) by done.
    rewrite Forall_forall in IH, Hcs.
    by apply (IH (c, m) Hcm (Hcs (c, m) Hcm)).
Qed.

Lemma stored_NoDup : ∀ n, shape_ok n → NoDup (stored n).
Proof.
  induction n as [cs es IH] using TrieNode_nested_ind.
  intros Hn. inversion Hn as [? ? Hes Hkeys Hcs]; subst. simpl.
  apply NoDup_app. split_and!.
  - apply NoDup_fmap_2_strong; [congruence | done].
  - intros e (v & -> & _)%list_elem_of_fmap ([c m] & Hin & _)%list_elem_of_bind.
    by apply list_elem_of_fmap in Hin as (? & [=] & _).
  - apply NoDup_bind.
    + intros [c1 m1] [c2 m2] e H1 H2 (e1 & -> & _)%list_elem_of_fmap
        (e2 & [= -> _] & _)%list_elem_of_fmap.
      f_equal. apply (get_child_elem _ _ _ Hkeys) in H1, H2. congruence.
    + intros [c m] Hcm. apply NoDup_fmap_2_strong.
      * intros [q1 w1] [q2 w2] _ _ [=]. congruence.
      * rewrite Forall_forall in IH, Hcs.
        apply (IH (c, m) Hcm (Hcs (c, m) Hcm)).
    + by apply (NoDup_fmap_1 fst).
Qed.

Lemma string_app_inv_head p q1 q2 : p +:+ q1 = p +:+ q2 → q1 = q2.
Proof. induction p as [|c p IH]; simpl; [done | intros [=]; auto]. Qed.

(** In a node whose titles all spell their own path, no title is stored
    twice in the whole subtree. *)
Lemma titles_NoDup p n :
  shape_ok n → (∀ q w, w ∈ ends_at q n → Py.lower w = p +:+ q) → NoDup (titles n).
Proof.
  intros Hn Hkey. apply NoDup_fmap_2_strong; [|by apply stored_NoDup].
  intros [q1 w1] [q2 w2] H1%stored_ends_at H2%stored_ends_at; try done.
  simpl. intros ->. f_equal. apply (string_app_inv_head p).
  by rewrite <- (Hkey q1 w2), <- (Hkey q2 w2).
Qed.

(** *** The index built by a sequence of insertions *)

Lemma build_snoc ws w : build (ws ++ [w]) = insert w (build ws).
Proof. unfold build. by rewrite foldl_snoc. Qed.

Lemma build_shape ws : shape_ok (root (build ws)).
Proof.
  induction ws as [|w ws IH] using rev_ind; [apply shape_ok_new|].
  rewrite build_snoc. by apply insert_path_shape.
Qed.

Lemma NoDup_length_remove_dups (l k : list string) :
  NoDup l → (∀ x, x ∈ l → x ∈ k) → (length l ≤ length (remove_dups k))%nat.
Proof.
  intros Hnd Hsub. apply submseteq_length, NoDup_submseteq; [done|].
  intros x Hx. by apply elem_of_remove_dups, Hsub.
Qed.

(** The titles held at the end of a path: they were inserted, they spell
    the path, none is repeated, and none is lost as long as at most 20
    different titles spell the path. *)
Lemma build_ends ws : ∀ p,
  (∀ w, w ∈ ends_at p (root (build ws)) → w ∈ ws ∧ Py.lower w = p)
  ∧ NoDup (ends_at p (root (build ws)))
  ∧ ((length (remove_dups (spelled p ws)) ≤ 20)%nat →
     ∀ w, w ∈ ws → Py.lower w = p → w ∈ ends_at p (root (build ws))).
Proof.
  induction ws as [|w ws IH] using rev_ind; intros p.
  - unfold build. simpl. rewrite ends_at_new. split_and!.
    + by intros w ?%elem_of_nil.
    + constructor.
    + by intros _ w ?%elem_of_nil.
  - rewrite build_snoc. unfold insert. simpl root.
    rewrite ends_at_insert_path. destruct (IH p) as (Hsub & Hnd & Hall).
    unfold spelled in *. rewrite filter_app.
    case_bool_decide as Hp.
    + subst p. rewrite filter_cons_True, filter_nil by done.
      split_and!.
      * intros v [->|Hv]%store_end_elem; [|apply Hsub in Hv as [??]];
          (split; [apply elem_of_app; auto using list_elem_of_here | done]).
      * by apply store_end_NoDup.
      * intros Hlen.
        assert (length (remove_dups (filter (λ v, Py.lower v = Py.lower w) ws)) ≤ 20)%nat
          as Hlen'.
        { etrans; [|exact Hlen]. apply NoDup_length_remove_dups.
          - apply NoDup_remove_dups.
          - intros x Hx. rewrite elem_of_remove_dups in Hx. apply elem_of_app. by left. }
        assert (w ∈ ends_at (Py.lower w) (root (build ws))
                ∨ length (ends_at (Py.lower w) (root (build ws))) < 20)%nat as Hroom.
        { destruct (decide (w ∈ ends_at (Py.lower w) (root (build ws)))) as [|Hw];
            [by left | right].
          cut (length (ends_at (Py.lower w) (root (build ws)) ++ [w]) ≤ 20)%nat.
          { rewrite length_app. simpl. lia. }
          etrans; [|exact Hlen]. apply NoDup_length_remove_dups.
          - apply NoDup_app. split_and!; [done | | apply NoDup_singleton].
            by intros v Hv ->%list_elem_of_singleton.
          - intros v [Hv|Hv]%elem_of_app; apply elem_of_app; [left | by right].
            apply list_elem_of_filter. by apply Hsub in Hv as [??]. }
        rewrite store_end_keep by done.
        intros v [Hv| ->%list_elem_of_singleton]%elem_of_app Hlow.
        -- specialize (Hall Hlen' v Hv Hlow). case_bool_decide; [done|].
           apply elem_of_app. by left.
        -- case_bool_decide; [done|]. apply elem_of_app. right. apply list_elem_of_here.
    + rewrite filter_cons_False, filter_nil, app_nil_r by congruence.
      split_and!; [|done|].
      * intros v [??]%Hsub. split; [apply elem_of_app; by left | done].
      * intros Hlen v [Hv| ->%list_elem_of_singleton]%elem_of_app Hlow;
          [by apply Hall | congruence].
Qed.

Lemma ends_at_app p q n m :
  descend p n = Some m → ends_at (p +:+ q) n = ends_at q m.
Proof. intros Hp. unfold ends_at. by rewrite descend_app, Hp. Qed.

(** No title is listed twice below a node of a built index. *)
Lemma build_level_NoDup ws p node :
  descend p (root (build ws)) = Some node → NoDup (level_order node).
Proof.
  intros Hp. rewrite level_order_titles. apply (titles_NoDup p).
  - eapply descend_shape; [apply build_shape | done].
  - intros q w Hw. rewrite <- (ends_at_app p q _ _ Hp) in Hw.
    by apply (build_ends ws) in Hw as [_ ?].
Qed.

Lemma descend_None chars : ∀ n, descend chars n = None ↔ no_match chars n.
Proof.
  induction chars as [|ch rest IH]; intros n; simpl.
  - split; [done|]. intros (pre & c & r & m & Heq & _). by destruct pre.
  - destruct (get_child ch (children n)) as [k|] eqn:Hget.
    + rewrite IH. split.
      * intros (pre & c & r & m & -> & Hd & Hc).
        exists (String ch pre), c, r, m. simpl. by rewrite Hget.
      * intros (pre & c & r & m & Heq & Hd & Hc). destruct pre as [|a pre].
        -- simpl in *. injection Heq as -> ->. injection Hd as ->. congruence.
        -- simpl in *. injection Heq as -> ->. rewrite Hget in Hd.
           by exists pre, c, r, m.
    + split; [|done]. intros _. by exists EmptyString, ch, rest, n.
Qed.

Lemma prefix_search_reached ws prefix limit node :
  descend (Py.lower prefix) (root (build ws)) = Some node →
  prefix_search (build ws) prefix limit
  = Some (take (Z.to_nat limit) (dedupe (level_order node))).
Proof.
  intros Hnode. unfold prefix_search. rewrite Hnode.
  rewrite (bfs_loop_levels prefix limit (node_size node) [(node, prefix)]);
    [| unfold forest_size; simpl; lia ..].
  change (level_nodes (node_size node) [(node, prefix)].*1 ≫= ends)
    with (level_order node).
  pose proof (build_level_NoDup ws _ _ Hnode) as Hnd.
  rewrite dedupe_NoDup by done. f_equal.
  change ([(node, prefix)].*1) with [node].
  destruct (decide (0 < limit)) as [Hpos|Hneg].
  - destruct (scan_spec limit (level_nodes (node_size node) [node]) [])
      as (k & -> & Hk).
    fold (level_order node) in *. simpl in *.
    rewrite dedupe_loop_NoDup; simpl; [| | set_solver | done].
    + destruct Hk as [Hk|Hk].
      * by rewrite (take_ge _ k).
      * rewrite take_take. f_equal. lia.
    + eapply sublist_NoDup; [done | apply sublist_take].
  - rewrite scan_full by (simpl; lia).
    replace (Z.to_nat limit) with 0%nat by lia. by rewrite take_0.
Qed.

End TrieTheory.

(** ** Theory of the playlist *)

Module DLLTheory.

Import DLLSpec.

Lemma dll_repr_clear h d : dll_repr h (DLL.clear d) [].
Proof.
  split; try done.
  - by intros n ?%elem_of_nil.
  - constructor.
Qed.

Lemma drop_lookup_cons {A} (l : list A) i x : l !! i = Some x → drop i l = x :: drop (S i) l.
Proof.
  revert i. induction l as [|y l IH]; intros [|i]; simpl; try done.
  - by intros [= ->].
  - apply IH.
Qed.

Lemma to_list_loop_linked h l :
  linked h l → ∀ fuel i out,
    (length l - i ≤ fuel)%nat →
    DLL.to_list_loop fuel h (l !! i) out = Some (out ++ drop i l).
Proof.
  intros Hl. induction fuel as [|fuel IH]; intros i out Hfuel.
  - rewrite lookup_ge_None_2, drop_ge by lia. simpl. by rewrite app_nil_r.
  - destruct (l !! i) as [n|] eqn:Hi; simpl.
    + destruct (Hl i n Hi) as [-> _]. rewrite IH by lia.
      rewrite (drop_lookup_cons l i n Hi), <- app_assoc. done.
    + apply lookup_ge_None_1 in Hi. rewrite drop_ge by lia. by rewrite app_nil_r.
Qed.

(** The traversal ends and returns the nodes in order. *)
Lemma to_list_repr h d l : dll_repr h d l → DLL.to_list h d = Some l.
Proof.
  intros [Hhead _ Hsize _ _ Hlinks]. unfold DLL.to_list.
  rewrite Hhead, Hsize, (to_list_loop_linked h l Hlinks); [done | lia].
Qed.

Lemma last_None_nil {A} (l : list A) : last l = None → l = [].
Proof. destruct l as [|x l] using rev_ind; [done|]. by rewrite last_snoc. Qed.

Lemma last_Some_snoc {A} (l : list A) x : last l = Some x → ∃ l', l = l' ++ [x].
Proof.
  destruct l as [|y l _] using rev_ind; [done|].
  rewrite last_snoc. intros [= ->]. by exists l.
Qed.

(** [append] puts a fresh node behind the nodes of the list. *)
Lemma append_repr t p h d l h' d' node :
  dll_repr h d l → DLL.append t p h d = (h', d', node) →
  node = mkNode (next_addr h) t p ∧ dll_repr h' d' (l ++ [node]).
Proof.
  intros [Hhead Htail Hsize Haddr Hnd Hlinks]. unfold DLL.append, DLL.alloc.
  destruct (DLL.tail d) as [tl|] eqn:Htl; intros [= <- <- <-]; (split; [done|]).
  - symmetry in Htail. apply last_Some_snoc in Htail as [l' ->].
    assert (addr tl < next_addr h)%nat as Htl_lt.
    { apply Haddr, elem_of_app. right. apply list_elem_of_here. }
    split; simpl.
    + rewrite Hhead. destruct l'; done.
    + by rewrite last_snoc.
    + rewrite !length_app in *. simpl in *. lia.
    + intros n [Hn| ->%list_elem_of_singleton]%elem_of_app; simpl; [|lia].
      apply Haddr in Hn. lia.
    + rewrite fmap_app. apply NoDup_app. split_and!; [done | | apply NoDup_singleton].
      intros a (n & -> & Hn)%list_elem_of_fmap ?%list_elem_of_singleton.
      apply Haddr in Hn. simpl in *. lia.
    + intros i n Hi. simpl.
      destruct (decide (i < length (l' ++ [tl]))%nat) as [Hlt|Hge].
      * rewrite lookup_app_l in Hi by done.
        assert (addr n < next_addr h)%nat as Hn_lt
          by (eapply Haddr, list_elem_of_lookup_2; done).
        destruct (Hlinks i n Hi) as [Hnext Hprev]. split.
        -- destruct (decide (S i = length (l' ++ [tl]))) as [Hlast|Hnot].
           ++ assert (n = tl) as ->.
              { rewrite length_app in Hlast. simpl in Hlast.
                rewrite lookup_app_r in Hi by lia.
                replace (i - length l')%nat with 0%nat in Hi by lia. by injection Hi. }
              rewrite lookup_insert_eq, Hlast, lookup_app_r by lia.
              by rewrite Nat.sub_diag.
           ++ assert (addr tl ≠ addr n) as Hne.
              { intros Heq. apply Hnot.
                assert (i = length l') as ->; [|rewrite length_app; simpl; lia].
                eapply (NoDup_lookup _ _ _ (addr tl) Hnd).
                - by rewrite list_lookup_fmap, Hi, Heq.
                - rewrite list_lookup_fmap, lookup_app_r, Nat.sub_diag by lia. done. }
              rewrite lookup_insert_ne, lookup_delete_ne, Hnext by (done || lia).
              rewrite (lookup_app_l (l' ++ [tl])) by lia. done.
        -- rewrite lookup_insert_ne, lookup_delete_ne, Hprev by lia.
           destruct i as [|j]; [done|]. rewrite (lookup_app_l (l' ++ [tl])) by lia. done.
      * assert (i = length (l' ++ [tl])) as -> by
          (apply lookup_lt_Some in Hi; rewrite !length_app in *; simpl in *; lia).
        rewrite lookup_app_r, Nat.sub_diag in Hi by lia. injection Hi as <-. simpl.
        split.
        -- rewrite lookup_insert_ne, lookup_delete_eq by lia.
           symmetry. apply lookup_ge_None_2. rewrite !length_app. simpl. lia.
        -- rewrite lookup_insert_eq, length_app. simpl.
           replace (length l' + 1)%nat with (S (length l')) by lia.
           rewrite lookup_app_l by (rewrite length_app; simpl; lia).
           by rewrite lookup_app_r, Nat.sub_diag by lia.
  - symmetry in Htail. apply last_None_nil in Htail as ->. split; simpl; try done.
    + by rewrite Hsize.
    + intros n ->%list_elem_of_singleton. simpl. lia.
    + apply NoDup_singleton.
    + intros [|i] n; [|done]. intros [= <-]. simpl.
      by rewrite !lookup_delete_eq.
Qed.

End DLLTheory.

(** ** Theory of the application *)

Module PlayerTheory.

Import Player TrieSpec DLLSpec PlayerSpec TrieTheory DLLTheory.

(** The fill loop appends one fresh node per song, inserts the titles into
    the trie and the registry, and touches nothing else. *)
Lemma fill_spec songs : ∀ s nodes l,
  dll_repr (heap s) (dll s) l →
  ∃ new,
    (foldl fill_step (s, nodes) songs).2 = nodes ++ new
    ∧ song_of <$> new = songs
    ∧ dll_repr (heap (foldl fill_step (s, nodes) songs).1)
               (dll (foldl fill_step (s, nodes) songs).1) (l ++ new)
    ∧ trie (foldl fill_step (s, nodes) songs).1
      = foldl (λ t w, insert w t) (trie s) songs.*1
    ∧ node_by_title (foldl fill_step (s, nodes) songs).1
      = foldl register (node_by_title s) new
    ∧ history_stack (foldl fill_step (s, nodes) songs).1 = history_stack s
    ∧ play_counts (foldl fill_step (s, nodes) songs).1 = play_counts s
    ∧ current (foldl fill_step (s, nodes) songs).1 = current s
    ∧ engine (foldl fill_step (s, nodes) songs).1 = engine s
    ∧ shuffle_on (foldl fill_step (s, nodes) songs).1 = shuffle_on s
    ∧ playlist (ui (foldl fill_step (s, nodes) songs).1) = playlist (ui s) ++ songs.*1.
Proof.
  induction songs as [|[t p] songs IH]; intros s nodes l Hrepr.
  - exists []. simpl. rewrite !app_nil_r. by split_and!.
  - simpl foldl. destruct (fill_step (s, nodes) (t, p)) as [s1 n1] eqn:Hstep.
    unfold fill_step in Hstep. simpl in Hstep.
    destruct (DLL.append t p (heap s) (dll s)) as [[h d] node] eqn:Happ.
    destruct (append_repr _ _ _ _ _ _ _ _ Hrepr Happ) as [Hnode Hrepr'].
    injection Hstep as <- <-.
    match goal with |- context [foldl fill_step (?s1, ?n1) songs] =>
      destruct (IH s1 n1 (l ++ [node]) Hrepr')
        as (new & Hnodes & Hsongs & Hdll & Htrie & Hreg & Hhist & Hpc & Hcur & Heng & Hsh & Hpl)
    end.
    exists (node :: new). simpl in *. split_and!; try done.
    + by rewrite Hnodes, <- app_assoc.
    + f_equal; [by subst node | done].
    + by rewrite <- app_assoc in Hdll.
    + rewrite Hreg. unfold register at 2. by subst node.
    + by rewrite Hpl, <- app_assoc.
Qed.

Lemma load_folder_loaded folder listing s :
  folder ≠ EmptyString → songs_of folder listing ≠ [] →
  load_folder folder listing s
  = set_now_label "—"
      (set_status
         ("Loaded "
          +:+ pretty (length (foldl fill_step (reset s, []) (sorted_songs folder listing)).2)
          +:+ " songs")
         (foldl fill_step (reset s, []) (sorted_songs folder listing)).1).
Proof.
  intros Hfolder Hsongs. unfold load_folder, sorted_songs.
  rewrite bool_decide_eq_false_2 by done.
  destruct (songs_of folder listing) as [|x xs] eqn:E; [done|].
  by destruct (foldl fill_step _ _).
Qed.

(** *** Playing a node *)

Section PlayNode.
Context (load_error : string → option string).

Lemma play_node_failed n s msg :
  Engine.load_and_play load_error (path n) (engine s) = inr msg →
  play_node load_error (Some n) s = open_dialog (ShowError "Playback error" msg) s.
Proof. intros H. unfold play_node. by rewrite H. Qed.

Lemma play_node_played n s e :
  Engine.load_and_play load_error (path n) (engine s) = inl e →
  current (play_node load_error (Some n) s) = Some n
  ∧ play_counts (play_node load_error (Some n) s) = count_play (title n) (play_counts s)
  ∧ history_stack (play_node load_error (Some n) s) = history_stack s
  ∧ engine (play_node load_error (Some n) s) = e.
Proof.
  intros H. unfold play_node. rewrite H. unfold set_status, _select_in_listbox.
  simpl. by destruct (list_find _ _) as [[??]|].
Qed.

Lemma load_and_play_cases file e :
  match load_error file with
  | Some msg => Engine.load_and_play load_error file e = inr msg
  | None => ∃ e', Engine.load_and_play load_error file e = inl e'
  end.
Proof. unfold Engine.load_and_play. destruct (load_error file); eauto. Qed.

(** C3: if [load_and_play] raises, [play_node] reports the error and leaves
    the current track and the ledger as they were; if it succeeds, the count
    of the node's title goes up by exactly one (to 1 when there was no entry)
    and the node becomes the current track. *)
Theorem play_node_outcome (s : App) (n : Node) :
  (∀ msg, Engine.load_and_play load_error (path n) (engine s) = inr msg →
     play_node load_error (Some n) s = open_dialog (ShowError "Playback error" msg) s
     ∧ current (play_node load_error (Some n) s) = current s
     ∧ play_counts (play_node load_error (Some n) s) = play_counts s)
  ∧ (∀ e, Engine.load_and_play load_error (path n) (engine s) = inl e →
     current (play_node load_error (Some n) s) = Some n
     ∧ (play_counts s !! title n = None →
        play_counts (play_node load_error (Some n) s) !! title n = Some 1)
     ∧ (∀ c, play_counts s !! title n = Some c →
        play_counts (play_node load_error (Some n) s) !! title n = Some (c + 1))
     ∧ (∀ t, t ≠ title n →
        play_counts (play_node load_error (Some n) s) !! t = play_counts s !! t)).
Proof.
  split.
  - intros msg Hfail. by rewrite (play_node_failed _ _ _ Hfail).
  - intros e Hok. destruct (play_node_played _ _ _ Hok) as (-> & -> & _).
    unfold count_play. split_and!; [done | | |].
    + intros ->. by rewrite lookup_insert_eq.
    + intros c ->. by rewrite lookup_insert_eq.
    + intros t Ht. by rewrite lookup_insert_ne.
Qed.

(** *** Pause and stop *)

(** C5, as the code has it: [_toggle_pause] does not look at the current
    track.  With the engine busy and not paused it issues pause; in every
    other case (paused, stopped, nothing loaded) it issues resume and reports
    "Resumed".  The current track, the history and the ledger stay as they
    were. *)
Theorem toggle_pause_cases (s : App) :
  (Engine.is_busy (engine s) = true → paused (engine s) = false →
     calls (mixer (engine (_toggle_pause s))) = calls (mixer (engine s)) ++ [MPause]
     ∧ paused (engine (_toggle_pause s)) = true
     ∧ status (ui (_toggle_pause s)) = "Paused")
  ∧ (Engine.is_busy (engine s) = false ∨ paused (engine s) = true →
     calls (mixer (engine (_toggle_pause s))) = calls (mixer (engine s)) ++ [MUnpause]
     ∧ paused (engine (_toggle_pause s)) = false
     ∧ status (ui (_toggle_pause s)) = "Resumed")
  ∧ current (_toggle_pause s) = current s
  ∧ history_stack (_toggle_pause s) = history_stack s
  ∧ play_counts (_toggle_pause s) = play_counts s.
Proof.
  unfold _toggle_pause. split_and!.
  - by intros -> ->.
  - by intros [-> | ->]; rewrite ?andb_false_r.
  - by destruct (_ && _).
  - by destruct (_ && _).
  - by destruct (_ && _).
Qed.

(** *** Moving forward and back *)

Lemma go_next_failed s a b msg :
  current s = Some a → load_error (path b) = Some msg →
  go_next load_error (Some b) s
  = open_dialog (ShowError "Playback error" msg) (set_history (history_stack s ++ [a]) s).
Proof.
  intros Ha Hb. unfold go_next. rewrite Ha. apply play_node_failed.
  unfold Engine.load_and_play. by rewrite Hb.
Qed.

(** C10: when [next_song] has found a target and the engine fails to load
    it, the track that was current has been appended to the history and
    stays there; the current track and the ledger are unchanged. *)
Theorem next_song_failed_load (r : nat) (s : App) (a b : Node) (msg : string) :
  current s = Some a →
  pick_next r s = Some (Some b) →
  load_error (path b) = Some msg →
  ∃ s', next_song load_error r s = Some s'
        ∧ history_stack s' = history_stack s ++ [a]
        ∧ length (history_stack s') = S (length (history_stack s))
        ∧ current s' = Some a
        ∧ play_counts s' = play_counts s
        ∧ dialogs (ui s') = dialogs (ui s) ++ [ShowError "Playback error" msg].
Proof.
  intros Ha Hpick Hb. unfold next_song. rewrite Hpick.
  eexists. split; [done|]. rewrite (go_next_failed _ _ _ _ Ha Hb). simpl.
  rewrite length_app. simpl. split_and!; (done || lia).
Qed.

Lemma prev_song_snoc s hs a :
  history_stack s = hs ++ [a] →
  prev_song load_error s = play_node load_error (Some a) (set_history hs s).
Proof.
  intros H. unfold prev_song. rewrite H, reverse_snoc. by rewrite reverse_involutive.
Qed.

(** C9: with shuffle off, a successful [next_song] from a track [a] that has
    a successor moves to that successor and pushes [a] on the history; a
    following [prev_song] pops [a] and returns to it, pushing nothing; and
    [prev_song] on an empty history reports that there is no previous song
    and leaves the current track alone. *)
Theorem next_then_prev (r : nat) (s : App) (a b : Node) :
  shuffle_on s = false →
  current s = Some a →
  next_of (heap s) !! addr a = Some b →
  load_error (path b) = None →
  load_error (path a) = None →
  (∃ s1, next_song load_error r s = Some s1
         ∧ current s1 = Some b
         ∧ history_stack s1 = history_stack s ++ [a]
         ∧ current (prev_song load_error s1) = Some a
         ∧ history_stack (prev_song load_error s1) = history_stack s)
  ∧ (∀ s0, history_stack s0 = [] →
       status (ui (prev_song load_error s0)) = "No previous song"
       ∧ current (prev_song load_error s0) = current s0
       ∧ history_stack (prev_song load_error s0) = []
       ∧ engine (prev_song load_error s0) = engine s0).
Proof.
  intros Hsh Ha Hnext Hb Hpa. split.
  - unfold next_song, pick_next. rewrite Hsh, Ha, Hnext.
    eexists. split; [done|]. unfold go_next. rewrite Ha.
    pose proof (load_and_play_cases (path b) (engine s)) as Hlb. rewrite Hb in Hlb.
    destruct Hlb as [e Hlb].
    destruct (play_node_played b (set_history (history_stack s ++ [a]) s) e Hlb)
      as (Hcur & Hpc & Hhist & Heng).
    split_and!; [done | done | |].
    + rewrite (prev_song_snoc _ (history_stack s) a) by done.
      pose proof (load_and_play_cases (path a)
        (engine (set_history (history_stack s)
           (play_node load_error (Some b) (set_history (history_stack s ++ [a]) s)))))
        as Hla.
      rewrite Hpa in Hla. destruct Hla as [e' Hla].
      by destruct (play_node_played _ _ _ Hla) as (-> & _).
    + rewrite (prev_song_snoc _ (history_stack s) a) by done.
      pose proof (load_and_play_cases (path a)
        (engine (set_history (history_stack s)
           (play_node load_error (Some b) (set_history (history_stack s ++ [a]) s)))))
        as Hla.
      rewrite Hpa in Hla. destruct Hla as [e' Hla].
      by destruct (play_node_played _ _ _ Hla) as (_ & _ & -> & _).
  - intros s0 H0. unfold prev_song. by rewrite H0.
Qed.

End PlayNode.

(** *** The ranking *)

Lemma least_spec h : ∀ m,
  Heapq.least m h ∈ m :: h ∧ ∀ x, x ∈ m :: h → (Heapq.least m h).1 ≤ x.1.
Proof.
  induction h as [|y h IH]; intros m; simpl.
  - split; [apply list_elem_of_here|]. by intros x ->%list_elem_of_singleton.
  - destruct (IH (if Heapq.tuple_ltb y m then y else m)) as [Hin Hle]. split.
    + apply elem_of_cons in Hin as [->|Hin].
      * destruct (Heapq.tuple_ltb y m);
          [apply list_elem_of_further, list_elem_of_here | apply list_elem_of_here].
      * by do 2 apply list_elem_of_further.
    + assert ((if Heapq.tuple_ltb y m then y else m).1 ≤ m.1
              ∧ (if Heapq.tuple_ltb y m then y else m).1 ≤ y.1) as [Hm Hy].
      { unfold Heapq.tuple_ltb. destruct (Z.ltb_spec y.1 m.1); simpl; [lia|].
        destruct (Z.eqb_spec y.1 m.1); simpl; [|lia].
        destruct (String.ltb y.2 m.2); lia. }
      pose proof (Hle _ (list_elem_of_here _ _)) as Hmin.
      intros x [->|[->|Hx]%elem_of_cons]%elem_of_cons; [lia | lia |].
      apply Hle. by apply list_elem_of_further.
Qed.

Lemma remove_first_perm x h : x ∈ h → h ≡ₚ x :: Heapq.remove_first x h.
Proof.
  induction h as [|y h IH]; simpl; [by intros ?%elem_of_nil|].
  case_bool_decide as Hxy; [by subst|].
  intros [->|Hx]%elem_of_cons; [done|]. rewrite (IH Hx) at 1. apply perm_swap.
Qed.

Lemma heappop_spec h m h' :
  Heapq.heappop h = Some (m, h') → h ≡ₚ m :: h' ∧ ∀ x, x ∈ h → m.1 ≤ x.1.
Proof.
  destruct h as [|y h]; [done|]. unfold Heapq.heappop. intros [= <- <-].
  destruct (least_spec h y) as [Hin Hle]. split; [|done].
  by apply remove_first_perm.
Qed.

Lemma pop_loop_acc n : ∀ h items, pop_loop n h items = items ++ pop_loop n h [].
Proof.
  induction n as [|n IH]; intros h items; simpl; [by rewrite app_nil_r|].
  destruct (Heapq.heappop h) as [[[neg t] h']|]; [|by rewrite app_nil_r].
  rewrite (IH _ (items ++ _)), (IH _ [_]). by rewrite app_assoc.
Qed.

(** [n] pops take the [n] least tuples off the heap, in ascending order. *)
Lemma pop_loop_spec n : ∀ h,
  (n ≤ length h)%nat →
  ∃ popped rest,
    pop_loop n h [] = tuple_entry <$> popped
    ∧ h ≡ₚ popped ++ rest
    ∧ length popped = n
    ∧ StronglySorted (λ a b, a.1 ≤ b.1) popped
    ∧ ∀ a b, a ∈ popped → b ∈ rest → a.1 ≤ b.1.
Proof.
  induction n as [|n IH]; intros h Hn.
  - exists [], h. split_and!; try done; [constructor | by intros a b ?%elem_of_nil].
  - destruct h as [|y h]; [simpl in Hn; lia|].
    destruct (Heapq.heappop (y :: h)) as [[[neg t] h']|] eqn:Hpop; [|done].
    assert (pop_loop (S n) (y :: h) [] = pop_loop n h' [(t, - neg)]) as ->
      by (cbn [pop_loop]; by rewrite Hpop).
    destruct (heappop_spec _ _ _ Hpop) as [Hperm Hmin].
    assert (length h' = length h) as Hlen.
    { apply Permutation_length in Hperm. simpl in Hperm. lia. }
    destruct (IH h') as (popped & rest & Hloop & Hperm' & Hpl & Hsorted & Hrest);
      [simpl in Hn; lia|].
    exists ((neg, t) :: popped), rest. rewrite pop_loop_acc, Hloop.
    assert (∀ x, x ∈ popped ++ rest → neg ≤ x.1) as Hall.
    { intros x Hx. apply (Hmin x). rewrite Hperm, Hperm'. by apply list_elem_of_further. }
    split_and!; simpl; try done.
    + by rewrite Hperm, Hperm'.
    + by rewrite Hpl.
    + constructor; [done|]. apply Forall_forall. intros x Hx. apply Hall, elem_of_app. by left.
    + intros a b [->|Ha]%elem_of_cons Hb; [|by apply Hrest].
      apply Hall, elem_of_app. by right.
Qed.

Lemma tuple_entry_tuple e : tuple_entry (entry_tuple e) = e.
Proof. destruct e as [t c]. unfold tuple_entry, entry_tuple. simpl. f_equal. lia. Qed.

Lemma top_items_spec k (pc : gmap string Z) :
  ∃ popped rest,
    top_items k pc = tuple_entry <$> popped
    ∧ entry_tuple <$> map_to_list pc ≡ₚ popped ++ rest
    ∧ length popped = Z.to_nat (Z.min k (Z.of_nat (size pc)))
    ∧ StronglySorted (λ a b, a.1 ≤ b.1) popped
    ∧ ∀ a b, a ∈ popped → b ∈ rest → a.1 ≤ b.1.
Proof.
  unfold top_items, Heapq.heapify.
  rewrite length_fmap, length_map_to_list.
  apply (pop_loop_spec _ (entry_tuple <$> map_to_list pc)).
  rewrite length_fmap, length_map_to_list. lia.
Qed.

Lemma top_items_descending k (pc : gmap string Z) : descending (top_items k pc).
Proof.
  destruct (top_items_spec k pc) as (popped & _ & -> & _ & _ & Hsorted & _).
  unfold descending. induction Hsorted as [|a l Hl IH Ha]; simpl; constructor; [done|].
  apply Forall_fmap. eapply Forall_impl; [exact Ha|]. intros b Hb.
  unfold compose, tuple_entry. simpl in *. lia.
Qed.

Lemma top_items_sub k (pc : gmap string Z) e : e ∈ top_items k pc → e ∈ map_to_list pc.
Proof.
  destruct (top_items_spec k pc) as (popped & rest & -> & Hperm & _).
  intros (x & -> & Hx)%list_elem_of_fmap.
  assert (x ∈ entry_tuple <$> map_to_list pc) as (e & -> & He)%list_elem_of_fmap
    by (rewrite Hperm; apply elem_of_app; by left).
  by rewrite tuple_entry_tuple.
Qed.

Lemma top_items_all k (pc : gmap string Z) :
  Z.of_nat (size pc) ≤ k → top_items k pc ≡ₚ map_to_list pc.
Proof.
  intros Hk. destruct (top_items_spec k pc) as (popped & rest & -> & Hperm & Hlen & _).
  assert (rest = []) as ->.
  { apply Permutation_length in Hperm.
    rewrite length_fmap, length_app, length_map_to_list in Hperm.
    apply nil_length_inv. lia. }
  rewrite app_nil_r in Hperm. rewrite <- Hperm, <- list_fmap_compose.
  rewrite (list_fmap_ext _ id); [by rewrite list_fmap_id|].
  intros _ e _. apply tuple_entry_tuple.
Qed.

(** The title with the strictly largest count comes first. *)
Lemma top_items_unique_max (pc : gmap string Z) t c :
  pc !! t = Some c → (∀ t' c', t' ≠ t → pc !! t' = Some c' → c' < c) →
  top_items 1 pc = [(t, c)].
Proof.
  intros Ht Hmax.
  destruct (top_items_spec 1 pc) as (popped & rest & -> & Hperm & Hlen & _ & Hrest).
  assert (0 < size pc)%nat as Hsize.
  { destruct (decide (size pc = 0%nat)) as [Hz%map_size_empty_iff|]; [|lia].
    by rewrite Hz in Ht. }
  replace (Z.to_nat (Z.min 1 (Z.of_nat (size pc)))) with 1%nat in Hlen by lia.
  destruct popped as [|[neg t'] [|??]]; try done. simpl. f_equal.
  assert ((neg, t') ∈ entry_tuple <$> map_to_list pc)
    as ([t1 c1] & [= -> ->] & Hin%elem_of_map_to_list)%list_elem_of_fmap
    by (rewrite Hperm; apply list_elem_of_here).
  assert ((- c, t) ∈ entry_tuple <$> map_to_list pc) as Ht_in.
  { apply list_elem_of_fmap. exists (t, c). split; [done|]. by apply elem_of_map_to_list. }
  rewrite Hperm in Ht_in. unfold tuple_entry. simpl.
  destruct (decide (t1 = t)) as [->|Hne].
  - f_equal. rewrite Ht in Hin. injection Hin as <-. lia.
  - exfalso. specialize (Hmax t1 c1 Hne Hin).
    apply elem_of_cons in Ht_in as [[= ? ?]|Ht_in]; [done|].
    specialize (Hrest (- c1, t1) (- c, t) (list_elem_of_here _ _) Ht_in). simpl in Hrest. lia.
Qed.

Lemma count_play_iter t n (pc : gmap string Z) :
  pc !! t = None → (0 < n)%nat →
  Nat.iter n (count_play t) pc !! t = Some (Z.of_nat n)
  ∧ ∀ t', t' ≠ t → Nat.iter n (count_play t) pc !! t' = pc !! t'.
Proof.
  intros Ht. induction n as [|n IH]; [lia|]. intros _. simpl. unfold count_play at 1 3.
  destruct n as [|n].
  - simpl. rewrite Ht. split; [by rewrite lookup_insert_eq|].
    intros t' Hne. by rewrite lookup_insert_ne.
  - destruct IH as [IHt IHo]; [lia|]. rewrite IHt. split.
    + rewrite lookup_insert_eq. simpl. f_equal. lia.
    + intros t' Hne. rewrite lookup_insert_ne by done. by apply IHo.
Qed.

(** C8: the top-K listing is in descending order of play count, holds
    only ledger entries and all of them once [k] reaches their number, and
    showing it leaves the ledger as it was; after [n] plays of a title that
    was absent, when every other count is below [n], the top-1 listing is
    that title with count [n]. *)
Theorem top_played_ranking (s : App) (k : Z) :
  play_counts (show_top_played k s) = play_counts s
  ∧ (play_counts s ≠ ∅ →
     last (dialogs (ui (show_top_played k s)))
     = Some (TopPlayedWindow (top_items k (play_counts s))))
  ∧ descending (top_items k (play_counts s))
  ∧ (∀ e, e ∈ top_items k (play_counts s) → play_counts s !! e.1 = Some e.2)
  ∧ (Z.of_nat (size (play_counts s)) ≤ k →
     top_items k (play_counts s) ≡ₚ map_to_list (play_counts s))
  ∧ (∀ t n, play_counts s !! t = None → (0 < n)%nat →
       (∀ t' c, play_counts s !! t' = Some c → c < Z.of_nat n) →
       top_items 1 (Nat.iter n (count_play t) (play_counts s)) = [(t, Z.of_nat n)]).
Proof.
  split_and!.
  - unfold show_top_played. by case_bool_decide.
  - intros Hne. unfold show_top_played. rewrite bool_decide_eq_false_2 by done.
    simpl. by rewrite last_snoc.
  - apply top_items_descending.
  - intros [t c] Hin%top_items_sub. by apply elem_of_map_to_list.
  - apply top_items_all.
  - intros t n Habs Hn Hmax. destruct (count_play_iter t n _ Habs Hn) as [Ht Ho].
    apply top_items_unique_max; [done|].
    intros t' c' Hne. rewrite (Ho t' Hne). apply Hmax.
Qed.

(** *** Loading a folder *)

(** What a successful [load_folder] leaves behind. *)
(** After a successful folder load the history is empty and no track is
    current; the sequence, the title index, the registry and the playlist
    rows are built from the files of the new folder alone, sorted by
    lower-cased title; the play-count ledger is the one from before the
    load. *)
Lemma load_folder_built (folder : string) (listing : list string) (s : App) :
  folder ≠ EmptyString → songs_of folder listing ≠ [] →
  history_stack (load_folder folder listing s) = []
  ∧ current (load_folder folder listing s) = None
  ∧ play_counts (load_folder folder listing s) = play_counts s
  ∧ trie (load_folder folder listing s) = build (sorted_songs folder listing).*1
  ∧ playlist (ui (load_folder folder listing s)) = (sorted_songs folder listing).*1
  ∧ ∃ nodes,
      DLL.to_list (heap (load_folder folder listing s)) (dll (load_folder folder listing s))
      = Some nodes
      ∧ dll_repr (heap (load_folder folder listing s)) (dll (load_folder folder listing s))
                 nodes
      ∧ song_of <$> nodes = sorted_songs folder listing
      ∧ node_by_title (load_folder folder listing s) = foldl register ∅ nodes.
Proof.
  intros Hfolder Hsongs. rewrite (load_folder_loaded _ _ _ Hfolder Hsongs).
  destruct (fill_spec (sorted_songs folder listing) (reset s) [] []
              (dll_repr_clear _ _))
    as (nodes & _ & Hnodes & Hrepr & Htrie & Hreg & Hhist & Hpc & Hcur & _ & _ & Hpl).
  simpl in *. split_and!; try done.
  exists nodes. split_and!; try done. by apply to_list_repr.
Qed.

(** *** Shuffle *)

Lemma choices_nonempty (l : list Node) c :
  NoDup (addr <$> l) → (1 < length l)%nat → filter (λ n, addr n ≠ addr c) l ≠ [].
Proof.
  destruct l as [|x [|y l]]; simpl; try lia. intros Hnd _ Hnil.
  apply NoDup_cons in Hnd as [Hx _].
  assert (addr x ≠ addr y) as Hxy by (intros Heq; apply Hx; rewrite Heq; apply list_elem_of_here).
  destruct (decide (addr x = addr c)) as [Hxc|Hxc].
  - apply (filter_nil_not_elem_of _ _ y Hnil); [congruence|].
    apply list_elem_of_further, list_elem_of_here.
  - apply (filter_nil_not_elem_of _ _ x Hnil); [done | apply list_elem_of_here].
Qed.

Section Shuffle.
Context (load_error : string → option string).

(** C4, as the code has it: with shuffle on, a current track and more than
    one track in the sequence, the target is drawn from the sequence nodes
    other than the current one, each listed once, at the position the random
    draw gives; with no current track it is drawn from all nodes; with a
    current track and exactly one track in the sequence, [next_song] reports
    the end of the playlist and changes nothing else. *)
Theorem shuffle_next (r : nat) (s : App) (l : list Node) :
  dll_repr (heap s) (dll s) l → shuffle_on s = true →
  (∀ c, current s = Some c → (1 < length l)%nat →
     pick_next r s = Some (choice r (filter (λ n, addr n ≠ addr c) l))
     ∧ is_Some (choice r (filter (λ n, addr n ≠ addr c) l))
     ∧ NoDup (filter (λ n, addr n ≠ addr c) l)
     ∧ ∀ n, n ∈ filter (λ n, addr n ≠ addr c) l ↔ n ∈ l ∧ addr n ≠ addr c)
  ∧ (current s = None → pick_next r s = Some (choice r l))
  ∧ (∀ c, current s = Some c → length l = 1%nat →
     next_song load_error r s = Some (set_status "End of playlist" s)).
Proof.
  intros Hrepr Hsh. pose proof (to_list_repr _ _ _ Hrepr) as Hlist.
  pose proof (repr_nodup _ _ _ Hrepr) as Hnd.
  unfold next_song, pick_next, _random_next. rewrite Hsh, Hlist. split_and!.
  - intros c -> Hlen. pose proof (choices_nonempty l c Hnd Hlen) as Hne.
    rewrite bool_decide_eq_false_2 by lia.
    destruct l as [|x l']; [simpl in Hlen; lia|]. remember (x :: l') as l0.
    split_and!.
    + by destruct (filter _ l0).
    + unfold choice. apply lookup_lt_is_Some, Nat.mod_upper_bound.
      by destruct (filter _ l0).
    + apply NoDup_filter. by apply (NoDup_fmap_1 addr).
    + intros n. rewrite list_elem_of_filter. tauto.
  - intros ->. destruct l; [by unfold choice | done].
  - intros c -> Hlen. destruct l as [|x [|??]]; try done.
Qed.

End Shuffle.

(** *** The poll *)

(** While the engine is paused a tick of the poll does nothing. *)
Lemma poll_paused load_error r s :
  paused (engine s) = true → _poll_playback load_error r s = Some s.
Proof. intros H. unfold _poll_playback. by rewrite H. Qed.

(** After [stop_song] the engine is neither paused nor busy, so with a
    current track the next tick of the poll calls [next_song]. *)
Lemma poll_after_stop load_error r s c :
  current s = Some c →
  paused (engine (stop_song s)) = false
  ∧ Engine.is_busy (engine (stop_song s)) = false
  ∧ current (stop_song s) = Some c
  ∧ _poll_playback load_error r (stop_song s) = next_song load_error r (stop_song s).
Proof.
  intros Hc. unfold _poll_playback, stop_song. simpl. rewrite Hc.
  by rewrite bool_decide_eq_true_2 by (by eexists).
Qed.

(** With no current track a tick of the poll does nothing. *)
Lemma poll_no_current load_error r s :
  current s = None → _poll_playback load_error r s = Some s.
Proof.
  intros H. unfold _poll_playback. rewrite H, andb_comm.
  by rewrite bool_decide_eq_false_2 by (by intros [??]).
Qed.

End PlayerTheory.

(** ** Theorems about the title index *)

Module SearchTheory.

Import TrieSpec TrieTheory.

Lemma prefix_search_total ws prefix limit :
  ∃ out, prefix_search (build ws) prefix limit = Some out
         ∧ Z.of_nat (length out) ≤ Z.max 0 limit.
Proof.
  destruct (descend (Py.lower prefix) (root (build ws))) as [node|] eqn:Hd.
  - rewrite (prefix_search_reached _ _ _ _ Hd). eexists. split; [done|].
    rewrite length_take. lia.
  - unfold prefix_search. rewrite Hd. exists []. split; [done | simpl; lia].
Qed.

(** C7: [prefix_search] walks down by the lower-cased characters of the
    prefix and returns the empty list when one of them has no matching child;
    otherwise it returns the titles below the node it reached in breadth-first
    order (the titles of the node first, then those of its descendants level
    by level), without repetitions, first occurrences kept, cut to [limit]
    results. *)
Theorem prefix_search_breadth_first (ws : list string) (prefix : string) (limit : Z) :
  (no_match (Py.lower prefix) (root (build ws)) →
     prefix_search (build ws) prefix limit = Some [])
  ∧ (∀ node, descend (Py.lower prefix) (root (build ws)) = Some node →
       prefix_search (build ws) prefix limit
       = Some (take (Z.to_nat limit) (dedupe (level_order node))))
  ∧ (∃ out, prefix_search (build ws) prefix limit = Some out
            ∧ Z.of_nat (length out) ≤ Z.max 0 limit).
Proof.
  split_and!.
  - intros Hno%descend_None. unfold prefix_search. by rewrite Hno.
  - apply prefix_search_reached.
  - apply prefix_search_total.
Qed.

(** C6, as the code has it: a title [T] that was inserted is found by a
    search for any query [P] whose lower-cased form begins the lower-cased
    form of [T] (the key under which [T] is filed), [T] itself included, when
    [limit] is at least the number of titles that match, provided that at most
    20 different inserted titles have the lower-case form of [T] (the list of
    a terminal node is capped at 20 and drops its oldest title beyond that). *)
Theorem prefix_search_finds (ws : list string) (T P Q : string) (limit : Z) :
  T ∈ ws → Py.lower T = Py.lower P +:+ Q →
  (length (remove_dups (spelled (Py.lower T) ws)) ≤ 20)%nat →
  Z.of_nat (length (matching (build ws) P)) ≤ limit →
  ∃ out, prefix_search (build ws) P limit = Some out ∧ T ∈ out.
Proof.
  intros HT Hlow Hcap Hlimit.
  destruct (build_ends ws (Py.lower T)) as (_ & _ & Hkept).
  specialize (Hkept Hcap T HT eq_refl).
  rewrite Hlow in Hkept. unfold ends_at in Hkept.
  rewrite descend_app in Hkept.
  destruct (descend (Py.lower P) (root (build ws))) as [node|] eqn:Hnode;
    [|by apply elem_of_nil in Hkept].
  simpl in Hkept. apply (ends_at_stored Q node T) in Hkept.
  assert (T ∈ titles node) as Htitles
    by (apply list_elem_of_fmap; by exists (Q, T)).
  unfold matching in Hlimit. rewrite Hnode in Hlimit.
  rewrite (prefix_search_reached _ _ _ _ Hnode).
  rewrite dedupe_NoDup by (by eapply build_level_NoDup).
  eexists. split; [done|]. rewrite take_ge.
  - by rewrite level_order_titles.
  - rewrite (Permutation_length (level_order_titles node)). lia.
Qed.

End SearchTheory.

(** ** The program on concrete runs *)

Module Checks.

Import Player TrieSpec DLLSpec PlayerSpec TrieTheory DLLTheory PlayerTheory SearchTheory Runs.

Example trie_scenario :
  prefix_search (build ["alpha"; "Beta"; "Gamma"]) "b" 20 = Some ["Beta"].
Proof. vm_compute. reflexivity. Qed.

Example folder_scenario :
  playlist (ui (load_folder "/music" ["Beta.mp3"; "alpha.wav"; "Gamma.ogg"; "notes.txt"] init))
  = ["alpha"; "Beta"; "Gamma"].
Proof. vm_compute. reflexivity. Qed.

Lemma two_tracks_repr : dll_repr (heap two_tracks) (dll two_tracks) [node_a; node_b].
Proof.
  destruct (load_folder_built "/music" ["a.mp3"; "b.mp3"] init)
    as (_ & _ & _ & _ & _ & nodes & Hlist & Hrepr & _);
    [done | by vm_compute |].
  vm_compute in Hlist. injection Hlist as <-. exact Hrepr.
Qed.

Lemma playing_a_ledger : play_counts playing_a = {["a" := 1]}.
Proof. vm_compute. reflexivity. Qed.

(** C1: after the user has pressed Stop on a playing track, the next tick
    of the poll calls [next_song]: the engine is neither paused nor busy and
    the track is still current, so the second track starts to play. *)
Theorem poll_after_stop_advances :
  current stopped_a = Some node_a
  ∧ status (ui stopped_a) = "Stopped"
  ∧ paused (engine stopped_a) = false
  ∧ Engine.is_busy (engine stopped_a) = false
  ∧ _poll_playback loads_all 0 stopped_a = next_song loads_all 0 stopped_a
  ∧ current <$> _poll_playback loads_all 0 stopped_a = Some (Some node_b)
  ∧ history_stack <$> _poll_playback loads_all 0 stopped_a = Some [node_a]
  ∧ (λ s, stream (mixer (engine s))) <$> _poll_playback loads_all 0 stopped_a
    = Some Playing.
Proof. vm_compute. by split_and!. Qed.

(** C2: a successful folder load clears the current track and rebuilds the
    registry, but it leaves the play-count ledger alone: the track played
    before the load keeps its count, although the new folder does not hold
    it and the registry no longer knows its title. *)
Theorem load_folder_keeps_ledger :
  "/music" ≠ EmptyString ∧ songs_of "/music" ["b.mp3"] ≠ []
  ∧ current playing_a = Some node_a
  ∧ current (load_folder "/music" ["b.mp3"] playing_a) = None
  ∧ node_by_title (load_folder "/music" ["b.mp3"] playing_a) !! "a" = None
  ∧ play_counts (load_folder "/music" ["b.mp3"] playing_a) !! "a" = Some 1
  ∧ play_counts (load_folder "/music" ["b.mp3"] playing_a) ≠ ∅.
Proof.
  assert ("/music" ≠ EmptyString) as H1 by discriminate.
  assert (songs_of "/music" ["b.mp3"] ≠ []) as H2 by (vm_compute; discriminate).
  assert (current playing_a = Some node_a) as H3 by (vm_compute; reflexivity).
  assert (current (load_folder "/music" ["b.mp3"] playing_a) = None) as H4
    by (vm_compute; reflexivity).
  assert (node_by_title (load_folder "/music" ["b.mp3"] playing_a) !! "a" = None) as H5
    by (vm_compute; reflexivity).
  remember (play_counts (load_folder "/music" ["b.mp3"] playing_a)) as pc eqn:Hpc.
  assert (pc !! "a" = Some 1) as H by (subst pc; vm_compute; reflexivity).
  clear Hpc. split_and!; try assumption.
  intros ->. rewrite lookup_empty in H. discriminate.
Qed.

(** C4 fails as stated: one track, shuffle on, nothing current yet:
    [next_song] plays the track. *)
Lemma shuffle_single_track_plays :
  DLL.to_list (heap one_track_shuffled) (dll one_track_shuffled) = Some [node_a]
  ∧ shuffle_on one_track_shuffled = true
  ∧ current one_track_shuffled = None
  ∧ current <$> next_song loads_all 0 one_track_shuffled = Some (Some node_a)
  ∧ (λ s, status (ui s)) <$> next_song loads_all 0 one_track_shuffled
    = Some "Playing: a".
Proof. vm_compute. by split_and!. Qed.

(** C5 fails as stated: with no current track [_toggle_pause] is not a
    no-op, it issues resume and reports "Resumed". *)
Lemma toggle_pause_without_track :
  current init = None
  ∧ _toggle_pause init ≠ init
  ∧ calls (mixer (engine (_toggle_pause init))) = [MUnpause]
  ∧ status (ui (_toggle_pause init)) = "Resumed".
Proof.
  split_and!; try (vm_compute; reflexivity).
  intros Heq. assert (status (ui (_toggle_pause init)) = status (ui init)) as H
    by (by rewrite Heq).
  vm_compute in H. discriminate.
Qed.

(** C6 fails as stated: the oldest of 21 titles that share a lower-case
    form has been dropped from its node and is not found. *)
Lemma evicted_title_not_found :
  "track" ∈ case_variants
  ∧ "track" = "track" +:+ EmptyString
  ∧ Z.of_nat (length (matching (build case_variants) "track")) ≤ 30
  ∧ prefix_search (build case_variants) "track" 30 = Some (drop 1 case_variants)
  ∧ "track" ∉ drop 1 case_variants.
Proof.
  split_and!.
  - apply list_elem_of_here.
  - reflexivity.
  - by vm_compute.
  - vm_compute. reflexivity.
  - apply (bool_decide_eq_false_1 ("track" ∈ drop 1 case_variants)).
    vm_compute. reflexivity.
Qed.

(** *** The theorems at concrete inputs *)

Lemma play_node_outcome_witness :
  (Engine.load_and_play fails_b (path node_b) (engine playing_a) = inr "cannot open"
   ∧ current (play_node fails_b (Some node_b) playing_a) = current playing_a
   ∧ play_counts (play_node fails_b (Some node_b) playing_a) = play_counts playing_a)
  ∧ (Engine.load_and_play loads_all (path node_b) (engine playing_a)
     = inl (mkEngine false
              (Music.play (Music.load (path node_b) (mixer (engine playing_a)))))
     ∧ current (play_node loads_all (Some node_b) playing_a) = Some node_b
     ∧ play_counts (play_node loads_all (Some node_b) playing_a) !! "b" = Some 1).
Proof.
  split.
  - assert (Engine.load_and_play fails_b (path node_b) (engine playing_a)
            = inr "cannot open") as H by reflexivity.
    destruct (proj1 (play_node_outcome fails_b playing_a node_b) _ H) as (_ & Hc & Hp).
    exact (conj H (conj Hc Hp)).
  - assert (Engine.load_and_play loads_all (path node_b) (engine playing_a)
            = inl (mkEngine false
                     (Music.play (Music.load (path node_b) (mixer (engine playing_a))))))
      as H by reflexivity.
    destruct (proj2 (play_node_outcome loads_all playing_a node_b) _ H)
      as (Hc & Hnew & _).
    split; [exact H|]. split; [exact Hc|]. apply Hnew. vm_compute. reflexivity.
Defined.

Lemma shuffle_next_witness :
  dll_repr (heap (_toggle_shuffle playing_a)) (dll (_toggle_shuffle playing_a))
           [node_a; node_b]
  ∧ shuffle_on (_toggle_shuffle playing_a) = true
  ∧ current (_toggle_shuffle playing_a) = Some node_a
  ∧ pick_next 0 (_toggle_shuffle playing_a) = Some (Some node_b).
Proof.
  assert (dll_repr (heap (_toggle_shuffle playing_a)) (dll (_toggle_shuffle playing_a))
                   [node_a; node_b]) as Hrepr.
  { assert (heap (_toggle_shuffle playing_a) = heap two_tracks) as -> by reflexivity.
    assert (dll (_toggle_shuffle playing_a) = dll two_tracks) as -> by reflexivity.
    exact two_tracks_repr. }
  assert (shuffle_on (_toggle_shuffle playing_a) = true) as Hsh
    by (vm_compute; reflexivity).
  assert (current (_toggle_shuffle playing_a) = Some node_a) as Hcur
    by (vm_compute; reflexivity).
  destruct (shuffle_next loads_all 0 _ _ Hrepr Hsh) as [Hmany _].
  destruct (Hmany node_a Hcur) as [Hpick _]; [simpl; lia|].
  split; [exact Hrepr|]. split; [exact Hsh|]. split; [exact Hcur|].
  rewrite Hpick. vm_compute. reflexivity.
Defined.

Lemma toggle_pause_cases_witness :
  (Engine.is_busy (engine playing_a) = true ∧ paused (engine playing_a) = false
   ∧ status (ui (_toggle_pause playing_a)) = "Paused")
  ∧ (Engine.is_busy (engine stopped_a) = false
     ∧ status (ui (_toggle_pause stopped_a)) = "Resumed").
Proof.
  split.
  - assert (Engine.is_busy (engine playing_a) = true) as Hb by (vm_compute; reflexivity).
    assert (paused (engine playing_a) = false) as Hp by (vm_compute; reflexivity).
    destruct (toggle_pause_cases playing_a) as (Hpause & _).
    destruct (Hpause Hb Hp) as (_ & _ & Hst).
    exact (conj Hb (conj Hp Hst)).
  - assert (Engine.is_busy (engine stopped_a) = false) as Hb by (vm_compute; reflexivity).
    destruct (toggle_pause_cases stopped_a) as (_ & Hresume & _).
    destruct (Hresume (or_introl Hb)) as (_ & _ & Hst).
    exact (conj Hb Hst).
Defined.

Lemma prefix_search_finds_witness :
  "Beta" ∈ ["alpha"; "Beta"; "Gamma"]
  ∧ Py.lower "Beta" = Py.lower "B" +:+ "eta"
  ∧ (length (remove_dups (spelled (Py.lower "Beta") ["alpha"; "Beta"; "Gamma"])) ≤ 20)%nat
  ∧ Z.of_nat (length (matching (build ["alpha"; "Beta"; "Gamma"]) "B")) ≤ 20
  ∧ ∃ out, prefix_search (build ["alpha"; "Beta"; "Gamma"]) "B" 20 = Some out
           ∧ "Beta" ∈ out.
Proof.
  assert ("Beta" ∈ ["alpha"; "Beta"; "Gamma"]) as H1
    by apply list_elem_of_further, list_elem_of_here.
  assert (Py.lower "Beta" = Py.lower "B" +:+ "eta") as H2 by reflexivity.
  assert (length (remove_dups (spelled (Py.lower "Beta") ["alpha"; "Beta"; "Gamma"])) ≤ 20)%nat
    as H3 by (vm_compute; lia).
  assert (Z.of_nat (length (matching (build ["alpha"; "Beta"; "Gamma"]) "B")) ≤ 20) as H4
    by (vm_compute; discriminate).
  exact (conj H1 (conj H2 (conj H3 (conj H4
           (prefix_search_finds _ "Beta" "B" "eta" 20 H1 H2 H3 H4))))).
Defined.

Lemma prefix_search_breadth_first_witness :
  no_match (Py.lower "Bx") (root (build ["alpha"; "Beta"; "Gamma"]))
  ∧ prefix_search (build ["alpha"; "Beta"; "Gamma"]) "Bx" 20 = Some []
  ∧ ∃ node, descend (Py.lower "B") (root (build ["alpha"; "Beta"; "Gamma"])) = Some node
            ∧ prefix_search (build ["alpha"; "Beta"; "Gamma"]) "B" 20
              = Some (take (Z.to_nat 20) (dedupe (level_order node))).
Proof.
  assert (no_match (Py.lower "Bx") (root (build ["alpha"; "Beta"; "Gamma"]))) as Hno.
  { apply descend_None. vm_compute. reflexivity. }
  split; [exact Hno|]. split.
  - exact (proj1 (prefix_search_breadth_first ["alpha"; "Beta"; "Gamma"] "Bx" 20) Hno).
  - destruct (descend (Py.lower "B") (root (build ["alpha"; "Beta"; "Gamma"])))
      as [node|] eqn:Hd; [|vm_compute in Hd; discriminate].
    exists node. split; [reflexivity|].
    exact (proj1 (proj2 (prefix_search_breadth_first ["alpha"; "Beta"; "Gamma"] "B" 20))
                 node Hd).
Defined.

Lemma top_played_ranking_witness :
  play_counts playing_a ≠ ∅
  ∧ last (dialogs (ui (show_top_played 10 playing_a)))
    = Some (TopPlayedWindow (top_items 10 (play_counts playing_a)))
  ∧ Z.of_nat (size (play_counts playing_a)) ≤ 10
  ∧ top_items 10 (play_counts playing_a) ≡ₚ map_to_list (play_counts playing_a)
  ∧ play_counts playing_a !! "z" = None
  ∧ top_items 1 (Nat.iter 3 (count_play "z") (play_counts playing_a)) = [("z", 3)].
Proof.
  assert (play_counts playing_a ≠ ∅) as Hne.
  { rewrite playing_a_ledger. intros H.
    assert (({["a" := 1]} : gmap string Z) !! "a" = (∅ : gmap string Z) !! "a") as H'
      by (by rewrite H).
    rewrite lookup_singleton_eq, lookup_empty in H'. discriminate. }
  assert (Z.of_nat (size (play_counts playing_a)) ≤ 10) as Hk.
  { rewrite playing_a_ledger, map_size_singleton. lia. }
  assert (play_counts playing_a !! "z" = None) as Hz.
  { rewrite playing_a_ledger. by apply lookup_singleton_ne. }
  destruct (top_played_ranking playing_a 10) as (_ & Hwin & _ & _ & Hall & Hround).
  split; [exact Hne|]. split; [exact (Hwin Hne)|]. split; [exact Hk|].
  split; [exact (Hall Hk)|]. split; [exact Hz|].
  apply (Hround "z" 3%nat Hz); [lia|].
  intros t' c. rewrite playing_a_ledger.
  intros [_ <-]%lookup_singleton_Some. lia.
Defined.

Lemma next_then_prev_witness :
  shuffle_on playing_a = false
  ∧ current playing_a = Some node_a
  ∧ next_of (heap playing_a) !! addr node_a = Some node_b
  ∧ loads_all (path node_b) = None
  ∧ loads_all (path node_a) = None
  ∧ (∃ s1, next_song loads_all 0 playing_a = Some s1
           ∧ current s1 = Some node_b
           ∧ history_stack s1 = history_stack playing_a ++ [node_a]
           ∧ current (prev_song loads_all s1) = Some node_a
           ∧ history_stack (prev_song loads_all s1) = history_stack playing_a)
  ∧ status (ui (prev_song loads_all playing_a)) = "No previous song".
Proof.
  assert (shuffle_on playing_a = false) as H1 by (vm_compute; reflexivity).
  assert (current playing_a = Some node_a) as H2 by (vm_compute; reflexivity).
  assert (next_of (heap playing_a) !! addr node_a = Some node_b) as H3
    by (vm_compute; reflexivity).
  assert (loads_all (path node_b) = None) as H4 by reflexivity.
  assert (loads_all (path node_a) = None) as H5 by reflexivity.
  destruct (next_then_prev loads_all 0 playing_a node_a node_b H1 H2 H3 H4 H5)
    as [Hmove Hempty].
  assert (history_stack playing_a = []) as H6 by (vm_compute; reflexivity).
  destruct (Hempty playing_a H6) as (Hst & _).
  exact (conj H1 (conj H2 (conj H3 (conj H4 (conj H5 (conj Hmove Hst)))))).
Defined.

Lemma next_song_failed_load_witness :
  current playing_a = Some node_a
  ∧ pick_next 0 playing_a = Some (Some node_b)
  ∧ fails_b (path node_b) = Some "cannot open"
  ∧ ∃ s', next_song fails_b 0 playing_a = Some s'
          ∧ history_stack s' = history_stack playing_a ++ [node_a]
          ∧ length (history_stack s') = S (length (history_stack playing_a))
          ∧ current s' = Some node_a
          ∧ play_counts s' = play_counts playing_a
          ∧ dialogs (ui s')
            = dialogs (ui playing_a) ++ [ShowError "Playback error" "cannot open"].
Proof.
  assert (current playing_a = Some node_a) as H1 by (vm_compute; reflexivity).
  assert (pick_next 0 playing_a = Some (Some node_b)) as H2 by (vm_compute; reflexivity).
  assert (fails_b (path node_b) = Some "cannot open") as H3 by reflexivity.
  exact (conj H1 (conj H2 (conj H3
           (next_song_failed_load fails_b 0 playing_a node_a node_b "cannot open"
              H1 H2 H3)))).
Defined.

End Checks.

(** ** More on the title index *)

Module TrieMore.

Import TrieSpec TrieMoreSpec TrieTheory SearchTheory.

Lemma length_string_app p q :
  String.length (p +:+ q) = (String.length p + String.length q)%nat.
Proof. induction p as [|c p IH]; simpl; [done | by rewrite IH]. Qed.

Lemma store_end_in w es : w ∈ store_end w es.
Proof.
  unfold store_end. case_bool_decide; [done|].
  destruct (Nat.ltb_spec 20 (length (es ++ [w]))) as [Hlen|_].
  - rewrite length_app in Hlen. simpl in Hlen.
    rewrite drop_app_le by lia. apply elem_of_app. right. apply list_elem_of_here.
  - apply elem_of_app. right. apply list_elem_of_here.
Qed.

Lemma store_end_length w es : (length es ≤ 20 → length (store_end w es) ≤ 20)%nat.
Proof.
  intros Hes. unfold store_end. case_bool_decide; [done|].
  destruct (Nat.ltb_spec 20 (length (es ++ [w]))) as [Hlen|Hlen]; [|done].
  rewrite length_drop, length_app. simpl. lia.
Qed.

Lemma set_child_same ch cs m : get_child ch cs = Some m → set_child ch m cs = cs.
Proof.
  induction cs as [|[c n] cs IH]; simpl; [done|].
  case_bool_decide; [by intros [= ->] | intros Hget; by rewrite IH].
Qed.

Lemma insert_path_stored chars w : ∀ n, w ∈ ends_at chars n → insert_path chars w n = n.
Proof.
  induction chars as [|ch rest IH]; intros [cs es]; unfold ends_at; simpl.
  - intros Hw. unfold store_end. by rewrite bool_decide_eq_true_2.
  - destruct (get_child ch cs) as [m|] eqn:Hget; [|by intros ?%elem_of_nil].
    intros Hw. simpl. rewrite (IH m Hw). by rewrite set_child_same.
Qed.

Lemma ends_at_insert w t : w ∈ ends_at (Py.lower w) (root (insert w t)).
Proof.
  unfold insert. simpl. rewrite ends_at_insert_path.
  rewrite bool_decide_eq_true_2 by done. apply store_end_in.
Qed.

(** X1: inserting a title that its node already holds changes nothing; in
    particular a second [insert] of the same title is without effect. *)
Theorem insert_idempotent (w : string) (t : Trie) :
  (w ∈ ends_at (Py.lower w) (root t) → insert w t = t)
  ∧ insert w (insert w t) = insert w t.
Proof.
  assert (∀ t', w ∈ ends_at (Py.lower w) (root t') → insert w t' = t') as Hstored.
  { intros [r] Hw. unfold insert. simpl in *. by rewrite insert_path_stored. }
  split; [apply Hstored|]. apply Hstored, ends_at_insert.
Qed.

(** X2: no node of a built index holds more than 20 titles. *)
Theorem ends_capped (ws : list string) (p : string) :
  (length (ends_at p (root (build ws))) ≤ 20)%nat.
Proof.
  revert p. induction ws as [|w ws IH] using rev_ind; intros p.
  - unfold build. simpl. rewrite ends_at_new. simpl. lia.
  - rewrite build_snoc. unfold insert. simpl root. rewrite ends_at_insert_path.
    case_bool_decide; [apply store_end_length|]; apply IH.
Qed.

(** X3: the result of a search depends on the query only through its
    lower-case form. *)
Theorem prefix_search_case_insensitive (t : Trie) (P P' : string) (limit : Z) :
  Py.lower P = Py.lower P' → prefix_search t P limit = prefix_search t P' limit.
Proof.
  intros Hlow. unfold prefix_search. rewrite Hlow.
  destruct (descend (Py.lower P') (root t)) as [node|]; [|done].
  rewrite (bfs_loop_levels P limit (node_size node) [(node, P)]),
          (bfs_loop_levels P' limit (node_size node) [(node, P')]);
    (done || (unfold forest_size; simpl; lia)).
Qed.

Lemma stored_key ws p node q w :
  descend p (root (build ws)) = Some node → (q, w) ∈ stored node →
  w ∈ ws ∧ Py.lower w = p +:+ q.
Proof.
  intros Hp Hin. apply stored_ends_at in Hin.
  - rewrite <- (ends_at_app p q _ _ Hp) in Hin. by apply (build_ends ws) in Hin.
  - eapply descend_shape; [apply build_shape | done].
Qed.

Lemma prefix_search_among ws prefix limit out :
  prefix_search (build ws) prefix limit = Some out →
  NoDup out
  ∧ ∀ w, w ∈ out → w ∈ ws ∧ ∃ q, Py.lower w = Py.lower prefix +:+ q.
Proof.
  destruct (descend (Py.lower prefix) (root (build ws))) as [node|] eqn:Hnode.
  - rewrite (prefix_search_reached _ _ _ _ Hnode). intros [= <-].
    pose proof (build_level_NoDup _ _ _ Hnode) as Hnd.
    rewrite dedupe_NoDup by done. split.
    + eapply sublist_NoDup; [done | apply sublist_take].
    + intros w Hw%(subseteq_take _ _). rewrite level_order_titles in Hw.
      apply list_elem_of_fmap in Hw as ([q w'] & -> & Hin).
      destruct (stored_key _ _ _ _ _ Hnode Hin) as [Hws Hlow]. eauto.
  - unfold prefix_search. rewrite Hnode. intros [= <-]. split; [constructor|].
    by intros w ?%elem_of_nil.
Qed.

(** X4: a search returns only titles that were inserted and that begin, case
    ignored, with the query; it returns none of them twice. *)
Theorem prefix_search_sound (ws : list string) (prefix : string) (limit : Z)
    (out : list string) :
  prefix_search (build ws) prefix limit = Some out →
  NoDup out
  ∧ ∀ w, w ∈ out → w ∈ ws ∧ ∃ q, Py.lower w = Py.lower prefix +:+ q.
Proof. apply prefix_search_among. Qed.

Lemma at_depth_kids k n m : at_depth k n → m ∈ kids n → at_depth (S k) m.
Proof.
  intros Hn Hm q w Hin. destruct n as [cs es]. unfold kids in Hm. simpl in Hm.
  apply list_elem_of_fmap in Hm as ([c m'] & -> & Hcm).
  rewrite (Hn (String c q) w); [simpl; lia|].
  simpl. apply elem_of_app. right. apply list_elem_of_bind.
  exists (c, m'). split; [|done]. by apply (list_elem_of_fmap_2 (under c) _ (q, w)).
Qed.

Lemma at_depth_ends k n w : at_depth k n → w ∈ ends n → key_length w = k.
Proof.
  intros Hn Hw. rewrite (Hn EmptyString w); [simpl; lia|].
  destruct n as [cs es]. simpl in *. apply elem_of_app. left.
  by apply (list_elem_of_fmap_2 (λ w, (EmptyString, w))).
Qed.

Lemma level_sorted d : ∀ level k,
  Forall (at_depth k) level →
  StronglySorted (λ a b, (key_length a ≤ key_length b)%nat)
                 (level_nodes d level ≫= ends)
  ∧ Forall (λ w, (k ≤ key_length w)%nat) (level_nodes d level ≫= ends).
Proof.
  induction d as [|d IH]; intros level k Hlevel; [split; constructor|].
  destruct level as [|n level]; [split; constructor|].
  change (level_nodes (S d) (n :: level))
    with ((n :: level) ++ level_nodes d ((n :: level) ≫= kids)).
  remember (n :: level) as l0 eqn:Hl0. clear Hl0 n level.
  rewrite bind_app.
  assert (Forall (λ w, key_length w = k) (l0 ≫= ends)) as Hfirst.
  { apply Forall_forall. intros w (n & Hw & Hn)%list_elem_of_bind.
    rewrite Forall_forall in Hlevel. apply (at_depth_ends k n); [by apply Hlevel | done]. }
  destruct (IH (l0 ≫= kids) (S k)) as [Hsorted Hdeep].
  { apply Forall_forall. intros m (n & Hm & Hn)%list_elem_of_bind.
    rewrite Forall_forall in Hlevel. apply (at_depth_kids k n); [by apply Hlevel | done]. }
  rewrite Forall_forall in Hfirst, Hdeep. split.
  - apply StronglySorted_app_2; [| |done].
    + intros a b Ha%Hfirst Hb%Hdeep. lia.
    + clear -Hfirst. induction (l0 ≫= ends) as [|a l IH]; constructor.
      * apply IH. intros w Hw. apply Hfirst. by apply list_elem_of_further.
      * apply Forall_forall. intros b Hb.
        rewrite (Hfirst a) by apply list_elem_of_here.
        rewrite (Hfirst b) by (by apply list_elem_of_further). done.
  - apply Forall_app. split; apply Forall_forall.
    + intros w Hw%Hfirst. lia.
    + intros w Hw%Hdeep. lia.
Qed.

(** X5: titles come in the order of the length of their lower-cased form,
    the key under which the index files them: a title with a shorter key
    stands before one with a longer key in the result of a search.  (Where
    lower-casing keeps the length, as on ASCII titles, shorter titles come
    first.) *)
Theorem prefix_search_shorter_first (ws : list string) (prefix : string) (limit : Z)
    (out : list string) :
  prefix_search (build ws) prefix limit = Some out →
  StronglySorted (λ a b, (key_length a ≤ key_length b)%nat) out.
Proof.
  destruct (descend (Py.lower prefix) (root (build ws))) as [node|] eqn:Hnode.
  - rewrite (prefix_search_reached _ _ _ _ Hnode). intros [= <-].
    rewrite dedupe_NoDup by (by eapply build_level_NoDup).
    assert (at_depth (String.length (Py.lower prefix)) node) as Hdepth.
    { intros q w Hin. destruct (stored_key _ _ _ _ _ Hnode Hin) as [_ Hlow].
      unfold key_length. by rewrite Hlow, length_string_app. }
    destruct (level_sorted (node_size node) [node] (String.length (Py.lower prefix)))
      as [Hsorted _]; [by apply Forall_singleton|].
    fold (level_order node) in Hsorted.
    rewrite <- (take_drop (Z.to_nat limit) (level_order node)) in Hsorted.
    by apply StronglySorted_app_1_l in Hsorted.
  - unfold prefix_search. rewrite Hnode. intros [= <-]. constructor.
Qed.

Lemma prefix_search_finds_stored ws T P Q limit :
  T ∈ ends_at (Py.lower T) (root (build ws)) → Py.lower T = Py.lower P +:+ Q →
  Z.of_nat (length (matching (build ws) P)) ≤ limit →
  ∃ out, prefix_search (build ws) P limit = Some out ∧ T ∈ out.
Proof.
  intros Hkept Hlow Hlimit.
  rewrite Hlow in Hkept. unfold ends_at in Hkept. rewrite descend_app in Hkept.
  destruct (descend (Py.lower P) (root (build ws))) as [node|] eqn:Hnode;
    [|by apply elem_of_nil in Hkept].
  simpl in Hkept. apply (ends_at_stored Q node T) in Hkept.
  assert (T ∈ titles node) as Htitles
    by (apply list_elem_of_fmap; by exists (Q, T)).
  unfold matching in Hlimit. rewrite Hnode in Hlimit.
  rewrite (prefix_search_reached _ _ _ _ Hnode).
  rewrite dedupe_NoDup by (by eapply build_level_NoDup).
  eexists. split; [done|]. rewrite take_ge.
  - by rewrite level_order_titles.
  - rewrite (Permutation_length (level_order_titles node)). lia.
Qed.

(** X6: the title inserted last is found by a search for any query whose
    lower-cased form begins the lower-cased form of the title, whatever the
    cap has dropped, when [limit] is at least the number of titles that
    match. *)
Theorem prefix_search_finds_latest (ws : list string) (T P Q : string) (limit : Z) :
  Py.lower T = Py.lower P +:+ Q →
  Z.of_nat (length (matching (build (ws ++ [T])) P)) ≤ limit →
  ∃ out, prefix_search (build (ws ++ [T])) P limit = Some out ∧ T ∈ out.
Proof.
  intros Hlow Hlimit. apply (prefix_search_finds_stored _ T P Q); [|done|done].
  rewrite build_snoc. apply ends_at_insert.
Qed.

End TrieMore.

(** ** More on the playlist *)

Module DLLMore.

Import DLLSpec PlayerSpec DLLTheory DLLMoreSpec.

Lemma append_all_repr songs : ∀ h d l,
  dll_repr h d l →
  ∃ new, dll_repr (append_all songs h d).1 (append_all songs h d).2 (l ++ new)
         ∧ song_of <$> new = songs.
Proof.
  induction songs as [|[t p] songs IH]; intros h d l Hrepr.
  - exists []. by rewrite app_nil_r.
  - unfold append_all. simpl foldl.
    destruct (DLL.append t p h d) as [[h1 d1] node] eqn:Happ. simpl.
    destruct (append_repr _ _ _ _ _ _ _ _ Hrepr Happ) as [-> Hrepr'].
    destruct (IH _ _ _ Hrepr') as (new & Hnew & Hsongs).
    exists (mkNode (next_addr h) t p :: new). split.
    + by rewrite <- app_assoc in Hnew.
    + rewrite fmap_cons. by f_equal.
Qed.

(** The links of a well-formed list: nothing before the head, nothing
    behind the tail, and [next] and [prev] undo each other. *)
Lemma repr_links_inverse h d l :
  dll_repr h d l →
  (∀ n, DLL.head d = Some n → prev_of h !! addr n = None)
  ∧ (∀ n, DLL.tail d = Some n → next_of h !! addr n = None)
  ∧ (∀ n m, n ∈ l → next_of h !! addr n = Some m →
       m ∈ l ∧ prev_of h !! addr m = Some n)
  ∧ (∀ n m, n ∈ l → prev_of h !! addr n = Some m →
       m ∈ l ∧ next_of h !! addr m = Some n).
Proof.
  intros [Hhead Htail _ _ _ Hlinks]. split_and!.
  - intros n Hn. rewrite Hhead in Hn. by destruct (Hlinks 0%nat n Hn) as [_ ?].
  - intros n Hn. rewrite Htail, last_lookup in Hn.
    destruct (Hlinks _ n Hn) as [-> _]. apply lookup_ge_None_2.
    destruct l; simpl in *; [done | lia].
  - intros n m [i Hi]%list_elem_of_lookup Hnext.
    destruct (Hlinks i n Hi) as [Hn _]. rewrite Hn in Hnext.
    split; [by eapply list_elem_of_lookup_2|].
    destruct (Hlinks (S i) m Hnext) as [_ ->]. done.
  - intros n m [i Hi]%list_elem_of_lookup Hprev.
    destruct (Hlinks i n Hi) as [_ Hp]. rewrite Hp in Hprev.
    destruct i as [|j]; [done|].
    split; [by eapply list_elem_of_lookup_2|].
    destruct (Hlinks j m Hprev) as [-> _]. done.
Qed.

(** X7: songs appended to a new list come back from [to_list] in the order of
    insertion, one node per song, and [size] counts them. *)
Theorem append_all_to_list (songs : list (string * string)) (h : Heap) :
  ∃ nodes,
    DLL.to_list (append_all songs h DLL.new).1 (append_all songs h DLL.new).2 = Some nodes
    ∧ song_of <$> nodes = songs
    ∧ DLL.size (append_all songs h DLL.new).2 = length songs
    ∧ DLL.head (append_all songs h DLL.new).2 = nodes !! 0%nat
    ∧ DLL.tail (append_all songs h DLL.new).2 = last nodes
    ∧ NoDup (addr <$> nodes).
Proof.
  destruct (append_all_repr songs h DLL.new [] (dll_repr_clear h DLL.new))
    as (nodes & Hrepr & Hsongs).
  exists nodes. simpl in Hrepr. pose proof Hrepr as [Hhead Htail Hsize _ Hnd _].
  split_and!; try done.
  - by apply to_list_repr.
  - by rewrite Hsize, <- Hsongs, length_fmap.
Qed.

(** X8: in a list built by appends the head has no [prev], the tail has no
    [next], and following [next] and then [prev] (or [prev] and then [next])
    leads back to the same node. *)
Theorem append_all_links (songs : list (string * string)) (h : Heap) :
  ∃ nodes,
    DLL.to_list (append_all songs h DLL.new).1 (append_all songs h DLL.new).2 = Some nodes
    ∧ (∀ n, DLL.head (append_all songs h DLL.new).2 = Some n →
         prev_of (append_all songs h DLL.new).1 !! addr n = None)
    ∧ (∀ n, DLL.tail (append_all songs h DLL.new).2 = Some n →
         next_of (append_all songs h DLL.new).1 !! addr n = None)
    ∧ (∀ n m, n ∈ nodes → next_of (append_all songs h DLL.new).1 !! addr n = Some m →
         m ∈ nodes ∧ prev_of (append_all songs h DLL.new).1 !! addr m = Some n)
    ∧ (∀ n m, n ∈ nodes → prev_of (append_all songs h DLL.new).1 !! addr n = Some m →
         m ∈ nodes ∧ next_of (append_all songs h DLL.new).1 !! addr m = Some n).
Proof.
  destruct (append_all_repr songs h DLL.new [] (dll_repr_clear h DLL.new))
    as (nodes & Hrepr & _).
  exists nodes. simpl in Hrepr. split; [by apply to_list_repr|].
  by apply repr_links_inverse.
Qed.

(** The heap after a round of [from_nodes] that puts [n] behind [l]. *)
Lemma from_nodes_step_linked h l n :
  linked h l → NoDup (addr <$> l ++ [n]) →
  linked (DLL.from_nodes_step (h, l !! 0%nat, last l) n).1.1 (l ++ [n]).
Proof.
  intros Hlinks Hnd. rewrite fmap_app in Hnd.
  apply NoDup_app in Hnd as (Hnd & Hfresh & _).
  assert (∀ x, x ∈ l → addr x ≠ addr n) as Hne.
  { intros x Hx Heq. apply (Hfresh (addr x)); [by apply list_elem_of_fmap_2|].
    rewrite Heq. apply list_elem_of_here. }
  unfold DLL.from_nodes_step. destruct (last l) as [tl|] eqn:Htl; simpl.
  - apply last_Some_snoc in Htl as [l' ->].
    assert (addr tl ≠ addr n) as Htl_ne
      by (apply Hne, elem_of_app; right; apply list_elem_of_here).
    intros i x Hi. cbn [next_of prev_of next_addr].
    destruct (decide (i < length (l' ++ [tl]))%nat) as [Hlt|Hge].
    + rewrite lookup_app_l in Hi by done.
      assert (addr x ≠ addr n) as Hx_ne by (eapply Hne, list_elem_of_lookup_2; done).
      destruct (Hlinks i x Hi) as [Hnext Hprev]. split.
      * destruct (decide (S i = length (l' ++ [tl]))) as [Hlast|Hnot].
        -- assert (x = tl) as ->.
           { rewrite length_app in Hlast. simpl in Hlast.
             rewrite lookup_app_r in Hi by lia.
             replace (i - length l')%nat with 0%nat in Hi by lia. by injection Hi. }
           rewrite lookup_insert_eq, Hlast, lookup_app_r by lia.
           by rewrite Nat.sub_diag.
        -- assert (addr tl ≠ addr x) as Hne'.
           { intros Heq. apply Hnot.
             assert (i = length l') as ->; [|rewrite length_app; simpl; lia].
             eapply (NoDup_lookup _ _ _ (addr tl) Hnd).
             - by rewrite list_lookup_fmap, Hi, Heq.
             - rewrite list_lookup_fmap, lookup_app_r, Nat.sub_diag by lia. done. }
           rewrite lookup_insert_ne, lookup_delete_ne, Hnext by done.
           rewrite (lookup_app_l (l' ++ [tl])) by lia. done.
      * rewrite lookup_insert_ne, lookup_delete_ne, Hprev by done.
        destruct i as [|j]; [done|]. rewrite (lookup_app_l (l' ++ [tl])) by lia. done.
    + assert (i = length (l' ++ [tl])) as -> by
        (apply lookup_lt_Some in Hi; rewrite !length_app in *; simpl in *; lia).
      rewrite lookup_app_r, Nat.sub_diag in Hi by lia. injection Hi as <-. split.
      * rewrite lookup_insert_ne, lookup_delete_eq by done.
        symmetry. apply lookup_ge_None_2. rewrite !length_app. simpl. lia.
      * rewrite lookup_insert_eq, length_app. simpl.
        replace (length l' + 1)%nat with (S (length l')) by lia.
        rewrite lookup_app_l by (rewrite length_app; simpl; lia).
        by rewrite lookup_app_r, Nat.sub_diag by lia.
  - apply last_None_nil in Htl as ->. intros [|i] x; [|done]. intros [= <-]. simpl.
    by rewrite !lookup_delete_eq.
Qed.

Lemma from_nodes_loop nodes : ∀ h,
  NoDup (addr <$> nodes) →
  ∃ h', foldl DLL.from_nodes_step (h, None, None) nodes = (h', nodes !! 0%nat, last nodes)
        ∧ linked h' nodes.
Proof.
  induction nodes as [|n nodes IH] using rev_ind; intros h Hnd.
  - exists h. split; [done|]. by intros i x ?.
  - destruct (IH h) as (h' & Hloop & Hlinks).
    { rewrite fmap_app in Hnd. by apply NoDup_app in Hnd as (? & _). }
    rewrite foldl_snoc, Hloop.
    pose proof (from_nodes_step_linked h' nodes n Hlinks Hnd) as Hstep.
    destruct (DLL.from_nodes_step (h', nodes !! 0%nat, last nodes) n)
      as [[h2 hd2] prev2] eqn:Heq.
    exists h2. split; [|done]. unfold DLL.from_nodes_step in Heq.
    injection Heq as _ <- <-. rewrite last_snoc. f_equal. f_equal.
    destruct nodes; done.
Qed.

(** X9: [from_nodes] on nodes that are all different makes the list hold just
    them, in the order given: [to_list] returns them, [size] is their
    number, and the links are those of a well-formed list. *)
Theorem from_nodes_rebuilds (nodes : list Node) (h : Heap) (d : DLL.DoublyLinkedList) :
  NoDup (addr <$> nodes) →
  DLL.to_list (DLL.from_nodes nodes h d).1 (DLL.from_nodes nodes h d).2 = Some nodes
  ∧ DLL.size (DLL.from_nodes nodes h d).2 = length nodes
  ∧ DLL.head (DLL.from_nodes nodes h d).2 = nodes !! 0%nat
  ∧ DLL.tail (DLL.from_nodes nodes h d).2 = last nodes
  ∧ linked (DLL.from_nodes nodes h d).1 nodes.
Proof.
  intros Hnd. destruct (from_nodes_loop nodes h Hnd) as (h' & Hloop & Hlinks).
  assert (DLL.from_nodes nodes h d
          = (h', DLL.mkDLL (nodes !! 0%nat) (last nodes) (length nodes))) as ->
    by (unfold DLL.from_nodes; simpl; by rewrite Hloop).
  simpl. split_and!; try done.
  unfold DLL.to_list. simpl.
  rewrite (to_list_loop_linked h' nodes Hlinks); [done | lia].
Qed.

Lemma to_list_loop_cycle h n : next_of h !! addr n = Some n →
  ∀ fuel out, DLL.to_list_loop fuel h (Some n) out = None.
Proof.
  intros Hself. induction fuel as [|fuel IH]; intros out; simpl; [done|].
  rewrite Hself. apply IH.
Qed.

(** X10: [from_nodes] given the same node twice links the node to itself: the
    traversal of the list then never comes to an end, whatever the number of
    steps it is given. *)
Theorem from_nodes_repeated (n : Node) (h : Heap) (d : DLL.DoublyLinkedList) (fuel : nat) :
  next_of (DLL.from_nodes [n; n] h d).1 !! addr n = Some n
  ∧ DLL.head (DLL.from_nodes [n; n] h d).2 = Some n
  ∧ DLL.to_list_loop fuel (DLL.from_nodes [n; n] h d).1
      (DLL.head (DLL.from_nodes [n; n] h d).2) [] = None.
Proof.
  assert (next_of (DLL.from_nodes [n; n] h d).1 !! addr n = Some n) as Hself.
  { unfold DLL.from_nodes. simpl. by rewrite lookup_insert_eq. }
  split; [done|]. split; [done|]. by apply to_list_loop_cycle.
Qed.

End DLLMore.

(** ** The order of strings and of heap tuples *)

Module OrderFacts.

Import OrderedTypeEx.

Lemma ltb_lt a b : String.ltb a b = true ↔ String_as_OT.lt a b.
Proof.
  unfold String.ltb. rewrite <- String_as_OT.cmp_lt. unfold String_as_OT.cmp.
  destruct (String.compare a b); split; congruence.
Qed.

Lemma ltb_trans a b c :
  String.ltb a b = true → String.ltb b c = true → String.ltb a c = true.
Proof. rewrite !ltb_lt. apply String_as_OT.lt_trans. Qed.

Lemma ltb_irrefl a : String.ltb a a = false.
Proof.
  destruct (String.ltb a a) eqn:E; [|done]. apply ltb_lt in E.
  by apply String_as_OT.lt_not_eq in E.
Qed.

Lemma ltb_asym a b : String.ltb a b = true → String.ltb b a = false.
Proof.
  intros Hab. destruct (String.ltb b a) eqn:Hba; [|done].
  pose proof (ltb_trans _ _ _ Hab Hba) as Haa. by rewrite ltb_irrefl in Haa.
Qed.

Lemma ltb_total a b : String.ltb a b = false → String.ltb b a = false → a = b.
Proof.
  unfold String.ltb. rewrite (String.compare_antisym b a).
  destruct (String.compare a b) eqn:E; simpl; try done.
  intros _ _. by apply String.compare_eq_iff.
Qed.

Lemma leb_ltb a b : String.leb a b = negb (String.ltb b a).
Proof.
  unfold String.leb, String.ltb. rewrite (String.compare_antisym b a).
  by destruct (String.compare a b).
Qed.

Lemma leb_trans a b c :
  String.leb a b = true → String.leb b c = true → String.leb a c = true.
Proof.
  rewrite !leb_ltb, !negb_true_iff. intros Hba Hcb.
  destruct (String.ltb c a) eqn:Hca; [|done].
  destruct (String.ltb a b) eqn:Hab.
  - by rewrite (ltb_trans _ _ _ Hca Hab) in Hcb.
  - rewrite (ltb_total a b Hab Hba) in Hca. by rewrite Hca in Hcb.
Qed.

(** The order on heap tuples is a strict total order. *)
Lemma tuple_ltb_spec a b :
  Heapq.tuple_ltb a b = true ↔ a.1 < b.1 ∨ (a.1 = b.1 ∧ String.ltb a.2 b.2 = true).
Proof.
  unfold Heapq.tuple_ltb. rewrite orb_true_iff, andb_true_iff, Z.ltb_lt, Z.eqb_eq. tauto.
Qed.

Lemma tuple_ltb_trans a b c :
  Heapq.tuple_ltb a b = true → Heapq.tuple_ltb b c = true → Heapq.tuple_ltb a c = true.
Proof.
  rewrite !tuple_ltb_spec. intros [?|[? Hab]] [?|[? Hbc]]; try (left; lia).
  right. split; [lia|]. by eapply ltb_trans.
Qed.

Lemma tuple_ltb_asym a b : Heapq.tuple_ltb a b = true → Heapq.tuple_ltb b a = false.
Proof.
  intros Hab. destruct (Heapq.tuple_ltb b a) eqn:Hba; [|done].
  apply tuple_ltb_spec in Hab, Hba.
  destruct Hab as [?|[? Hab]], Hba as [?|[? Hba]]; try lia.
  by rewrite (ltb_asym _ _ Hab) in Hba.
Qed.

Lemma tuple_ltb_total a b :
  Heapq.tuple_ltb a b = false → Heapq.tuple_ltb b a = false → a = b.
Proof.
  intros Hab Hba. destruct a as [x s], b as [y t].
  destruct (Z.lt_trichotomy x y) as [Hlt|[->|Hgt]].
  - assert (Heapq.tuple_ltb (x, s) (y, t) = true) by (apply tuple_ltb_spec; by left).
    congruence.
  - f_equal. apply ltb_total.
    + destruct (String.ltb s t) eqn:E; [|done].
      assert (Heapq.tuple_ltb (y, s) (y, t) = true) by (apply tuple_ltb_spec; by right).
      congruence.
    + destruct (String.ltb t s) eqn:E; [|done].
      assert (Heapq.tuple_ltb (y, t) (y, s) = true) by (apply tuple_ltb_spec; by right).
      congruence.
  - assert (Heapq.tuple_ltb (y, t) (x, s) = true) by (apply tuple_ltb_spec; left; simpl; lia).
    congruence.
Qed.

(** [a] is not behind [c] when it is not behind [b] and [b] is not behind
    [c]. *)
Lemma tuple_le_trans a b c :
  Heapq.tuple_ltb b a = false → Heapq.tuple_ltb c b = false → Heapq.tuple_ltb c a = false.
Proof.
  intros Hba Hcb. destruct (Heapq.tuple_ltb c a) eqn:Hca; [|done].
  destruct (Heapq.tuple_ltb a b) eqn:Hab.
  - by rewrite (tuple_ltb_trans _ _ _ Hca Hab) in Hcb.
  - rewrite (tuple_ltb_total a b Hab Hba) in Hca. by rewrite Hca in Hcb.
Qed.

End OrderFacts.

(** ** More on the application *)

Module PlayerMore.

Import Player TrieSpec DLLSpec PlayerSpec TrieTheory DLLTheory PlayerTheory.
Import OrderFacts PlayerMoreSpec.

(** *** Sorting *)

Lemma insert_sorted_perm {A} (key : A → string) x l :
  Py.insert_sorted key x l ≡ₚ x :: l.
Proof.
  induction l as [|y l IH]; simpl; [done|].
  destruct (String.ltb (key x) (key y)); [done|]. rewrite IH. apply perm_swap.
Qed.

Lemma sorted_perm {A} (key : A → string) l : Py.sorted key l ≡ₚ l.
Proof.
  unfold Py.sorted.
  cut (∀ acc, fold_left (λ acc x, Py.insert_sorted key x acc) l acc ≡ₚ acc ++ l).
  { intros H. by rewrite H. }
  induction l as [|x l IH]; intros acc; simpl; [by rewrite app_nil_r|].
  rewrite IH, insert_sorted_perm. simpl. apply Permutation_middle.
Qed.

Lemma insert_sorted_sorted {A} (key : A → string) x l :
  StronglySorted (λ a b, String.leb (key a) (key b) = true) l →
  StronglySorted (λ a b, String.leb (key a) (key b) = true) (Py.insert_sorted key x l).
Proof.
  induction 1 as [|y l Hl IH Hy]; simpl; [repeat constructor|].
  destruct (String.ltb (key x) (key y)) eqn:Hxy.
  - assert (String.leb (key x) (key y) = true) as Hle
      by (by rewrite leb_ltb, (ltb_asym _ _ Hxy)).
    constructor; [by constructor|]. constructor; [done|].
    eapply Forall_impl; [exact Hy|]. intros z Hz. by eapply leb_trans.
  - constructor; [done|]. rewrite insert_sorted_perm. constructor; [|done].
    by rewrite leb_ltb, Hxy.
Qed.

Lemma sorted_sorted {A} (key : A → string) l :
  StronglySorted (λ a b, String.leb (key a) (key b) = true) (Py.sorted key l).
Proof.
  unfold Py.sorted.
  assert (StronglySorted (λ a b, String.leb (key a) (key b) = true) (@nil A)) as Hacc
    by constructor.
  revert Hacc. generalize (@nil A).
  induction l as [|x l IH]; intros acc Hacc; simpl; [done|].
  by apply IH, insert_sorted_sorted.
Qed.

Lemma StronglySorted_fmap_impl {A B} (f : A → B) (R : relation A) (R' : relation B) l :
  (∀ a b, R a b → R' (f a) (f b)) → StronglySorted R l → StronglySorted R' (f <$> l).
Proof.
  intros Hf. induction 1 as [|a l Hl IH Ha]; simpl; constructor; [done|].
  apply Forall_fmap. eapply Forall_impl; [exact Ha|]. intros b Hb. by apply Hf.
Qed.

(** X11: after a successful folder load the rows of the playlist are the titles
    of the eligible files, in ascending order of their lower-cased form; the
    sequence holds one node per eligible file, in the order of the rows. *)
Theorem load_folder_sorted (folder : string) (listing : list string) (s : App) :
  folder ≠ EmptyString → songs_of folder listing ≠ [] →
  playlist (ui (load_folder folder listing s)) ≡ₚ (songs_of folder listing).*1
  ∧ StronglySorted title_le (playlist (ui (load_folder folder listing s)))
  ∧ DLL.size (dll (load_folder folder listing s)) = length (songs_of folder listing)
  ∧ ∃ nodes,
      DLL.to_list (heap (load_folder folder listing s)) (dll (load_folder folder listing s))
      = Some nodes
      ∧ title <$> nodes = playlist (ui (load_folder folder listing s)).
Proof.
  intros Hfolder Hsongs.
  destruct (load_folder_built folder listing s Hfolder Hsongs)
    as (_ & _ & _ & _ & Hrows & nodes & Hlist & Hrepr & Hnodes & _).
  rewrite Hrows. unfold sorted_songs in *. split_and!.
  - by rewrite sorted_perm.
  - eapply StronglySorted_fmap_impl; [|apply sorted_sorted]. by intros a b Hab.
  - rewrite (repr_size _ _ _ Hrepr), <- (length_fmap song_of), Hnodes.
    apply Permutation_length, sorted_perm.
  - exists nodes. split; [done|]. rewrite <- Hnodes, <- list_fmap_compose.
    by apply list_fmap_ext.
Qed.

(** *** The registry *)

Lemma register_lookup l : ∀ (m : gmap string Node) t,
  foldl register m l !! t
  = match last (titled t l) with Some n => Some n | None => m !! t end.
Proof.
  induction l as [|n l IH] using rev_ind; intros m t; [done|].
  rewrite foldl_snoc. unfold titled in *. rewrite filter_app. unfold register at 1.
  destruct (decide (title n = t)) as [Heq|Hne].
  - rewrite filter_cons_True, filter_nil, last_snoc by done.
    by rewrite Heq, lookup_insert_eq.
  - rewrite filter_cons_False, filter_nil, app_nil_r by done.
    by rewrite lookup_insert_ne.
Qed.

(** X12: after a successful folder load the registry maps a title to the last
    node of the sequence that carries it, and holds no other title. *)
Theorem load_folder_registry (folder : string) (listing : list string) (s : App) :
  folder ≠ EmptyString → songs_of folder listing ≠ [] →
  ∃ nodes,
    DLL.to_list (heap (load_folder folder listing s)) (dll (load_folder folder listing s))
    = Some nodes
    ∧ ∀ t, node_by_title (load_folder folder listing s) !! t = last (titled t nodes).
Proof.
  intros Hfolder Hsongs.
  destruct (load_folder_built folder listing s Hfolder Hsongs)
    as (_ & _ & _ & _ & _ & nodes & Hlist & _ & _ & Hreg).
  exists nodes. split; [done|]. intros t. rewrite Hreg, register_lookup.
  by destruct (last (titled t nodes)).
Qed.

(** *** What [play_node] leaves alone *)

Section More.
Context (load_error : string → option string).

Lemma play_node_frame node s :
  heap (play_node load_error node s) = heap s
  ∧ dll (play_node load_error node s) = dll s
  ∧ shuffle_on (play_node load_error node s) = shuffle_on s
  ∧ trie (play_node load_error node s) = trie s
  ∧ node_by_title (play_node load_error node s) = node_by_title s
  ∧ history_stack (play_node load_error node s) = history_stack s
  ∧ playlist (ui (play_node load_error node s)) = playlist (ui s)
  ∧ suggest_list (ui (play_node load_error node s)) = suggest_list (ui s).
Proof.
  destruct node as [n|]; [|done]. unfold play_node.
  destruct (Engine.load_and_play _ _ _); [|done].
  unfold set_status, _select_in_listbox. simpl. by destruct (list_find _ _) as [[??]|].
Qed.

Lemma play_node_loads n s :
  load_error (path n) = None →
  current (play_node load_error (Some n) s) = Some n
  ∧ play_counts (play_node load_error (Some n) s) = count_play (title n) (play_counts s)
  ∧ engine (play_node load_error (Some n) s)
    = mkEngine false (Music.play (Music.load (path n) (mixer (engine s)))).
Proof.
  intros Hok.
  assert (Engine.load_and_play load_error (path n) (engine s)
          = inl (mkEngine false (Music.play (Music.load (path n) (mixer (engine s))))))
    as Hplay by (unfold Engine.load_and_play; by rewrite Hok).
  by destruct (play_node_played load_error n s _ Hplay) as (? & ? & _ & ?).
Qed.

(** *** Moving through the sequence *)

(** X13: when the target of [prev_song] cannot be loaded, the entry popped from
    the history is lost: the history is one shorter, the current track and
    the ledger are as before, and the error is reported. *)
Theorem prev_song_failed_load (s : App) (hs : list Node) (a : Node) (msg : string) :
  history_stack s = hs ++ [a] →
  load_error (path a) = Some msg →
  history_stack (prev_song load_error s) = hs
  ∧ current (prev_song load_error s) = current s
  ∧ play_counts (prev_song load_error s) = play_counts s
  ∧ dialogs (ui (prev_song load_error s))
    = dialogs (ui s) ++ [ShowError "Playback error" msg].
Proof.
  intros Hhist Hfail. rewrite (prev_song_snoc load_error s hs a Hhist).
  rewrite (play_node_failed load_error a _ msg); [done|].
  unfold Engine.load_and_play. by rewrite Hfail.
Qed.

(** X14: with shuffle off [next_song] follows the order of the sequence: from the
    node at position [i] the target is the node at position [i + 1], with no
    current track it is the first node, and from the last node the end of the
    playlist is reported and nothing else changes (no wrap-around). *)
Theorem next_song_in_order (r : nat) (s : App) (l : list Node) :
  dll_repr (heap s) (dll s) l → shuffle_on s = false →
  (∀ i c, l !! i = Some c → current s = Some c → pick_next r s = Some (l !! S i))
  ∧ (current s = None → pick_next r s = Some (l !! 0%nat))
  ∧ (∀ c, last l = Some c → current s = Some c →
       next_song load_error r s = Some (set_status "End of playlist" s)).
Proof.
  intros Hrepr Hsh. unfold next_song, pick_next. rewrite Hsh. split_and!.
  - intros i c Hi ->. by destruct (repr_links _ _ _ Hrepr i c Hi) as [-> _].
  - intros ->. by rewrite (repr_head _ _ _ Hrepr).
  - intros c Hlast ->. rewrite last_lookup in Hlast.
    destruct (repr_links _ _ _ Hrepr _ c Hlast) as [-> _].
    rewrite lookup_ge_None_2; [done|]. destruct l; simpl; [done | lia].
Qed.

Lemma next_times_walk (r : nat) (s : App) (l : list Node) :
  dll_repr (heap s) (dll s) l → shuffle_on s = false → current s = None →
  (∀ n, n ∈ l → load_error (path n) = None) →
  ∀ k, (k < length l)%nat →
    ∃ s', next_times load_error r (S k) s = Some s'
          ∧ current s' = l !! k
          ∧ history_stack s' = history_stack s ++ take k l
          ∧ heap s' = heap s ∧ dll s' = dll s ∧ shuffle_on s' = shuffle_on s.
Proof.
  intros Hrepr Hsh Hcur Hloads. induction k as [|k IH]; intros Hk.
  - destruct (lookup_lt_is_Some_2 l 0%nat Hk) as [n Hn].
    simpl. unfold next_song, pick_next. rewrite Hsh, Hcur, (repr_head _ _ _ Hrepr), Hn.
    eexists. split; [done|]. unfold go_next. rewrite Hcur.
    destruct (play_node_loads n s) as (-> & _ & _);
      [by eapply Hloads, list_elem_of_lookup_2|].
    destruct (play_node_frame (Some n) s) as (-> & -> & -> & _ & _ & -> & _).
    by rewrite app_nil_r.
  - destruct IH as (s1 & Hs1 & Hc1 & Hh1 & Hheap & Hdll & Hsh1); [lia|].
    destruct (lookup_lt_is_Some_2 l k) as [c Hc]; [lia|].
    destruct (lookup_lt_is_Some_2 l (S k) Hk) as [n Hn].
    change (next_times load_error r (S (S k)) s)
      with (next_times load_error r (S k) s ≫= next_song load_error r).
    rewrite Hs1. simpl. unfold next_song, pick_next.
    rewrite Hsh1, Hsh, Hc1, Hc, Hheap.
    destruct (repr_links _ _ _ Hrepr k c Hc) as [-> _]. rewrite Hn.
    eexists. split; [done|]. unfold go_next. rewrite Hc1, Hc.
    destruct (play_node_loads n (set_history (history_stack s1 ++ [c]) s1)) as (-> & _ & _);
      [by eapply Hloads, list_elem_of_lookup_2|].
    destruct (play_node_frame (Some n) (set_history (history_stack s1 ++ [c]) s1))
      as (-> & -> & -> & _ & _ & -> & _).
    simpl. rewrite Hh1, (take_S_r l k c Hc), Hheap, Hdll, Hsh1.
    by rewrite app_assoc.
Qed.

(** X15: starting with no current track, shuffle off and every file loadable,
    [k + 1] calls of [next_song] arrive at the node at position [k] of the
    sequence, with the nodes before it on the history in the order they were
    played; one call more than there are nodes reports the end of the
    playlist and stays on the last node. *)
Theorem next_song_walks (r : nat) (s : App) (l : list Node) :
  dll_repr (heap s) (dll s) l → shuffle_on s = false → current s = None →
  (∀ n, n ∈ l → load_error (path n) = None) →
  (∀ k, (k < length l)%nat →
     ∃ s', next_times load_error r (S k) s = Some s'
           ∧ current s' = l !! k
           ∧ history_stack s' = history_stack s ++ take k l)
  ∧ (l ≠ [] →
     ∃ s', next_times load_error r (S (length l)) s = Some s'
           ∧ current s' = last l
           ∧ status (ui s') = "End of playlist").
Proof.
  intros Hrepr Hsh Hcur Hloads. split.
  - intros k Hk.
    destruct (next_times_walk r s l Hrepr Hsh Hcur Hloads k Hk) as (s' & ? & ? & ? & _).
    by exists s'.
  - intros Hne. assert (0 < length l)%nat as Hpos by (destruct l; simpl; [done | lia]).
    destruct (next_times_walk r s l Hrepr Hsh Hcur Hloads (length l - 1)) as
      (s1 & Hs1 & Hc1 & _ & Hheap & Hdll & Hsh1); [lia|].
    replace (S (length l - 1)) with (length l) in Hs1 by lia.
    change (next_times load_error r (S (length l)) s)
      with (next_times load_error r (length l) s ≫= next_song load_error r).
    rewrite Hs1. simpl.
    replace (length l - 1)%nat with (pred (length l)) in Hc1 by lia.
    rewrite <- last_lookup in Hc1.
    destruct (last l) as [c|] eqn:Hlast; [|by apply last_None_nil in Hlast].
    assert (dll_repr (heap s1) (dll s1) l) as Hrepr1 by (by rewrite Hheap, Hdll).
    unfold next_song, pick_next. rewrite Hsh1, Hsh, Hc1.
    rewrite last_lookup in Hlast.
    destruct (repr_links _ _ _ Hrepr1 _ c Hlast) as [-> _].
    rewrite lookup_ge_None_2 by lia. by eexists.
Qed.

(** *** The poll and the pause *)

(** X16: a tick of the poll leaves alone a track that has just been started;
    once the mixer has played it to the end, the tick calls [next_song]. *)
Theorem poll_advances_when_finished (r : nat) (s : App) (n : Node) :
  load_error (path n) = None →
  _poll_playback load_error r (play_node load_error (Some n) s)
  = Some (play_node load_error (Some n) s)
  ∧ _poll_playback load_error r (track_finished (play_node load_error (Some n) s))
    = next_song load_error r (track_finished (play_node load_error (Some n) s)).
Proof.
  intros Hok. destruct (play_node_loads n s Hok) as (Hcur & _ & Heng).
  remember (play_node load_error (Some n) s) as s' eqn:Hs'. clear Hs'.
  unfold _poll_playback, track_finished, set_engine.
  cbn [engine current paused mixer]. rewrite Hcur, Heng. simpl. done.
Qed.

(** X17: a tick of the poll right after a successful folder load does nothing. *)
Theorem poll_after_load (r : nat) (folder : string) (listing : list string) (s : App) :
  folder ≠ EmptyString → songs_of folder listing ≠ [] →
  _poll_playback load_error r (load_folder folder listing s)
  = Some (load_folder folder listing s).
Proof.
  intros Hfolder Hsongs. apply poll_no_current.
  by destruct (load_folder_built folder listing s Hfolder Hsongs) as (_ & ? & _).
Qed.

(** X18: on a playing track [_toggle_pause] pauses the stream, and while it is
    paused the poll does nothing; a second [_toggle_pause] resumes the
    stream.  The current track, the history and the ledger are the same
    after the two calls. *)
Theorem pause_then_resume (r : nat) (s : App) :
  stream (mixer (engine s)) = Playing → paused (engine s) = false →
  stream (mixer (engine (_toggle_pause s))) = Paused
  ∧ paused (engine (_toggle_pause s)) = true
  ∧ _poll_playback load_error r (_toggle_pause s) = Some (_toggle_pause s)
  ∧ stream (mixer (engine (_toggle_pause (_toggle_pause s)))) = Playing
  ∧ paused (engine (_toggle_pause (_toggle_pause s))) = false
  ∧ calls (mixer (engine (_toggle_pause (_toggle_pause s))))
    = calls (mixer (engine s)) ++ [MPause; MUnpause]
  ∧ current (_toggle_pause (_toggle_pause s)) = current s
  ∧ history_stack (_toggle_pause (_toggle_pause s)) = history_stack s
  ∧ play_counts (_toggle_pause (_toggle_pause s)) = play_counts s.
Proof.
  intros Hplay Hpaused.
  assert (_toggle_pause s = set_status "Paused" (set_engine (Engine.pause (engine s)) s))
    as Hfirst.
  { unfold _toggle_pause, Engine.is_busy, Music.get_busy. by rewrite Hplay, Hpaused. }
  rewrite Hfirst. unfold _toggle_pause, _poll_playback. simpl.
  rewrite andb_false_r. simpl. rewrite Hplay. simpl.
  rewrite <- app_assoc. by split_and!.
Qed.

(** *** The ranking, ties included *)

Lemma least_min h : ∀ m x, x ∈ m :: h → Heapq.tuple_ltb x (Heapq.least m h) = false.
Proof.
  assert (∀ a, Heapq.tuple_ltb a a = false) as Hirr.
  { intros a. destruct (Heapq.tuple_ltb a a) eqn:E; [|done].
    by rewrite (tuple_ltb_asym _ _ E) in E. }
  induction h as [|y h IH]; intros m x; simpl.
  - by intros ->%list_elem_of_singleton.
  - set (m' := if Heapq.tuple_ltb y m then y else m).
    assert (Heapq.tuple_ltb m m' = false ∧ Heapq.tuple_ltb y m' = false) as [Hm Hy].
    { unfold m'. destruct (Heapq.tuple_ltb y m) eqn:E; [|done].
      split; [by apply tuple_ltb_asym | apply Hirr]. }
    pose proof (IH m' m' (list_elem_of_here _ _)) as Hmin.
    intros [->|[->|Hx]%elem_of_cons]%elem_of_cons.
    + by apply (tuple_le_trans _ m').
    + by apply (tuple_le_trans _ m').
    + apply IH. by apply list_elem_of_further.
Qed.

Lemma pop_loop_ranked n : ∀ h,
  (n ≤ length h)%nat → NoDup h →
  ∃ popped, pop_loop n h [] = tuple_entry <$> popped
            ∧ StronglySorted (λ a b, Heapq.tuple_ltb a b = true) popped
            ∧ (∀ a, a ∈ popped → a ∈ h).
Proof.
  induction n as [|n IH]; intros h Hn Hnd.
  - exists []. split_and!; [done | constructor | by intros a ?%elem_of_nil].
  - destruct h as [|y h]; [simpl in Hn; lia|].
    destruct (Heapq.heappop (y :: h)) as [[[neg t] h']|] eqn:Hpop; [|done].
    assert (pop_loop (S n) (y :: h) [] = pop_loop n h' [(t, - neg)]) as ->
      by (cbn [pop_loop]; by rewrite Hpop).
    destruct (heappop_spec _ _ _ Hpop) as [Hperm _].
    assert (∀ x, x ∈ y :: h → Heapq.tuple_ltb x (neg, t) = false) as Hmin.
    { unfold Heapq.heappop in Hpop. injection Hpop as Hm _. rewrite <- Hm.
      intros x. apply least_min. }
    rewrite Hperm in Hnd. apply NoDup_cons in Hnd as [Hfresh Hnd'].
    destruct (IH h') as (popped & Hloop & Hsorted & Hsub); [|done|].
    { apply Permutation_length in Hperm. simpl in *. lia. }
    exists ((neg, t) :: popped). rewrite pop_loop_acc, Hloop. split_and!; [done | |].
    + constructor; [done|]. apply Forall_forall. intros x Hx%Hsub.
      destruct (Heapq.tuple_ltb (neg, t) x) eqn:E; [done|]. exfalso. apply Hfresh.
      rewrite (tuple_ltb_total (neg, t) x E); [done|].
      apply Hmin. rewrite Hperm. by apply list_elem_of_further.
    + intros a [->|Ha%Hsub]%elem_of_cons; rewrite Hperm;
        [apply list_elem_of_here | by apply list_elem_of_further].
Qed.

(** X19: the ranking is in descending order of play count, and entries with the
    same count are in ascending order of title: the listing is determined
    by the ledger alone. *)
Theorem top_items_ranked (k : Z) (pc : gmap string Z) :
  StronglySorted ranked_before (top_items k pc).
Proof.
  unfold top_items, Heapq.heapify.
  destruct (pop_loop_ranked
              (Z.to_nat (Z.min k (Z.of_nat (length (entry_tuple <$> map_to_list pc)))))
              (entry_tuple <$> map_to_list pc)) as (popped & Hloop & Hsorted & _).
  - lia.
  - apply NoDup_fmap_2_strong; [|apply NoDup_map_to_list].
    intros [t1 c1] [t2 c2] _ _ [= ? ?]. f_equal; [done | lia].
  - unfold entry_tuple in Hloop. rewrite Hloop.
    eapply StronglySorted_fmap_impl; [|exact Hsorted].
    intros a b Hab%tuple_ltb_spec. unfold ranked_before, tuple_entry. simpl.
    destruct Hab as [?|[? ?]]; [left; lia | right; split; [lia | done]].
Qed.

(** *** Replaying from the Top Played window *)

(** X20: playing the current track again from the Top Played window pushes it on
    the history, so the history grows by one; playing it again from the
    playlist leaves the history as it is. *)
Theorem replay_current (s : App) (c : Node) (i : nat) :
  current s = Some c →
  node_by_title s !! title c = Some c →
  load_error (path c) = None →
  selection (ui s) = Some i → playlist (ui s) !! i = Some (title c) →
  title c ≠ EmptyString →
  history_stack (play_sel load_error (Some (title c)) s) = history_stack s ++ [c]
  ∧ current (play_sel load_error (Some (title c)) s) = Some c
  ∧ history_stack (play_selected load_error s) = history_stack s
  ∧ current (play_selected load_error s) = Some c.
Proof.
  intros Hcur Hreg Hok Hsel Hrow Hne.
  unfold play_sel, play_selected. rewrite Hsel, Hrow, Hreg, Hcur.
  rewrite bool_decide_eq_false_2 by done.
  rewrite (bool_decide_eq_false_2 (addr c ≠ addr c)) by (by intros ?).
  destruct (play_node_loads c (set_history (history_stack s ++ [c]) s) Hok) as (-> & _).
  destruct (play_node_loads c s Hok) as (-> & _).
  destruct (play_node_frame (Some c) (set_history (history_stack s ++ [c]) s))
    as (_ & _ & _ & _ & _ & -> & _).
  by destruct (play_node_frame (Some c) s) as (_ & _ & _ & _ & _ & -> & _).
Qed.

(** *** Searching *)

Lemma on_search_change_spec text s ws :
  trie s = build ws →
  ∃ s', _on_search_change text s = Some s'
        ∧ (∀ w, w ∈ suggest_list (ui s') →
             w ∈ ws ∧ ∃ q, Py.lower w = Py.lower (Py.strip text) +:+ q)
        ∧ NoDup (suggest_list (ui s'))
        ∧ (length (suggest_list (ui s')) ≤ 30)%nat
        ∧ (Py.strip text = EmptyString → suggest_list (ui s') = [])
        ∧ s' = set_suggestions (suggest_list (ui s')) s.
Proof.
  intros Htrie. unfold _on_search_change. case_bool_decide as Hblank.
  - eexists. split; [done|]. simpl. split_and!; try done.
    + by intros w ?%elem_of_nil.
    + constructor.
    + lia.
  - rewrite Htrie.
    destruct (SearchTheory.prefix_search_total ws (Py.strip text) 30) as (out & Hout & Hlen).
    rewrite Hout. eexists. split; [done|]. simpl.
    destruct (TrieMore.prefix_search_among ws _ _ _ Hout) as [Hnd Hsound].
    split_and!; try done. lia.
Qed.

(** X21: on an index built from the titles [ws], [_on_search_change] returns;
    the suggestions it lists are among [ws], begin with the stripped text
    (case ignored), are at most 30 and all different; a text of white space
    only lists nothing.  Nothing but the suggestion list changes. *)
Theorem search_suggestions (text : string) (s : App) (ws : list string) :
  trie s = build ws →
  ∃ s', _on_search_change text s = Some s'
        ∧ (∀ w, w ∈ suggest_list (ui s') →
             w ∈ ws ∧ ∃ q, Py.lower w = Py.lower (Py.strip text) +:+ q)
        ∧ NoDup (suggest_list (ui s'))
        ∧ (length (suggest_list (ui s')) ≤ 30)%nat
        ∧ (Py.strip text = EmptyString → suggest_list (ui s') = [])
        ∧ s' = set_suggestions (suggest_list (ui s')) s.
Proof. apply on_search_change_spec. Qed.

(** Return in the search entry plays the first suggestion: the first row
    of the playlist that shows it is selected and the node registered under
    its title becomes the current track. *)
Lemma go_to_first_suggestion_plays s t rest node :
  suggest_list (ui s) = t :: rest →
  t ≠ EmptyString → t ∈ playlist (ui s) →
  node_by_title s !! t = Some node →
  load_error (path node) = None →
  current (_go_to_first_suggestion load_error s) = Some node
  ∧ play_counts (_go_to_first_suggestion load_error s)
    = count_play (title node) (play_counts s).
Proof.
  intros Hsug Hne Hin Hreg Hok. unfold _go_to_first_suggestion. rewrite Hsug.
  unfold _select_in_listbox.
  destruct (list_find (λ t0, t0 = t) (playlist (ui s))) as [[i t']|] eqn:Hfind.
  - apply list_find_Some in Hfind as (Hi & -> & _).
    unfold play_selected.
    cbn [ui set_ui selection playlist node_by_title current history_stack].
    rewrite Hi, Hreg. rewrite bool_decide_eq_false_2 by done.
    destruct (current s) as [c|]; [case_bool_decide|];
      match goal with |- context [play_node load_error (Some node) ?s1] =>
        by destruct (play_node_loads node s1 Hok) as (-> & -> & _) end.
  - apply list_find_None in Hfind. rewrite Forall_forall in Hfind.
    by apply Hfind in Hin.
Qed.

(** X22: clicking a suggestion selects the first row of the playlist that shows
    its title and plays nothing: the current track, the history, the ledger
    and the engine are as before. *)
Theorem choose_suggestion_selects (s : App) (i j : nat) (t : string) :
  suggest_list (ui s) !! i = Some t →
  playlist (ui s) !! j = Some t →
  (∀ k, (k < j)%nat → playlist (ui s) !! k ≠ Some t) →
  selection (ui (_choose_suggestion (Some i) s)) = Some j
  ∧ current (_choose_suggestion (Some i) s) = current s
  ∧ history_stack (_choose_suggestion (Some i) s) = history_stack s
  ∧ play_counts (_choose_suggestion (Some i) s) = play_counts s
  ∧ engine (_choose_suggestion (Some i) s) = engine s.
Proof.
  intros Hi Hj Hfirst. unfold _choose_suggestion, _select_in_listbox. rewrite Hi.
  destruct (list_find (λ t0, t0 = t) (playlist (ui s))) as [[k t']|] eqn:Hfind.
  - apply list_find_Some in Hfind as (Hk & -> & Hbefore). simpl.
    split_and!; try done. f_equal.
    destruct (Nat.lt_trichotomy k j) as [Hlt|[->|Hgt]]; [|done|].
    + by destruct (Hfirst k Hlt).
    + by destruct (Hbefore j t Hj Hgt).
  - apply list_find_None in Hfind. rewrite Forall_forall in Hfind.
    destruct (Hfind t); [by eapply list_elem_of_lookup_2 | done].
Qed.

End More.

End PlayerMore.

(** ** The invariant of the application *)

Module Machine.

Import Player TrieSpec DLLSpec PlayerSpec PlayerMoreSpec MachineSpec.
Import TrieTheory DLLTheory PlayerTheory SearchTheory PlayerMore.

Section Invariant.
Context (load_error : string → option string).

Lemma consistent_frame s s' l :
  consistent s l →
  heap s' = heap s → dll s' = dll s → trie s' = trie s →
  node_by_title s' = node_by_title s →
  playlist (ui s') = playlist (ui s) →
  (∀ c, current s' = Some c → c ∈ l) →
  (∀ n, n ∈ history_stack s' → n ∈ l) →
  (∀ w, w ∈ suggest_list (ui s') → w ∈ title <$> l) →
  consistent s' l.
Proof.
  intros [Hrepr Hrows Htrie Hreg _ _ _] Hh Hd Ht Hn Hp Hcur Hhist Hsug.
  split; try done; congruence.
Qed.

Lemma count_play_positive t pc : ledger_positive pc → ledger_positive (count_play t pc).
Proof.
  intros Hpos t' c. unfold count_play. destruct (decide (t = t')) as [->|Hne].
  - rewrite lookup_insert_eq. intros [= <-].
    destruct (pc !! t') as [c'|] eqn:E; simpl; [|lia]. specialize (Hpos _ _ E). lia.
  - rewrite lookup_insert_ne by done. apply Hpos.
Qed.

(** [play_node] on a node of the sequence keeps the invariant. *)
Lemma play_node_invariant node s l :
  consistent s l → engine_sound s → ledger_positive (play_counts s) →
  (∀ n, node = Some n → n ∈ l) →
  consistent (play_node load_error node s) l
  ∧ engine_sound (play_node load_error node s)
  ∧ ledger_positive (play_counts (play_node load_error node s)).
Proof.
  intros Hcons Heng Hpos Hnode.
  destruct (play_node_frame load_error node s)
    as (Hh & Hd & _ & Ht & Hn & Hhist & Hp & Hsug).
  destruct node as [n|]; [|done].
  destruct (load_error (path n)) as [msg|] eqn:Hload.
  - assert (play_node load_error (Some n) s
            = open_dialog (ShowError "Playback error" msg) s) as ->.
    { apply play_node_failed. unfold Engine.load_and_play. by rewrite Hload. }
    split_and!; [|done|done]. destruct Hcons. by split.
  - destruct (play_node_loads load_error n s Hload) as (Hcur & Hpc & He).
    split_and!.
    + apply (consistent_frame s); try done.
      * rewrite Hcur. intros c [= <-]. by apply Hnode.
      * rewrite Hhist. apply (cons_history _ _ Hcons).
      * rewrite Hsug. apply (cons_suggest _ _ Hcons).
    + unfold engine_sound. rewrite He, Hcur. simpl. split; [|done]. by split.
    + rewrite Hpc. by apply count_play_positive.
Qed.

Lemma set_history_consistent hs s l :
  consistent s l → (∀ n, n ∈ hs → n ∈ l) → consistent (set_history hs s) l.
Proof. intros [] Hhs. by split. Qed.

Lemma go_next_invariant nxt s l :
  consistent s l → engine_sound s → ledger_positive (play_counts s) →
  (∀ n, nxt = Some n → n ∈ l) →
  consistent (go_next load_error nxt s) l
  ∧ engine_sound (go_next load_error nxt s)
  ∧ ledger_positive (play_counts (go_next load_error nxt s)).
Proof.
  intros Hcons Heng Hpos Hnxt. unfold go_next. destruct nxt as [n|].
  - destruct (current s) as [c|] eqn:Hc.
    + apply play_node_invariant; [|done|done|naive_solver].
      apply set_history_consistent; [done|].
      intros x [Hx| ->%list_elem_of_singleton]%elem_of_app.
      * by apply (cons_history _ _ Hcons).
      * by apply (cons_current _ _ Hcons).
    + apply play_node_invariant; naive_solver.
  - split_and!; [|done|done]. destruct Hcons. by split.
Qed.

Lemma elem_of_choice r (seq : list Node) n : choice r seq = Some n → n ∈ seq.
Proof. unfold choice. apply list_elem_of_lookup_2. Qed.

(** [pick_next] returns, and its target is a node of the sequence. *)
Lemma pick_next_in r s l :
  consistent s l →
  ∃ nxt, pick_next r s = Some nxt ∧ ∀ n, nxt = Some n → n ∈ l.
Proof.
  intros Hcons. pose proof (cons_repr _ _ Hcons) as Hrepr.
  unfold pick_next, _random_next. rewrite (to_list_repr _ _ _ Hrepr).
  destruct (shuffle_on s).
  - eexists. split; [done|]. intros n. destruct l as [|x l']; [done|].
    destruct (current s) as [c|].
    + case_bool_decide; [done|].
      destruct (filter _ _) as [|y ys] eqn:Hf; [done|]. rewrite <- Hf.
      intros Hn%elem_of_choice. by apply list_elem_of_filter in Hn as [_ ?].
    + apply elem_of_choice.
  - eexists. split; [done|]. intros n. destruct (current s) as [c|] eqn:Hc.
    + apply (cons_current _ _ Hcons), list_elem_of_lookup in Hc as [i Hi].
      destruct (repr_links _ _ _ Hrepr i c Hi) as [-> _]. apply list_elem_of_lookup_2.
    + rewrite (repr_head _ _ _ Hrepr). apply list_elem_of_lookup_2.
Qed.

Lemma last_titled_in t (l : list Node) n : last (titled t l) = Some n → n ∈ l.
Proof.
  intros Hlast. rewrite last_lookup in Hlast. apply list_elem_of_lookup_2 in Hlast.
  by apply list_elem_of_filter in Hlast as [_ ?].
Qed.

Lemma select_in_listbox_frame t s :
  ∃ sel, _select_in_listbox t s
         = set_ui (mkUi (playlist (ui s)) sel (suggest_list (ui s)) (now_label (ui s))
                        (status (ui s)) (dialogs (ui s))) s.
Proof.
  unfold _select_in_listbox. destruct (list_find _ _) as [[i ?]|]; [by eexists|].
  exists (selection (ui s)). by destruct s as [? ? ? ? ? ? ? ? ? []].
Qed.

Lemma play_selected_invariant s l :
  consistent s l → engine_sound s → ledger_positive (play_counts s) →
  consistent (play_selected load_error s) l
  ∧ engine_sound (play_selected load_error s)
  ∧ ledger_positive (play_counts (play_selected load_error s)).
Proof.
  intros Hcons Heng Hpos. unfold play_selected.
  destruct (match selection (ui s) with
            | Some i => playlist (ui s) !! i
            | None => playlist (ui s) !! 0%nat
            end) as [t|]; [|done].
  case_bool_decide; [done|].
  destruct (node_by_title s !! t) as [node|] eqn:Hreg; [|done].
  rewrite (cons_registry _ _ Hcons) in Hreg. apply last_titled_in in Hreg.
  destruct (current s) as [c|] eqn:Hc; [case_bool_decide|];
    apply play_node_invariant; try done; try naive_solver.
  apply set_history_consistent; [done|].
  intros x [Hx| ->%list_elem_of_singleton]%elem_of_app.
  - by apply (cons_history _ _ Hcons).
  - by apply (cons_current _ _ Hcons).
Qed.

Lemma fill_suggest songs : ∀ s nodes,
  suggest_list (ui (foldl fill_step (s, nodes) songs).1) = suggest_list (ui s).
Proof.
  induction songs as [|[t p] songs IH]; intros s nodes; [done|].
  cbn [foldl]. unfold fill_step at 2. cbn [fst snd].
  destruct (DLL.append t p (heap s) (dll s)) as [[h d] node]. by rewrite IH.
Qed.

Lemma load_folder_rest folder listing s :
  folder ≠ EmptyString → songs_of folder listing ≠ [] →
  engine (load_folder folder listing s) = Engine.stop (engine s)
  ∧ suggest_list (ui (load_folder folder listing s)) = [].
Proof.
  intros Hfolder Hne. rewrite (load_folder_loaded _ _ _ Hfolder Hne).
  destruct (fill_spec (sorted_songs folder listing) (reset s) [] []
              (dll_repr_clear _ _))
    as (_ & _ & _ & _ & _ & _ & _ & _ & _ & Hengine & _).
  pose proof (fill_suggest (sorted_songs folder listing) (reset s) []) as Hsug.
  by split.
Qed.

Lemma load_folder_invariant folder listing s :
  invariant s → invariant (load_folder folder listing s).
Proof.
  intros Hinv. destruct (decide (folder = EmptyString)) as [->|Hfolder]; [done|].
  destruct (songs_of folder listing) as [|x xs] eqn:Hsongs.
  - unfold load_folder. rewrite bool_decide_eq_false_2, Hsongs by done.
    destruct Hinv as ((l & Hcons) & Heng & Hpos).
    split_and!; [|done|done]. exists l. destruct Hcons. by split.
  - assert (songs_of folder listing ≠ []) as Hne by (by rewrite Hsongs).
    destruct (load_folder_built folder listing s Hfolder Hne)
      as (Hhist & Hcur & Hpc & Htrie & Hrows & nodes & _ & Hrepr & Hnodes & Hreg0).
    assert (∀ t, node_by_title (load_folder folder listing s) !! t
                 = last (titled t nodes)) as Hreg.
    { intros t. rewrite Hreg0, register_lookup. by destruct (last (titled t nodes)). }
    destruct (load_folder_rest folder listing s Hfolder Hne) as [Hengine Hsug].
    assert (title <$> nodes = (sorted_songs folder listing).*1) as Htitles.
    { rewrite <- Hnodes, <- list_fmap_compose. by apply list_fmap_ext. }
    split_and!.
    + exists nodes. split; try done; try congruence.
      * rewrite Hhist. by intros n ?%elem_of_nil.
      * rewrite Hsug. by intros w ?%elem_of_nil.
    + unfold engine_sound. rewrite Hengine, Hcur. simpl. split; [by split | done].
    + rewrite Hpc. by destruct Hinv as (_ & _ & ?).
Qed.

Lemma on_search_change_invariant text s :
  invariant s → ∃ s', _on_search_change text s = Some s' ∧ invariant s'.
Proof.
  intros ((l & Hcons) & Heng & Hpos).
  destruct (on_search_change_spec text s (title <$> l) (cons_trie _ _ Hcons))
    as (s' & Hrun & Hsub & _ & _ & _ & Hs').
  exists s'. split; [done|]. rewrite Hs'. split_and!; [|done|done].
  exists l. destruct Hcons. split; try done. simpl. intros w Hw. by apply Hsub.
Qed.

(** Every event keeps the invariant, and none runs for ever. *)
Lemma run_invariant c s :
  invariant s → ∃ s', run load_error c s = Some s' ∧ invariant s'.
Proof.
  intros Hinv. pose proof Hinv as ((l & Hcons) & Heng & Hpos).
  destruct c as [folder listing|i| | | |r| | |r| |k|sel|text|sel| ]; simpl.
  - eexists. split; [done|]. by apply load_folder_invariant.
  - eexists. split; [done|]. unfold select_row.
    destruct (_ <? _)%nat; [|done]. split_and!; [|done|done].
    exists l. destruct Hcons. by split.
  - eexists. split; [done|].
    destruct (play_selected_invariant s l) as (? & ? & ?); try done.
    split_and!; [by exists l|done|done].
  - eexists. split; [done|]. unfold _toggle_pause.
    destruct Heng as [Hflag Hidle].
    destruct (Engine.is_busy (engine s) && negb (paused (engine s))) eqn:Hb.
    + apply andb_true_iff in Hb as [Hbusy _].
      unfold Engine.is_busy, Music.get_busy in Hbusy.
      destruct (stream (mixer (engine s))) eqn:Hst; try done.
      split_and!; [| |done].
      * exists l. destruct Hcons. by split.
      * unfold engine_sound. simpl. rewrite Hst. split; [by split|].
        intros Hc. by specialize (Hidle Hc).
    + split_and!; [| |done].
      * exists l. destruct Hcons. by split.
      * unfold engine_sound. simpl.
        destruct (stream (mixer (engine s))) eqn:Hst; simpl.
        -- split; [by split | done].
        -- assert (paused (engine s) = false) as Hp.
           { destruct Hflag as [Hf _]. destruct (paused (engine s)); [|done].
             by specialize (Hf eq_refl). }
           unfold Engine.is_busy, Music.get_busy in Hb. by rewrite Hst, Hp in Hb.
        -- split; [by split|]. intros Hc. specialize (Hidle Hc). congruence.
  - eexists. split; [done|]. split_and!; [| |done].
    + exists l. destruct Hcons. by split.
    + unfold engine_sound. simpl. split; [by split | done].
  - destruct (pick_next_in r s l Hcons) as (nxt & Hpick & Hnxt).
    unfold next_song. rewrite Hpick. eexists. split; [done|].
    destruct (go_next_invariant nxt s l) as (? & ? & ?); try done.
    split_and!; [by exists l|done|done].
  - eexists. split; [done|]. unfold prev_song.
    destruct (reverse (history_stack s)) as [|p rest] eqn:Hrev.
    + split_and!; [|done|done]. exists l. destruct Hcons. by split.
    + assert (history_stack s = reverse rest ++ [p]) as Hhist.
      { rewrite <- (reverse_involutive (history_stack s)), Hrev. apply reverse_cons. }
      destruct (play_node_invariant (Some p) (set_history (reverse rest) s) l)
        as (? & ? & ?); try done.
      * apply set_history_consistent; [done|]. intros n Hn.
        apply (cons_history _ _ Hcons). rewrite Hhist. apply elem_of_app. by left.
      * intros n [= <-]. apply (cons_history _ _ Hcons). rewrite Hhist.
        apply elem_of_app. right. apply list_elem_of_here.
      * split_and!; [by exists l|done|done].
  - eexists. split; [done|]. split_and!; [|done|done].
    exists l. destruct Hcons. by split.
  - unfold _poll_playback.
    destruct (negb (paused (engine s)) && bool_decide (is_Some (current s)));
      [|by eexists].
    destruct (negb (Engine.is_busy (engine s))); [|by eexists].
    destruct (pick_next_in r s l Hcons) as (nxt & Hpick & Hnxt).
    unfold next_song. rewrite Hpick. eexists. split; [done|].
    destruct (go_next_invariant nxt s l) as (? & ? & ?); try done.
    split_and!; [by exists l|done|done].
  - eexists. split; [done|]. split_and!; [| |done].
    + exists l. destruct Hcons. by split.
    + destruct Heng as [Hflag Hidle]. unfold engine_sound. simpl.
      destruct (stream (mixer (engine s))) eqn:Hst; simpl; try done.
      split; [|done]. split; [|done]. intros Hp. by apply Hflag in Hp.
  - eexists. split; [done|]. unfold show_top_played.
    case_bool_decide; (split_and!; [|done|done]); exists l; destruct Hcons; by split.
  - eexists. split; [done|]. unfold play_sel. destruct sel as [t|]; [|done].
    destruct (node_by_title s !! t) as [node|] eqn:Hreg; [|done].
    rewrite (cons_registry _ _ Hcons) in Hreg. apply last_titled_in in Hreg.
    destruct (go_next_invariant (Some node) s l) as (? & ? & ?); try done.
    { by intros n [= <-]. }
    split_and!; [by exists l|done|done].
  - by apply on_search_change_invariant.
  - eexists. split; [done|]. unfold _choose_suggestion. destruct sel as [i|]; [|done].
    destruct (suggest_list (ui s) !! i) as [t|]; [|done].
    destruct (select_in_listbox_frame t s) as [sel' ->].
    split_and!; [|done|done]. exists l. destruct Hcons. by split.
  - eexists. split; [done|]. unfold _go_to_first_suggestion.
    destruct (suggest_list (ui s)) as [|t rest]; [done|].
    destruct (select_in_listbox_frame t s) as [sel' ->].
    match goal with |- invariant (play_selected _ ?s1) =>
      destruct (play_selected_invariant s1 l) as (? & ? & ?) end; try done.
    + destruct Hcons. by split.
    + split_and!; [by exists l|done|done].
Qed.

Lemma init_invariant : invariant init.
Proof.
  split_and!.
  - exists []. split; try done. apply (dll_repr_clear _ DLL.new).
  - split; [by split | done].
  - by intros t c ?.
Qed.

Lemma reachable_invariant s : reachable load_error s → invariant s.
Proof.
  induction 1 as [|c s s' _ IH Hrun]; [apply init_invariant|].
  destruct (run_invariant c s IH) as (s'' & Hrun' & Hinv). congruence.
Qed.

(** X23: in every state the application can reach, every event handler
    returns: the walk along the list and the queue of the search come to an
    end. *)
Theorem reachable_total (s : App) (c : Command) :
  reachable load_error s → ∃ s', run load_error c s = Some s'.
Proof.
  intros Hreach. destruct (run_invariant c s (reachable_invariant s Hreach)) as (s' & ? & _).
  by exists s'.
Qed.

(** X24: in every state the application can reach, the list is well formed and
    the other attributes agree with it: [to_list] returns nodes that are all
    different, [size] is their number, the rows of the playlist are their
    titles, the registry maps a title to a node of the list that carries it,
    the current track and every entry of the history are nodes of the list,
    and every suggestion is a row of the playlist. *)
Theorem reachable_consistent (s : App) :
  reachable load_error s →
  ∃ l, DLL.to_list (heap s) (dll s) = Some l
       ∧ DLL.size (dll s) = length l
       ∧ NoDup (addr <$> l)
       ∧ playlist (ui s) = title <$> l
       ∧ (∀ t n, node_by_title s !! t = Some n → n ∈ l ∧ title n = t)
       ∧ (∀ c, current s = Some c → c ∈ l)
       ∧ (∀ n, n ∈ history_stack s → n ∈ l)
       ∧ (∀ w, w ∈ suggest_list (ui s) → w ∈ playlist (ui s)).
Proof.
  intros Hreach. destruct (reachable_invariant s Hreach) as ((l & Hcons) & _).
  exists l. pose proof (cons_repr _ _ Hcons) as Hrepr. split_and!.
  - by apply to_list_repr.
  - apply (repr_size _ _ _ Hrepr).
  - apply (repr_nodup _ _ _ Hrepr).
  - apply (cons_rows _ _ Hcons).
  - intros t n Hn. rewrite (cons_registry _ _ Hcons), last_lookup in Hn.
    apply list_elem_of_lookup_2, list_elem_of_filter in Hn as [? ?]. done.
  - apply (cons_current _ _ Hcons).
  - apply (cons_history _ _ Hcons).
  - rewrite (cons_rows _ _ Hcons). apply (cons_suggest _ _ Hcons).
Qed.

(** X25: in every state the application can reach, the [paused] flag is set
    exactly while the mixer holds a paused stream, the mixer is idle while
    there is no current track, and a busy mixer means a current track that
    is not paused. *)
Theorem reachable_engine (s : App) :
  reachable load_error s →
  (paused (engine s) = true ↔ stream (mixer (engine s)) = Paused)
  ∧ (current s = None → stream (mixer (engine s)) = Idle)
  ∧ (Engine.is_busy (engine s) = true →
       paused (engine s) = false ∧ is_Some (current s)).
Proof.
  intros Hreach. destruct (reachable_invariant s Hreach) as (_ & [Hflag Hidle] & _).
  split; [done|]. split; [done|].
  unfold Engine.is_busy, Music.get_busy. intros Hbusy. split.
  - destruct (paused (engine s)); [|done].
    destruct Hflag as [Hf _]. rewrite (Hf eq_refl) in Hbusy. done.
  - destruct (current s) as [c|]; [by eexists|]. by rewrite Hidle in Hbusy.
Qed.

(** X26: in every state the application can reach, a title of the ledger has
    been played at least once. *)
Theorem reachable_ledger (s : App) (t : string) (c : Z) :
  reachable load_error s → play_counts s !! t = Some c → 1 ≤ c.
Proof.
  intros Hreach. destruct (reachable_invariant s Hreach) as (_ & _ & Hpos). apply Hpos.
Qed.

(** X27: when several rows show the same title, [play_selected] on any of them
    plays the last node of the list with that title. *)
Theorem play_selected_same_title (s : App) (l : list Node) (i : nat) (n : Node) :
  reachable load_error s →
  DLL.to_list (heap s) (dll s) = Some l →
  selection (ui s) = Some i → l !! i = Some n → title n ≠ EmptyString →
  ∃ m, last (titled (title n) l) = Some m
       ∧ (load_error (path m) = None →
            current (play_selected load_error s) = Some m
            ∧ play_counts (play_selected load_error s)
              = count_play (title n) (play_counts s)).
Proof.
  intros Hreach Hlist Hsel Hi Hne.
  destruct (reachable_invariant s Hreach) as ((l' & Hcons) & _).
  rewrite (to_list_repr _ _ _ (cons_repr _ _ Hcons)) in Hlist. injection Hlist as ->.
  destruct (last (titled (title n) l)) as [m|] eqn:Hlast.
  - exists m. split; [done|]. intros Hok.
    assert (title m = title n) as Hm.
    { rewrite last_lookup in Hlast.
      by apply list_elem_of_lookup_2, list_elem_of_filter in Hlast as [? _]. }
    unfold play_selected. rewrite Hsel, (cons_rows _ _ Hcons), list_lookup_fmap, Hi.
    cbn [fmap option_fmap option_map]. rewrite bool_decide_eq_false_2 by done.
    rewrite (cons_registry _ _ Hcons), Hlast, <- Hm.
    destruct (current s) as [c|]; [case_bool_decide|];
      match goal with |- context [play_node load_error (Some m) ?s1] =>
        by destruct (play_node_loads load_error m s1 Hok) as (-> & -> & _) end.
  - apply last_None_nil in Hlast.
    assert (n ∈ titled (title n) l) as Hin
      by (apply list_elem_of_filter; split; [done | by eapply list_elem_of_lookup_2]).
    rewrite Hlast in Hin. by apply elem_of_nil in Hin.
Qed.

(** X28: typing a text and pressing Return plays a track whose title begins,
    case ignored, with the stripped text: the first suggestion, when there is
    one, is the title of a registered node, which becomes the current track
    when its file loads. *)
Theorem search_then_enter (text : string) (s s1 : App) (t : string)
    (rest : list string) :
  reachable load_error s →
  _on_search_change text s = Some s1 →
  suggest_list (ui s1) = t :: rest → t ≠ EmptyString →
  ∃ n q, node_by_title s1 !! t = Some n
         ∧ title n = t
         ∧ Py.lower t = Py.lower (Py.strip text) +:+ q
         ∧ (load_error (path n) = None →
              current (_go_to_first_suggestion load_error s1) = Some n).
Proof.
  intros Hreach Hrun Hsug Hne.
  destruct (reachable_invariant s Hreach) as ((l & Hcons) & _).
  destruct (on_search_change_spec text s (title <$> l) (cons_trie _ _ Hcons))
    as (s' & Hrun' & Hsound & _ & _ & _ & Hs').
  rewrite Hrun in Hrun'. injection Hrun' as <-.
  destruct (Hsound t) as [Hin [q Hq]]; [rewrite Hsug; apply list_elem_of_here|].
  apply list_elem_of_fmap in Hin as (x & Hx & Hxl).
  assert (node_by_title s1 = node_by_title s ∧ playlist (ui s1) = playlist (ui s))
    as [Hreg Hrows] by (by rewrite Hs').
  destruct (last (titled t l)) as [n|] eqn:Hlast.
  - assert (title n = t) as Hn.
    { rewrite last_lookup in Hlast.
      by apply list_elem_of_lookup_2, list_elem_of_filter in Hlast as [? _]. }
    assert (node_by_title s1 !! t = Some n) as Hlook
      by (by rewrite Hreg, (cons_registry _ _ Hcons)).
    exists n, q. split_and!; try done. intros Hok.
    apply (go_to_first_suggestion_plays load_error s1 t rest n); try done.
    rewrite Hrows, (cons_rows _ _ Hcons). apply list_elem_of_fmap. by exists x.
  - apply last_None_nil in Hlast.
    assert (x ∈ titled t l) as Hin by (by apply list_elem_of_filter).
    rewrite Hlast in Hin. by apply elem_of_nil in Hin.
Qed.

End Invariant.

End Machine.

(** ** The further theorems at concrete inputs *)

Module MoreChecks.

Import Player TrieSpec TrieMoreSpec DLLSpec PlayerSpec PlayerMoreSpec MachineSpec Runs
  MoreRuns.

Lemma two_tracks_reachable : reachable loads_all two_tracks.
Proof.
  apply (reach_step _ (LoadFolder "/music" ["a.mp3"; "b.mp3"]) init);
    [apply reach_init | reflexivity].
Qed.

Lemma playing_a_reachable : reachable loads_all playing_a.
Proof.
  apply (reach_step _ PlaySelected two_tracks);
    [apply two_tracks_reachable | reflexivity].
Qed.

Lemma twins_reachable : reachable loads_all twins.
Proof.
  apply (reach_step _ (SelectRow 0) (load_folder "/music" ["a.mp3"; "a.wav"] init));
    [|reflexivity].
  apply (reach_step _ (LoadFolder "/music" ["a.mp3"; "a.wav"]) init);
    [apply reach_init | reflexivity].
Qed.

Lemma prefix_search_case_insensitive_witness :
  Py.lower "BE" = Py.lower "be"
  ∧ prefix_search (build ["alpha"; "Beta"; "Gamma"]) "BE" 20
    = prefix_search (build ["alpha"; "Beta"; "Gamma"]) "be" 20.
Proof.
  assert (Py.lower "BE" = Py.lower "be") as H by reflexivity.
  exact (conj H (TrieMore.prefix_search_case_insensitive
                   (build ["alpha"; "Beta"; "Gamma"]) "BE" "be" 20 H)).
Defined.

Lemma prefix_search_sound_witness :
  prefix_search (build ["alpha"; "Beta"; "Gamma"]) "b" 20 = Some ["Beta"]
  ∧ NoDup ["Beta"]
  ∧ ∀ w, w ∈ ["Beta"] →
      w ∈ ["alpha"; "Beta"; "Gamma"] ∧ ∃ q, Py.lower w = Py.lower "b" +:+ q.
Proof.
  assert (prefix_search (build ["alpha"; "Beta"; "Gamma"]) "b" 20 = Some ["Beta"]) as H
    by (vm_compute; reflexivity).
  exact (conj H (TrieMore.prefix_search_sound ["alpha"; "Beta"; "Gamma"] "b" 20 ["Beta"] H)).
Defined.

Lemma prefix_search_shorter_first_witness :
  prefix_search (build ["Abcd"; "ab"; "abc"]) "a" 20 = Some ["ab"; "abc"; "Abcd"]
  ∧ StronglySorted (λ a b, (key_length a ≤ key_length b)%nat) ["ab"; "abc"; "Abcd"].
Proof.
  assert (prefix_search (build ["Abcd"; "ab"; "abc"]) "a" 20 = Some ["ab"; "abc"; "Abcd"])
    as H by (vm_compute; reflexivity).
  exact (conj H (TrieMore.prefix_search_shorter_first ["Abcd"; "ab"; "abc"] "a" 20 _ H)).
Defined.

Lemma prefix_search_finds_latest_witness :
  Py.lower "Gamma" = Py.lower "gA" +:+ "mma"
  ∧ Z.of_nat (length (matching (build (["alpha"; "Beta"] ++ ["Gamma"])) "gA")) ≤ 20
  ∧ ∃ out, prefix_search (build (["alpha"; "Beta"] ++ ["Gamma"])) "gA" 20 = Some out
           ∧ "Gamma" ∈ out.
Proof.
  assert (Py.lower "Gamma" = Py.lower "gA" +:+ "mma") as H1 by reflexivity.
  assert (Z.of_nat (length (matching (build (["alpha"; "Beta"] ++ ["Gamma"])) "gA")) ≤ 20)
    as H2 by (vm_compute; discriminate).
  exact (conj H1 (conj H2
           (TrieMore.prefix_search_finds_latest ["alpha"; "Beta"] "Gamma" "gA" "mma" 20 H1 H2))).
Defined.

Lemma from_nodes_rebuilds_witness :
  NoDup (addr <$> [node_b; node_a])
  ∧ DLL.to_list (DLL.from_nodes [node_b; node_a] (heap two_tracks) (dll two_tracks)).1
                (DLL.from_nodes [node_b; node_a] (heap two_tracks) (dll two_tracks)).2
    = Some [node_b; node_a]
  ∧ DLL.size (DLL.from_nodes [node_b; node_a] (heap two_tracks) (dll two_tracks)).2 = 2%nat.
Proof.
  assert (NoDup (addr <$> [node_b; node_a])) as H.
  { apply (bool_decide_eq_true_1 (NoDup (addr <$> [node_b; node_a]))). reflexivity. }
  destruct (DLLMore.from_nodes_rebuilds [node_b; node_a] (heap two_tracks) (dll two_tracks) H)
    as (Hlist & Hsize & _).
  exact (conj H (conj Hlist Hsize)).
Defined.

Lemma load_folder_sorted_witness :
  "/music" ≠ EmptyString ∧ songs_of "/music" ["b.mp3"; "A.wav"; "notes.txt"] ≠ []
  ∧ playlist (ui (load_folder "/music" ["b.mp3"; "A.wav"; "notes.txt"] init))
    ≡ₚ (songs_of "/music" ["b.mp3"; "A.wav"; "notes.txt"]).*1
  ∧ StronglySorted title_le
      (playlist (ui (load_folder "/music" ["b.mp3"; "A.wav"; "notes.txt"] init))).
Proof.
  assert ("/music" ≠ EmptyString) as H1 by discriminate.
  assert (songs_of "/music" ["b.mp3"; "A.wav"; "notes.txt"] ≠ []) as H2
    by (vm_compute; discriminate).
  destruct (PlayerMore.load_folder_sorted "/music" ["b.mp3"; "A.wav"; "notes.txt"] init H1 H2)
    as (Hperm & Hsorted & _).
  exact (conj H1 (conj H2 (conj Hperm Hsorted))).
Defined.

Lemma load_folder_registry_witness :
  "/music" ≠ EmptyString ∧ songs_of "/music" ["a.mp3"; "a.wav"] ≠ []
  ∧ ∃ nodes,
      DLL.to_list (heap (load_folder "/music" ["a.mp3"; "a.wav"] init))
                  (dll (load_folder "/music" ["a.mp3"; "a.wav"] init)) = Some nodes
      ∧ ∀ t, node_by_title (load_folder "/music" ["a.mp3"; "a.wav"] init) !! t
             = last (titled t nodes).
Proof.
  assert ("/music" ≠ EmptyString) as H1 by discriminate.
  assert (songs_of "/music" ["a.mp3"; "a.wav"] ≠ []) as H2 by (vm_compute; discriminate).
  exact (conj H1 (conj H2
           (PlayerMore.load_folder_registry "/music" ["a.mp3"; "a.wav"] init H1 H2))).
Defined.

Lemma prev_song_failed_load_witness :
  history_stack playing_b = [] ++ [node_a]
  ∧ fails_a (path node_a) = Some "cannot open"
  ∧ history_stack (prev_song fails_a playing_b) = []
  ∧ current (prev_song fails_a playing_b) = current playing_b.
Proof.
  assert (history_stack playing_b = [] ++ [node_a]) as H1 by (vm_compute; reflexivity).
  assert (fails_a (path node_a) = Some "cannot open") as H2 by reflexivity.
  destruct (PlayerMore.prev_song_failed_load fails_a playing_b [] node_a "cannot open" H1 H2)
    as (Hh & Hc & _).
  exact (conj H1 (conj H2 (conj Hh Hc))).
Defined.

Lemma next_song_in_order_witness :
  dll_repr (heap playing_b) (dll playing_b) [node_a; node_b]
  ∧ shuffle_on playing_b = false
  ∧ last [node_a; node_b] = Some node_b
  ∧ current playing_b = Some node_b
  ∧ next_song loads_all 0 playing_b = Some (set_status "End of playlist" playing_b).
Proof.
  assert (dll_repr (heap playing_b) (dll playing_b) [node_a; node_b]) as H1.
  { assert (heap playing_b = heap two_tracks) as -> by reflexivity.
    assert (dll playing_b = dll two_tracks) as -> by reflexivity.
    exact Checks.two_tracks_repr. }
  assert (shuffle_on playing_b = false) as H2 by (vm_compute; reflexivity).
  assert (last [node_a; node_b] = Some node_b) as H3 by reflexivity.
  assert (current playing_b = Some node_b) as H4 by (vm_compute; reflexivity).
  destruct (PlayerMore.next_song_in_order loads_all 0 playing_b [node_a; node_b] H1 H2)
    as (_ & _ & Hend).
  exact (conj H1 (conj H2 (conj H3 (conj H4 (Hend node_b H3 H4))))).
Defined.

Lemma next_song_walks_witness :
  dll_repr (heap two_tracks) (dll two_tracks) [node_a; node_b]
  ∧ shuffle_on two_tracks = false
  ∧ current two_tracks = None
  ∧ (∀ n, n ∈ [node_a; node_b] → loads_all (path n) = None)
  ∧ ∃ s', next_times loads_all 0 2 two_tracks = Some s'
          ∧ current s' = [node_a; node_b] !! 1%nat
          ∧ history_stack s' = history_stack two_tracks ++ take 1 [node_a; node_b].
Proof.
  assert (shuffle_on two_tracks = false) as H2 by (vm_compute; reflexivity).
  assert (current two_tracks = None) as H3 by (vm_compute; reflexivity).
  assert (∀ n, n ∈ [node_a; node_b] → loads_all (path n) = None) as H4
    by (intros n _; reflexivity).
  destruct (PlayerMore.next_song_walks loads_all 0 two_tracks [node_a; node_b]
              Checks.two_tracks_repr H2 H3 H4) as [Hwalk _].
  refine (conj Checks.two_tracks_repr (conj H2 (conj H3 (conj H4 (Hwalk 1%nat _))))).
  simpl. lia.
Defined.

Lemma poll_advances_when_finished_witness :
  loads_all (path node_a) = None
  ∧ _poll_playback loads_all 0 (play_node loads_all (Some node_a) two_tracks)
    = Some (play_node loads_all (Some node_a) two_tracks)
  ∧ _poll_playback loads_all 0
      (track_finished (play_node loads_all (Some node_a) two_tracks))
    = next_song loads_all 0
        (track_finished (play_node loads_all (Some node_a) two_tracks)).
Proof.
  assert (loads_all (path node_a) = None) as H by reflexivity.
  exact (conj H (PlayerMore.poll_advances_when_finished loads_all 0 two_tracks node_a H)).
Defined.

Lemma poll_after_load_witness :
  "/music" ≠ EmptyString ∧ songs_of "/music" ["a.mp3"; "b.mp3"] ≠ []
  ∧ _poll_playback loads_all 0 (load_folder "/music" ["a.mp3"; "b.mp3"] playing_a)
    = Some (load_folder "/music" ["a.mp3"; "b.mp3"] playing_a).
Proof.
  assert ("/music" ≠ EmptyString) as H1 by discriminate.
  assert (songs_of "/music" ["a.mp3"; "b.mp3"] ≠ []) as H2 by (vm_compute; discriminate).
  exact (conj H1 (conj H2
           (PlayerMore.poll_after_load loads_all 0 "/music" ["a.mp3"; "b.mp3"] playing_a
              H1 H2))).
Defined.

Lemma pause_then_resume_witness :
  stream (mixer (engine playing_a)) = Playing
  ∧ paused (engine playing_a) = false
  ∧ stream (mixer (engine (_toggle_pause playing_a))) = Paused
  ∧ paused (engine (_toggle_pause playing_a)) = true.
Proof.
  assert (stream (mixer (engine playing_a)) = Playing) as H1 by (vm_compute; reflexivity).
  assert (paused (engine playing_a) = false) as H2 by (vm_compute; reflexivity).
  destruct (PlayerMore.pause_then_resume loads_all 0 playing_a H1 H2) as (Hs & Hp & _).
  exact (conj H1 (conj H2 (conj Hs Hp))).
Defined.

Lemma replay_current_witness :
  current playing_a = Some node_a
  ∧ node_by_title playing_a !! title node_a = Some node_a
  ∧ loads_all (path node_a) = None
  ∧ selection (ui playing_a) = Some 0%nat
  ∧ playlist (ui playing_a) !! 0%nat = Some (title node_a)
  ∧ title node_a ≠ EmptyString
  ∧ history_stack (play_sel loads_all (Some (title node_a)) playing_a)
    = history_stack playing_a ++ [node_a]
  ∧ history_stack (play_selected loads_all playing_a) = history_stack playing_a.
Proof.
  assert (current playing_a = Some node_a) as H1 by (vm_compute; reflexivity).
  assert (node_by_title playing_a !! title node_a = Some node_a) as H2
    by (vm_compute; reflexivity).
  assert (loads_all (path node_a) = None) as H3 by reflexivity.
  assert (selection (ui playing_a) = Some 0%nat) as H4 by (vm_compute; reflexivity).
  assert (playlist (ui playing_a) !! 0%nat = Some (title node_a)) as H5
    by (vm_compute; reflexivity).
  assert (title node_a ≠ EmptyString) as H6 by discriminate.
  destruct (PlayerMore.replay_current loads_all playing_a node_a 0 H1 H2 H3 H4 H5 H6)
    as (Hsel & _ & Hrow & _).
  exact (conj H1 (conj H2 (conj H3 (conj H4 (conj H5 (conj H6 (conj Hsel Hrow))))))).
Defined.

Lemma search_suggestions_witness :
  trie two_tracks = build ["a"; "b"]
  ∧ ∃ s', _on_search_change " B " two_tracks = Some s'
          ∧ (∀ w, w ∈ suggest_list (ui s') →
               w ∈ ["a"; "b"] ∧ ∃ q, Py.lower w = Py.lower (Py.strip " B ") +:+ q)
          ∧ NoDup (suggest_list (ui s'))
          ∧ (length (suggest_list (ui s')) ≤ 30)%nat
          ∧ (Py.strip " B " = EmptyString → suggest_list (ui s') = [])
          ∧ s' = set_suggestions (suggest_list (ui s')) two_tracks.
Proof.
  assert (trie two_tracks = build ["a"; "b"]) as H by (vm_compute; reflexivity).
  exact (conj H (PlayerMore.search_suggestions " B " two_tracks ["a"; "b"] H)).
Defined.

Lemma choose_suggestion_selects_witness :
  suggest_list (ui searched_b) !! 0%nat = Some "b"
  ∧ playlist (ui searched_b) !! 1%nat = Some "b"
  ∧ (∀ k, (k < 1)%nat → playlist (ui searched_b) !! k ≠ Some "b")
  ∧ selection (ui (_choose_suggestion (Some 0%nat) searched_b)) = Some 1%nat
  ∧ current (_choose_suggestion (Some 0%nat) searched_b) = current searched_b.
Proof.
  assert (suggest_list (ui searched_b) !! 0%nat = Some "b") as H1
    by (vm_compute; reflexivity).
  assert (playlist (ui searched_b) !! 1%nat = Some "b") as H2 by (vm_compute; reflexivity).
  assert (∀ k, (k < 1)%nat → playlist (ui searched_b) !! k ≠ Some "b") as H3.
  { intros [|k] Hk; [vm_compute; discriminate | lia]. }
  destruct (PlayerMore.choose_suggestion_selects searched_b 0 1 "b" H1 H2 H3)
    as (Hsel & Hcur & _).
  exact (conj H1 (conj H2 (conj H3 (conj Hsel Hcur)))).
Defined.

Lemma reachable_total_witness :
  reachable loads_all playing_a ∧ ∃ s', run loads_all (Next 0) playing_a = Some s'.
Proof.
  exact (conj playing_a_reachable
           (Machine.reachable_total loads_all playing_a (Next 0) playing_a_reachable)).
Defined.

Lemma reachable_consistent_witness :
  reachable loads_all playing_a
  ∧ ∃ l, DLL.to_list (heap playing_a) (dll playing_a) = Some l
         ∧ DLL.size (dll playing_a) = length l
         ∧ NoDup (addr <$> l)
         ∧ playlist (ui playing_a) = title <$> l.
Proof.
  destruct (Machine.reachable_consistent loads_all playing_a playing_a_reachable)
    as (l & Hl & Hsize & Hnd & Hrows & _).
  exact (conj playing_a_reachable
           (ex_intro _ l (conj Hl (conj Hsize (conj Hnd Hrows))))).
Defined.

Lemma reachable_engine_witness :
  reachable loads_all playing_a
  ∧ Engine.is_busy (engine playing_a) = true
  ∧ paused (engine playing_a) = false ∧ is_Some (current playing_a).
Proof.
  assert (Engine.is_busy (engine playing_a) = true) as Hb by (vm_compute; reflexivity).
  destruct (Machine.reachable_engine loads_all playing_a playing_a_reachable)
    as (_ & _ & Hbusy).
  exact (conj playing_a_reachable (conj Hb (Hbusy Hb))).
Defined.

Lemma reachable_ledger_witness :
  reachable loads_all playing_a ∧ play_counts playing_a !! "a" = Some 1 ∧ 1 ≤ 1.
Proof.
  assert (play_counts playing_a !! "a" = Some 1) as H by (vm_compute; reflexivity).
  exact (conj playing_a_reachable
           (conj H (Machine.reachable_ledger loads_all playing_a "a" 1
                      playing_a_reachable H))).
Defined.

Lemma play_selected_same_title_witness :
  reachable loads_all twins
  ∧ DLL.to_list (heap twins) (dll twins) = Some [twin_mp3; twin_wav]
  ∧ selection (ui twins) = Some 0%nat
  ∧ [twin_mp3; twin_wav] !! 0%nat = Some twin_mp3
  ∧ title twin_mp3 ≠ EmptyString
  ∧ ∃ m, last (titled (title twin_mp3) [twin_mp3; twin_wav]) = Some m
         ∧ (loads_all (path m) = None →
              current (play_selected loads_all twins) = Some m
              ∧ play_counts (play_selected loads_all twins)
                = count_play (title twin_mp3) (play_counts twins)).
Proof.
  assert (DLL.to_list (heap twins) (dll twins) = Some [twin_mp3; twin_wav]) as H1
    by (vm_compute; reflexivity).
  assert (selection (ui twins) = Some 0%nat) as H2 by (vm_compute; reflexivity).
  assert ([twin_mp3; twin_wav] !! 0%nat = Some twin_mp3) as H3 by reflexivity.
  assert (title twin_mp3 ≠ EmptyString) as H4 by discriminate.
  exact (conj twins_reachable (conj H1 (conj H2 (conj H3 (conj H4
           (Machine.play_selected_same_title loads_all twins [twin_mp3; twin_wav] 0
              twin_mp3 twins_reachable H1 H2 H3 H4)))))).
Defined.

Lemma search_then_enter_witness :
  reachable loads_all two_tracks
  ∧ _on_search_change "b" two_tracks = Some searched_b
  ∧ suggest_list (ui searched_b) = "b" :: []
  ∧ "b" ≠ EmptyString
  ∧ ∃ n q, node_by_title searched_b !! "b" = Some n
           ∧ title n = "b"
           ∧ Py.lower "b" = Py.lower (Py.strip "b") +:+ q
           ∧ (loads_all (path n) = None →
                current (_go_to_first_suggestion loads_all searched_b) = Some n).
Proof.
  assert (_on_search_change "b" two_tracks = Some searched_b) as H1
    by (vm_compute; reflexivity).
  assert (suggest_list (ui searched_b) = "b" :: []) as H2 by (vm_compute; reflexivity).
  assert ("b" ≠ EmptyString) as H3 by discriminate.
  exact (conj two_tracks_reachable (conj H1 (conj H2 (conj H3
           (Machine.search_then_enter loads_all "b" two_tracks searched_b "b" []
              two_tracks_reachable H1 H2 H3))))).
Defined.

End MoreChecks.
